(** * safe-cpp-csv-parser: a shallow embedding of [csv.h] and its properties

    The development follows the layers of the header: the error objects,
    the line-buffering [LineReader], the quote/trim/comment policies, the
    column tokenizer, the header resolver, the field parsers and the
    [CSVReader] that puts them together.

    Modelling conventions.
    - A [char] is an [ascii]; a C string (a [char*] to a NUL-terminated
      run) is the [list ascii] of the bytes before the terminator, and a
      null pointer is [None].
    - [int] and [unsigned] values are [Z]; wrap-around is written out
      where the code can reach it.
    - The shared error slot [std::shared_ptr<error::error> &err] is an
      [option error] threaded through every call.
    - Output parameters ([T &x]) are passed in and returned.
    - A floating-point type is a type with the operations of
      [FloatOps]; nothing is assumed of their rounding.
    - A loop whose number of rounds the input does not bound takes fuel,
      and a call that does not return is [None]. *)

From Stdlib Require Import ZArith Ascii String Bool Lia List.
From Stdlib Require Import DecimalString DecimalPos Permutation.
Import ListNotations.
Open Scope Z_scope.

Set Implicit Arguments.

(** ** Characters and C strings *)

Definition cstring := list ascii.

Definition lit (s : string) : cstring := list_ascii_of_string s.

Definition NUL : ascii := ascii_of_nat 0.
Definition LF : ascii := ascii_of_nat 10.
Definition CR : ascii := ascii_of_nat 13.
Definition TAB : ascii := ascii_of_nat 9.
Definition SPACE : ascii := ascii_of_nat 32.
Definition DQUOTE : ascii := ascii_of_nat 34.
Definition PLUS : ascii := ascii_of_nat 43.
Definition COMMA : ascii := ascii_of_nat 44.
Definition MINUS : ascii := ascii_of_nat 45.
Definition DOT : ascii := ascii_of_nat 46.

Definition code (c : ascii) : Z := Z.of_nat (nat_of_ascii c).

Definition ch_eqb (a b : ascii) : bool := Ascii.eqb a b.

(** The view of a byte run as a C string: everything before the first
    NUL. *)
Fixpoint c_str (l : list ascii) : cstring :=
  match l with
  | [] => []
  | c :: l' => if ch_eqb c NUL then [] else c :: c_str l'
  end.

(** [ss << n] for an [int]. *)
Definition dec (n : Z) : cstring := lit (NilEmpty.string_of_int (Z.to_int n)).

(** ** Error objects (namespace [io::error]) *)

Module Error.

Inductive error_kind :=
| internal_error
| cannot_open_file
| line_length_limit_exceeded
| extra_column_in_header
| missing_column_in_header
| duplicated_column_in_header
| header_missing
| too_few_columns
| too_many_columns
| escaped_string_not_closed
| integer_must_be_positive
| no_digit
| integer_overflow
| integer_underflow
| invalid_single_character.

Definition max_file_name_length : Z := 255.
Definition max_column_name_length : Z := 63.
Definition max_column_content_length : Z := 63.

(** [class error]: the dynamic class is [kind]; [error] is the message. *)
Record error := mk_error {
  kind : error_kind;
  error_ : cstring;
  file_name : cstring;
  column_name : cstring;
  column_content : cstring;
  file_line : Z;
  errno_ : Z
}.

(** [std::make_shared<K>()]: value-initialised, strings empty, ints 0. *)
Definition make_shared (k : error_kind) : error :=
  mk_error k [] [] [] [] 0 0.

Definition set_file_name (e : error) (s : cstring) : error :=
  mk_error (kind e) (error_ e) s (column_name e) (column_content e)
           (file_line e) (errno_ e).
Definition set_file_line (e : error) (n : Z) : error :=
  mk_error (kind e) (error_ e) (file_name e) (column_name e)
           (column_content e) n (errno_ e).
Definition set_errno (e : error) (n : Z) : error :=
  mk_error (kind e) (error_ e) (file_name e) (column_name e)
           (column_content e) (file_line e) n.
Definition set_column_name (e : error) (s : cstring) : error :=
  mk_error (kind e) (error_ e) (file_name e) s (column_content e)
           (file_line e) (errno_ e).
Definition set_column_content (e : error) (s : cstring) : error :=
  mk_error (kind e) (error_ e) (file_name e) (column_name e) s
           (file_line e) (errno_ e).
Definition set_error (e : error) (s : cstring) : error :=
  mk_error (kind e) s (file_name e) (column_name e) (column_content e)
           (file_line e) (errno_ e).

Section Format.

(** [std::strerror] belongs to the C library. *)
Variable strerror : Z -> cstring.

Definition message (e : error) : cstring :=
  match kind e with
  | internal_error => error_ e
  | cannot_open_file =>
      lit "Can not open file " ++ [DQUOTE] ++ file_name e ++ [DQUOTE] ++
      (if errno_ e =? 0 then []
       else lit " because " ++ [DQUOTE] ++ strerror (errno_ e)
            ++ [DQUOTE] ++ lit ".")
  | line_length_limit_exceeded =>
      lit "Line number " ++ dec (file_line e) ++ lit " in file " ++ [DQUOTE]
      ++ file_name e ++ [DQUOTE] ++ lit " exceeds the maximum length of 2^24-1."
  | extra_column_in_header =>
      lit "Extra column " ++ [DQUOTE] ++ column_name e ++ [DQUOTE]
      ++ lit " in header of file " ++ [DQUOTE] ++ file_name e ++ [DQUOTE]
  | missing_column_in_header =>
      lit "Missing column " ++ [DQUOTE] ++ column_name e ++ [DQUOTE]
      ++ lit " in header of file " ++ [DQUOTE] ++ file_name e ++ [DQUOTE]
  | duplicated_column_in_header =>
      lit "Duplicated column " ++ [DQUOTE] ++ column_name e ++ [DQUOTE]
      ++ lit " in header of file " ++ [DQUOTE] ++ file_name e ++ [DQUOTE]
  | header_missing =>
      lit "Header missing in file " ++ [DQUOTE] ++ file_name e ++ [DQUOTE]
  | too_few_columns =>
      lit "Too few columns in line " ++ dec (file_line e) ++ lit " in file "
      ++ [DQUOTE] ++ file_name e ++ [DQUOTE]
  | too_many_columns =>
      lit "Too many columns in line " ++ dec (file_line e) ++ lit " in file "
      ++ [DQUOTE] ++ file_name e ++ [DQUOTE]
  | escaped_string_not_closed =>
      lit "Escaped string was not closed in line " ++ dec (file_line e)
      ++ lit " in file " ++ file_name e
  | integer_must_be_positive =>
      lit "The integer " ++ column_content e ++ lit " must be positive or 0 "
      ++ lit "in column " ++ column_name e ++ lit " in file " ++ file_name e
      ++ lit " in line " ++ dec (file_line e)
  | no_digit =>
      lit "The integer " ++ column_content e ++ lit " contains an invalid "
      ++ lit "digit in column " ++ column_name e ++ lit " in file "
      ++ file_name e ++ lit " in line " ++ dec (file_line e)
  | integer_overflow =>
      lit "The integer " ++ column_content e ++ lit " overflows in column "
      ++ column_name e ++ lit " in file " ++ file_name e
      ++ lit " in line " ++ dec (file_line e)
  | integer_underflow =>
      lit "The integer " ++ column_content e ++ lit " underflows in column "
      ++ column_name e ++ lit " in file " ++ dec (file_line e)
      ++ lit " in line " ++ dec (file_line e)
  | invalid_single_character =>
      lit "The content " ++ column_content e ++ lit " of column "
      ++ column_name e ++ lit " in file " ++ file_name e
      ++ lit " in line " ++ dec (file_line e)
      ++ lit " is not a single character.)"
  end.

(** [virtual void format_error_message()]. *)
Definition format_error_message (e : error) : error :=
  set_error e (message e).

End Format.

End Error.

Import Error.

Definition err_slot := option error.

(** ** Overflow policies *)

Inductive int_type :=
| UChar | UShort | UInt | ULong | ULongLong
| SChar | SShort | SInt | SLong | SLongLong.

Definition is_signed (t : int_type) : bool :=
  match t with
  | UChar | UShort | UInt | ULong | ULongLong => false
  | _ => true
  end.

(** Widths of the LP64 data model. *)
Definition bits (t : int_type) : Z :=
  match t with
  | UChar | SChar => 8
  | UShort | SShort => 16
  | UInt | SInt => 32
  | ULong | SLong | ULongLong | SLongLong => 64
  end.

(** [std::numeric_limits<T>::max()] and [::min()]. *)
Definition numeric_max (t : int_type) : Z :=
  if is_signed t then 2 ^ (bits t - 1) - 1 else 2 ^ bits t - 1.
Definition numeric_min (t : int_type) : Z :=
  if is_signed t then - 2 ^ (bits t - 1) else 0.

(** Conversion of a mathematical result to [T]. *)
Definition wrap (t : int_type) (z : Z) : Z :=
  if is_signed t
  then (z + 2 ^ (bits t - 1)) mod 2 ^ bits t - 2 ^ (bits t - 1)
  else z mod 2 ^ bits t.

Inductive overflow_policy := ignore_overflow | set_to_max_on_overflow.

Definition on_overflow (p : overflow_policy) (t : int_type) (x : Z) : Z :=
  match p with
  | ignore_overflow => x
  | set_to_max_on_overflow => numeric_max t
  end.

Definition on_underflow (p : overflow_policy) (t : int_type) (x : Z) : Z :=
  match p with
  | ignore_overflow => x
  | set_to_max_on_overflow => numeric_min t
  end.

(** ** Field parsers (namespace [detail]) *)

(** The arithmetic of a floating-point type [T], as [parse_float] uses
    it. *)
Class FloatOps (T : Type) := {
  f_of_int : Z -> T;          (* conversion from [int] *)
  f_tenth : T;                (* [T(0.1)] *)
  f_add : T -> T -> T;
  f_mul : T -> T -> T;
  f_div : T -> T -> T;
  f_neg : T -> T
}.

Inductive float_type := Float | Double | LongDouble.

Module FieldParser.

Definition is_digit (c : ascii) : bool :=
  (code (ascii_of_nat 48) <=? code c) && (code c <=? code (ascii_of_nat 57)).

Definition digit_val (c : ascii) : Z := code c - code (ascii_of_nat 48).

(** [parse(char *col, char &x, err)] *)
Definition parse_char (col : cstring) (x : ascii) (err : err_slot)
  : bool * ascii * err_slot :=
  match err with
  | Some _ => (false, x, err)
  | None =>
      match col with
      | [] => (false, x, Some (make_shared invalid_single_character))
      | c :: col' =>
          match col' with
          | [] => (true, c, None)
          | _ :: _ => (false, c, Some (make_shared invalid_single_character))
          end
      end
  end.

(** [parse(char *col, std::string &x, err)], and the [char*] and
    [const char*] overloads, which have the same body. *)
Definition parse_string (col : cstring) (x : cstring) (err : err_slot)
  : bool * cstring * err_slot :=
  (true, col, err).

(** The digit loop of [parse_unsigned_integer], from [x = 0] on. *)
Fixpoint unsigned_loop (p : overflow_policy) (t : int_type)
         (col : cstring) (x : Z) : bool * Z * err_slot :=
  match col with
  | [] => (true, x, None)
  | c :: col' =>
      if is_digit c then
        let y := digit_val c in
        if x >? Z.quot (numeric_max t - y) 10
        then (true, on_overflow p t x, None)
        else unsigned_loop p t col' (wrap t (10 * x + y))
      else (false, x, Some (make_shared no_digit))
  end.

Definition parse_unsigned_integer (p : overflow_policy) (t : int_type)
           (col : cstring) (x : Z) (err : err_slot) : bool * Z * err_slot :=
  match err with
  | Some _ => (false, x, err)
  | None =>
      match col with
      | c :: _ =>
          if ch_eqb c MINUS
          then (false, x, Some (make_shared integer_must_be_positive))
          else unsigned_loop p t col 0
      | [] => unsigned_loop p t col 0
      end
  end.

(** The digit loop of the negative branch of [parse_signed_integer]. *)
Fixpoint negative_loop (p : overflow_policy) (t : int_type)
         (col : cstring) (x : Z) : bool * Z * err_slot :=
  match col with
  | [] => (true, x, None)
  | c :: col' =>
      if is_digit c then
        let y := digit_val c in
        if x <? Z.quot (numeric_min t + y) 10
        then (true, on_underflow p t x, None)
        else negative_loop p t col' (wrap t (10 * x - y))
      else (false, x, Some (make_shared no_digit))
  end.

Definition parse_signed_integer (p : overflow_policy) (t : int_type)
           (col : cstring) (x : Z) (err : err_slot) : bool * Z * err_slot :=
  match err with
  | Some _ => (false, x, err)
  | None =>
      match col with
      | c :: col' =>
          if ch_eqb c MINUS then negative_loop p t col' 0
          else if ch_eqb c PLUS then parse_unsigned_integer p t col' x None
          else parse_unsigned_integer p t col x None
      | [] => parse_unsigned_integer p t col x None
      end
  end.

Section Float.
Context {T : Type} {ops : FloatOps T}.

(** [while('0' <= *col && *col <= '9') { x *= 10; x += y; ++col; }] *)
Fixpoint float_int_part (col : cstring) (x : T) : T * cstring :=
  match col with
  | c :: col' =>
      if is_digit c
      then float_int_part col'
             (f_add (f_mul x (f_of_int 10)) (f_of_int (digit_val c)))
      else (x, col)
  | [] => (x, col)
  end.

(** [while(...) { pos /= 10; x += y*pos; ++col; }] *)
Fixpoint float_frac_part (col : cstring) (pos x : T) : T * cstring :=
  match col with
  | c :: col' =>
      if is_digit c
      then let pos' := f_div pos (f_of_int 10) in
           float_frac_part col' pos'
             (f_add x (f_mul (f_of_int (digit_val c)) pos'))
      else (x, col)
  | [] => (x, col)
  end.

(** [while(e != 1) { ... }]: the pair of [x] and [base] at the exit of
    the loop, or [None] when the test [e != 1] has not failed within
    [fuel] tests. *)
Fixpoint exponent_loop (fuel : nat) (e : Z) (base x : T) : option (T * T) :=
  match fuel with
  | O => None
  | S fuel' =>
      if e =? 1 then Some (x, base)
      else if Z.land e 1 =? 0
           then exponent_loop fuel' (Z.shiftr e 1) (f_mul base base) x
           else exponent_loop fuel' (wrap SInt (e - 1)) base (f_mul x base)
  end.

(** [if(e != 0) { ... }].  With [e = -e] the exponent [INT_MIN] stays
    what it is, in the arithmetic of two's complement.  The loop is
    given 64 tests: every second round halves a positive [e], so it
    leaves the loop within 62 tests or never does, and [None] is a loop
    that does not end. *)
Definition apply_exponent (e : Z) (x : T) : option T :=
  if e =? 0 then Some x
  else
    let base := if e <? 0 then f_tenth else f_of_int 10 in
    let e' := if e <? 0 then wrap SInt (- e) else e in
    match exponent_loop 64 e' base x with
    | Some (x', base') => Some (f_mul x' base')
    | None => None
    end.

(** [parse_float(col, x, err)]; [None] when the call does not return. *)
Definition parse_float (col : cstring) (x : T) (err : err_slot)
  : option (bool * T * err_slot) :=
  match err with
  | Some _ => Some (false, x, err)
  | None =>
      let (is_neg, col1) :=
        match col with
        | c :: col' =>
            if ch_eqb c MINUS then (true, col')
            else if ch_eqb c PLUS then (false, col')
            else (false, col)
        | [] => (false, col)
        end in
      let (x1, col2) := float_int_part col1 (f_of_int 0) in
      let (x2, col3) :=
        match col2 with
        | c :: col' =>
            if ch_eqb c DOT || ch_eqb c COMMA
            then float_frac_part col' (f_of_int 1) x1
            else (x1, col2)
        | [] => (x1, col2)
        end in
      let finish (y : T) := (true, if is_neg then f_neg y else y, None) in
      match col3 with
      | c :: col' =>
          if ch_eqb c (ascii_of_nat 101) || ch_eqb c (ascii_of_nat 69)
          then
            match parse_signed_integer set_to_max_on_overflow SInt col' 0 None
            with
            | (false, _, err') => Some (false, x2, err')
            | (true, e, _) => option_map finish (apply_exponent e x2)
            end
          else Some (false, x2, Some (make_shared no_digit))
      | [] => Some (finish x2)
      end
  end.

End Float.

End FieldParser.

(** ** Quotes, separators, trimming and comments *)

Definition ignore_no_column : Z := 0.
Definition ignore_extra_column : Z := 1.
Definition ignore_missing_column : Z := 2.

(** [trim_chars<trim_char_list...>] is the list of its characters. *)
Definition trim_policy := list ascii.

Inductive comment_policy :=
| no_comment
| single_line_comment (comment_start_char_list : list ascii)
| empty_line_comment
| single_and_empty_line_comment (comment_start_char_list : list ascii).

Inductive quote_policy :=
| no_quote_escape (sep : ascii)
| double_quote_escape (sep quote : ascii).

Module Tokenizer.

(** [is_trim_char(c, trim_char_list...)], also
    [is_comment_start_char]. *)
Fixpoint is_trim_char (c : ascii) (l : list ascii) : bool :=
  match l with
  | [] => false
  | t :: l' => ch_eqb c t || is_trim_char c l'
  end.

(** First loop of [trim]: [++str_begin] over trim characters. *)
Fixpoint trim_begin (tp : trim_policy) (s : cstring) : cstring :=
  match s with
  | c :: s' => if is_trim_char c tp then trim_begin tp s' else s
  | [] => []
  end.

(** Second loop of [trim]: [--str_end] over trim characters, then
    [*str_end = 0]. *)
Definition trim_end (tp : trim_policy) (s : cstring) : cstring :=
  rev (trim_begin tp (rev s)).

Definition trim (tp : trim_policy) (s : cstring) : cstring :=
  trim_end tp (trim_begin tp s).

Fixpoint blank_line (line : cstring) : bool :=
  match line with
  | [] => true
  | c :: line' =>
      if ch_eqb c SPACE || ch_eqb c TAB then blank_line line' else false
  end.

(** [comment_policy::is_comment(line)]; [*line] of the empty string is
    the terminator. *)
Definition is_comment (cp : comment_policy) (line : cstring) : bool :=
  match cp with
  | no_comment => false
  | single_line_comment l => is_trim_char (hd NUL line) l
  | empty_line_comment => blank_line line
  | single_and_empty_line_comment l =>
      is_trim_char (hd NUL line) l || blank_line line
  end.

(** [no_quote_escape<sep>::find_next_column_end]: the bytes before the
    returned pointer, and the bytes from it on. *)
Fixpoint find_end_plain (sep : ascii) (s : cstring) : cstring * cstring :=
  match s with
  | [] => ([], [])
  | c :: s' =>
      if ch_eqb c sep then ([], s)
      else let (col, rest) := find_end_plain sep s' in (c :: col, rest)
  end.

(** Where the scan of [double_quote_escape::find_next_column_end]
    stands: at the test of the outer [while], inside the inner [while]
    that looks for the closing quote, or at the test of the
    [do ... while] on a further quote. *)
Inductive scan_state := Outer | InQuote | AfterQuote.

Definition cons_col (c : ascii) (r : option (cstring * cstring))
  : option (cstring * cstring) :=
  match r with
  | Some (col, rest) => Some (c :: col, rest)
  | None => None
  end.

(** [None] is the null pointer returned with
    [escaped_string_not_closed]. *)
Fixpoint find_end_quoted (sep quote : ascii) (st : scan_state) (s : cstring)
  : option (cstring * cstring) :=
  match st, s with
  | Outer, [] => Some ([], [])
  | Outer, c :: s' =>
      if ch_eqb c sep then Some ([], s)
      else if negb (ch_eqb c quote)
           then cons_col c (find_end_quoted sep quote Outer s')
           else cons_col c (find_end_quoted sep quote InQuote s')
  | InQuote, [] => None
  | InQuote, c :: s' =>
      if ch_eqb c quote
      then cons_col c (find_end_quoted sep quote AfterQuote s')
      else cons_col c (find_end_quoted sep quote InQuote s')
  | AfterQuote, [] => Some ([], [])
  | AfterQuote, c :: s' =>
      if ch_eqb c quote
      then cons_col c (find_end_quoted sep quote InQuote s')
      else if ch_eqb c sep then Some ([], s)
           else cons_col c (find_end_quoted sep quote Outer s')
  end.

Definition find_next_column_end (qp : quote_policy) (col_begin : cstring)
  : option (cstring * cstring) * err_slot :=
  match qp with
  | no_quote_escape sep => (Some (find_end_plain sep col_begin), None)
  | double_quote_escape sep quote =>
      match find_end_quoted sep quote Outer col_begin with
      | Some r => (Some r, None)
      | None => (None, Some (make_shared escaped_string_not_closed))
      end
  end.

(** The copying loop of [double_quote_escape::unescape]. *)
Fixpoint collapse (quote : ascii) (s : cstring) : cstring :=
  match s with
  | [] => []
  | c :: s' =>
      match s' with
      | c' :: s'' =>
          if ch_eqb c quote && ch_eqb c' quote
          then c' :: collapse quote s''
          else c :: collapse quote s'
      | [] => [c]
      end
  end.

Definition unescape (qp : quote_policy) (col : cstring) : cstring :=
  match qp with
  | no_quote_escape _ => col
  | double_quote_escape _ quote =>
      if (2 <=? Z.of_nat (length col))
         && ch_eqb (hd NUL col) quote && ch_eqb (last col NUL) quote
      then collapse quote (removelast (tl col))
      else col
  end.

(** [chop_next_column]: on success the column [col_begin, col_end) and
    the new [line]. *)
Definition chop_next_column (qp : quote_policy) (line : option cstring)
           (err : err_slot) : option (cstring * option cstring) * err_slot :=
  match err with
  | Some _ => (None, err)
  | None =>
      match line with
      | None =>
          (None, Some (set_error (make_shared internal_error)
                         (lit "Internal error: line is null in chop_next_column")))
      | Some l =>
          match find_next_column_end qp l with
          | (Some (col, rest), None) =>
              match rest with
              | [] => (Some (col, None), None)
              | _ :: line' => (Some (col, Some line'), None)
              end
          | (_, err') => (None, err')
          end
      end
  end.

(** [sorted_col[i] = col_begin]; the code never produces an index
    outside the array, where the store here does nothing. *)
Fixpoint store {A} (l : list A) (i : nat) (x : A) : list A :=
  match l, i with
  | [], _ => []
  | _ :: l', O => x :: l'
  | y :: l', S i' => y :: store l' i' x
  end.

Definition store_col (sorted_col : list (option cstring)) (i : Z) (col : cstring)
  : list (option cstring) :=
  if i <? 0 then sorted_col else store sorted_col (Z.to_nat i) (Some col).

Fixpoint parse_line_loop (tp : trim_policy) (qp : quote_policy)
         (col_order : list Z) (line : option cstring)
         (sorted_col : list (option cstring))
  : bool * list (option cstring) * err_slot :=
  match col_order with
  | [] =>
      match line with
      | Some _ => (false, sorted_col, Some (make_shared too_many_columns))
      | None => (true, sorted_col, None)
      end
  | i :: col_order' =>
      match line with
      | None => (false, sorted_col, Some (make_shared too_few_columns))
      | Some _ =>
          match chop_next_column qp line None with
          | (Some (col, line'), _) =>
              parse_line_loop tp qp col_order' line'
                (if i =? -1 then sorted_col
                 else store_col sorted_col i (unescape qp (trim tp col)))
          | (None, err') => (false, sorted_col, err')
          end
      end
  end.

Definition parse_line (tp : trim_policy) (qp : quote_policy)
           (line : option cstring) (sorted_col : list (option cstring))
           (col_order : list Z) (err : err_slot)
  : bool * list (option cstring) * err_slot :=
  match err with
  | Some _ => (false, sorted_col, err)
  | None => parse_line_loop tp qp col_order line sorted_col
  end.

End Tokenizer.

(** ** Header resolution *)

Module Header.
Import Tokenizer.

Definition cstring_eqb (a b : cstring) : bool :=
  if list_eq_dec ascii_dec a b then true else false.

(** The [for] loop over the declared names: the first [i] with
    [col_begin == col_name[i]]. *)
Fixpoint find_name (col : cstring) (col_name : list cstring) (i : nat)
  : option nat :=
  match col_name with
  | [] => None
  | n :: col_name' =>
      if cstring_eqb col n then Some i else find_name col col_name' (S i)
  end.

(** The last loop: the first declared name that was not found. *)
Fixpoint first_missing (found : list bool) (col_name : list cstring)
  : option cstring :=
  match found, col_name with
  | f :: found', n :: col_name' =>
      if f then first_missing found' col_name' else Some n
  | _, _ => None
  end.

(** The [while(line)] loop; each round consumes a column and a line of
    [n] bytes has at most [n + 1] columns, so [n + 2] rounds reach the
    end of the loop. *)
Fixpoint header_loop (fuel : nat) (tp : trim_policy) (qp : quote_policy)
         (col_name : list cstring) (ignore_policy : Z)
         (line : option cstring) (found : list bool) (col_order : list Z)
  : option (list bool) * list Z * err_slot :=
  match fuel with
  | O => (None, col_order, None)
  | S fuel' =>
      match line with
      | None => (Some found, col_order, None)
      | Some _ =>
          match chop_next_column qp line None with
          | (None, err') => (None, col_order, err')
          | (Some (col, line'), _) =>
              let col_begin := unescape qp (trim tp col) in
              match find_name col_begin col_name 0 with
              | Some i =>
                  if nth i found false
                  then (None, col_order,
                        Some (set_column_name
                                (make_shared duplicated_column_in_header)
                                col_begin))
                  else header_loop fuel' tp qp col_name ignore_policy line'
                         (store found i true) (col_order ++ [Z.of_nat i])
              | None =>
                  if negb (Z.land ignore_policy ignore_extra_column =? 0)
                  then header_loop fuel' tp qp col_name ignore_policy line'
                         found (col_order ++ [-1])
                  else (None, col_order,
                        Some (set_column_name
                                (make_shared extra_column_in_header)
                                col_begin))
              end
          end
      end
  end.

(** [parse_header_line<column_count, ...>]; [col_order] is the vector
    the call leaves behind, also when it fails. *)
Definition parse_header_line (tp : trim_policy) (qp : quote_policy)
           (line : option cstring) (col_order : list Z)
           (col_name : list cstring) (ignore_policy : Z) (err : err_slot)
  : bool * list Z * err_slot :=
  match err with
  | Some _ => (false, col_order, err)
  | None =>
      let fuel := S (S (match line with Some l => length l | None => O end)) in
      match header_loop fuel tp qp col_name ignore_policy line
              (repeat false (length col_name)) [] with
      | (None, col_order', err') => (false, col_order', err')
      | (Some found, col_order', _) =>
          if Z.land ignore_policy ignore_missing_column =? 0 then
            match first_missing found col_name with
            | Some n =>
                (false, col_order',
                 Some (set_column_name (make_shared missing_column_in_header)
                         (c_str n)))
            | None => (true, col_order', None)
            end
          else (true, col_order', None)
      end
  end.

End Header.

(** ** Byte sources and the synchronous reader *)

(** [ByteSourceBase::read(buffer, size)]: the bytes written to
    [buffer] (their number is the returned count) and the source
    afterwards.  The documentation of the interface asks an
    implementation for at most [size] bytes; the properties that need
    it assume [bounded_reads]. *)
Class ByteSourceBase (Src : Type) := {
  read : Src -> Z -> list ascii * Src
}.

(** [NonOwningStringByteSource]: [str] is the byte range
    [str, str + remaining_byte_count). *)
Record NonOwningStringByteSource := mk_string_source {
  str : list ascii
}.

Definition string_source_read (s : NonOwningStringByteSource)
           (desired_byte_count : Z) : list ascii * NonOwningStringByteSource :=
  let to_copy_byte_count :=
    if Z.of_nat (length (str s)) <? desired_byte_count
    then Z.of_nat (length (str s)) else desired_byte_count in
  (firstn (Z.to_nat to_copy_byte_count) (str s),
   mk_string_source (skipn (Z.to_nat to_copy_byte_count) (str s))).

#[export] Instance string_byte_source : ByteSourceBase NonOwningStringByteSource :=
  {| read := string_source_read |}.

Module Reader.

Definition memory := Z -> ascii.

(** [buffer[i] = c] *)
Definition poke (m : memory) (i : Z) (c : ascii) : memory :=
  fun j => if j =? i then c else m j.

(** [std::memcpy(buffer + dst, buffer + src, n)] *)
Definition memcpy (m : memory) (dst src n : Z) : memory :=
  fun j => if (dst <=? j) && (j <? dst + n) then m (j - dst + src) else m j.

(** The bytes a [read] call writes from [buffer + off] on. *)
Definition fill (m : memory) (off : Z) (data : list ascii) : memory :=
  fun j =>
    if (off <=? j) && (j <? off + Z.of_nat (length data))
    then nth (Z.to_nat (j - off)) data NUL else m j.

(** The [n] bytes from [buffer + off] on. *)
Fixpoint peek (m : memory) (off : Z) (n : nat) : list ascii :=
  match n with
  | O => []
  | S n' => m off :: peek m (off + 1) n'
  end.

Section WithSource.
Context {Src : Type} {src : ByteSourceBase Src}.

(** [detail::SynchronousReader]; [byte_source = None] is the null
    pointer of a reader that was not initialised. *)
Record SynchronousReader := mk_sync {
  byte_source : option Src;
  target : Z;
  desired_byte_count : Z
}.

Definition is_valid (r : SynchronousReader) : bool :=
  match byte_source r with Some _ => true | None => false end.

Definition start_read (r : SynchronousReader) (arg_buffer : Z)
           (arg_desired_byte_count : Z) : SynchronousReader :=
  mk_sync (byte_source r) arg_buffer arg_desired_byte_count.

(** [finish_read] of a valid reader: the buffer after the read, the
    count, and the reader with its source advanced. *)
Definition finish_read (r : SynchronousReader) (m : memory)
  : memory * Z * SynchronousReader :=
  match byte_source r with
  | Some s =>
      let (data, s') := read s (desired_byte_count r) in
      (fill m (target r) data, Z.of_nat (length data),
       mk_sync (Some s') (target r) (desired_byte_count r))
  | None => (m, 0, r)
  end.

Definition block_len : Z := Z.shiftl 1 20.

Record LineReader := mk_line_reader {
  buffer : memory;
  reader : SynchronousReader;
  data_begin : Z;
  data_end : Z;
  file_name : cstring;
  file_line : Z
}.

(** [LineReader::set_file_name]: [strncpy] into [char[256]], last byte
    forced to the terminator. *)
Definition truncate_file_name (file_name_ : cstring) : cstring :=
  firstn (Z.to_nat Error.max_file_name_length) file_name_.

Definition set_file_name (lr : LineReader) (file_name_ : cstring) : LineReader :=
  mk_line_reader (buffer lr) (reader lr) (data_begin lr) (data_end lr)
                 (truncate_file_name file_name_) (file_line lr).

Definition set_file_line (lr : LineReader) (file_line_ : Z) : LineReader :=
  mk_line_reader (buffer lr) (reader lr) (data_begin lr) (data_end lr)
                 (file_name lr) file_line_.

Definition is_bom (m : memory) : bool :=
  ch_eqb (m 0) (ascii_of_nat 239) && ch_eqb (m 1) (ascii_of_nat 187)
  && ch_eqb (m 2) (ascii_of_nat 191).

(** The constructor [LineReader(err, file_name, byte_source)] with its
    call of [init]; [fresh] is the content of the newly allocated
    [char[3*block_len]]. *)
Definition init (file_name_ : cstring) (byte_source_ : Src) (fresh : memory)
  : LineReader :=
  let (data, s') := read byte_source_ (2 * block_len) in
  let buffer0 := fill fresh 0 data in
  let data_end0 := Z.of_nat (length data) in
  let data_begin0 := if (3 <=? data_end0) && is_bom buffer0 then 3 else 0 in
  let reader0 :=
    if data_end0 =? 2 * block_len
    then start_read (mk_sync (Some s') 0 0) (2 * block_len) block_len
    else mk_sync None 0 0 in
  mk_line_reader buffer0 reader0 data_begin0 data_end0
                 (truncate_file_name file_name_) 0.

(** The block [if (data_begin >= block_len) { ... }] of [next_line]. *)
Definition shift (lr : LineReader) : LineReader :=
  let buffer1 := memcpy (buffer lr) 0 block_len block_len in
  let data_begin1 := data_begin lr - block_len in
  let data_end1 := data_end lr - block_len in
  if is_valid (reader lr) then
    let '(buffer2, n, reader2) := finish_read (reader lr) buffer1 in
    let buffer3 := memcpy buffer2 block_len (2 * block_len) block_len in
    mk_line_reader buffer3 (start_read reader2 (2 * block_len) block_len)
                   data_begin1 (data_end1 + n) (file_name lr) (file_line lr)
  else
    mk_line_reader buffer1 (reader lr) data_begin1 data_end1
                   (file_name lr) (file_line lr).

(** [while(line_end != data_end && buffer[line_end] != '\n') ++line_end;]
    with at most [fuel] rounds. *)
Fixpoint find_line_end (m : memory) (data_end_ : Z) (fuel : nat) (line_end : Z)
  : Z :=
  match fuel with
  | O => line_end
  | S fuel' =>
      if negb (line_end =? data_end_) && negb (ch_eqb (m line_end) LF)
      then find_line_end m data_end_ fuel' (line_end + 1)
      else line_end
  end.

(** [++file_line] on an [unsigned]. *)
Definition incr_file_line (n : Z) : Z := (n + 1) mod 2 ^ 32.

(** [char *next_line(err)]: the returned line (a pointer into the
    buffer) is given by the bytes it points to. *)
Definition next_line (lr : LineReader) (err : err_slot)
  : option cstring * LineReader * err_slot :=
  match err with
  | Some _ => (None, lr, err)
  | None =>
      if data_begin lr =? data_end lr then (None, lr, None)
      else
        let lr1 := set_file_line lr (incr_file_line (file_line lr)) in
        if data_begin lr1 >=? data_end lr1 then
          (None, lr1,
           Some (set_error (make_shared internal_error)
                   (lit "Internal error: data_begin >= data_end")))
        else if data_end lr1 >? block_len * 2 then
          (None, lr1,
           Some (set_error (make_shared internal_error)
                   (lit "Internal error: data_end > block_len*2" ++ [LF])))
        else
          let lr2 := if data_begin lr1 >=? block_len then shift lr1 else lr1 in
          let line_end :=
            find_line_end (buffer lr2) (data_end lr2)
              (Z.to_nat (data_end lr2 - data_begin lr2)) (data_begin lr2) in
          if line_end - data_begin lr2 + 1 >? block_len then
            (None, lr2,
             Some (Error.set_file_line
                     (Error.set_file_name
                        (make_shared line_length_limit_exceeded)
                        (file_name lr2))
                     (wrap SInt (file_line lr2))))
          else
            let data_end3 :=
              if negb (line_end =? data_end lr2)
                 && ch_eqb (buffer lr2 line_end) LF
              then data_end lr2 else data_end lr2 + 1 in
            let buffer3 := poke (buffer lr2) line_end NUL in
            let buffer4 :=
              if negb (line_end =? data_begin lr2)
                 && ch_eqb (buffer3 (line_end - 1)) CR
              then poke buffer3 (line_end - 1) NUL else buffer3 in
            let ret := data_begin lr2 in
            (Some (c_str (peek buffer4 ret (Z.to_nat (line_end - ret)))),
             mk_line_reader buffer4 (reader lr2) (line_end + 1) data_end3
                            (file_name lr2) (file_line lr2),
             None)
  end.

End WithSource.

Arguments SynchronousReader : clear implicits.
Arguments LineReader : clear implicits.

End Reader.

(** ** CSVReader *)

Module CSV.
Import Tokenizer Header FieldParser Reader.

Section WithPolicies.
Context {Src : Type} {src : ByteSourceBase Src}.
Variable strerror : Z -> cstring.
Variable F : float_type -> Type.
Context {fops : forall k, FloatOps (F k)}.

(** The template arguments of [CSVReader]. *)
Variable tp : trim_policy.
Variable qp : quote_policy.
Variable op : overflow_policy.
Variable cp : comment_policy.

(** A variable passed to [read_row], with its current value; the
    constructor is the overload of [detail::parse] chosen for it.  A
    [char*] is given by the string it points to. *)
Inductive var :=
| XChar (x : ascii)
| XString (x : cstring)
| XConstCharPtr (x : option cstring)
| XCharPtr (x : option cstring)
| XInt (t : int_type) (x : Z)
| XFloat (k : float_type) (x : F k).

Arguments XFloat k x : clear implicits.

(** [detail::parse<overflow_policy>(col, x, err)]; [None] when the
    call does not return, which only [parse_float] can do. *)
Definition parse (col : cstring) (x : var) (err : err_slot)
  : option (bool * var * err_slot) :=
  match x with
  | XChar c =>
      let '(b, c', e) := parse_char col c err in Some (b, XChar c', e)
  | XString s =>
      let '(b, s', e) := parse_string col s err in Some (b, XString s', e)
  | XConstCharPtr _ => Some (true, XConstCharPtr (Some col), err)
  | XCharPtr _ => Some (true, XCharPtr (Some col), err)
  | XInt t v =>
      let '(b, v', e) :=
        if is_signed t then parse_signed_integer op t col v err
        else parse_unsigned_integer op t col v err in
      Some (b, XInt t v', e)
  | XFloat k v =>
      option_map (fun '(b, v', e) => (b, XFloat k v', e))
                 (parse_float col v err)
  end.

Record CSVReader := mk_csv {
  in_ : LineReader Src;
  row : list (option cstring);
  column_names : list cstring;
  col_order : list Z
}.

Definition with_in (r : CSVReader) (lr : LineReader Src) : CSVReader :=
  mk_csv lr (row r) (column_names r) (col_order r).

(** [col_order[i] = i] for [i < column_count] *)
Definition identity_order (column_count : nat) : list Z :=
  map Z.of_nat (seq 0 column_count).

(** The constructor over a byte source, which leaves [err] empty. *)
Definition new (column_count : nat) (file_name_ : cstring)
           (byte_source_ : Src) (fresh : memory) : CSVReader :=
  mk_csv (init file_name_ byte_source_ fresh)
         (repeat None column_count)
         (map (fun i => lit "col" ++ dec (Z.of_nat i)) (seq 1 column_count))
         (identity_order column_count).

Definition get_truncated_file_name (r : CSVReader) : cstring :=
  file_name (in_ r).

Definition get_file_line (r : CSVReader) : Z := file_line (in_ r).

(** [CSVReader::next_line] *)
Definition csv_next_line (r : CSVReader) (err : err_slot)
  : option cstring * CSVReader * err_slot :=
  match err with
  | Some _ => (None, r, err)
  | None =>
      let '(line, lr, err') := next_line (in_ r) None in
      (line, with_in r lr, err')
  end.

(** What a [do ... while(is_comment(line))] loop ends with: a line to
    tokenize, or a [return false] with the error slot at that point. *)
Inductive fetched :=
| Line (line : cstring)
| Stop (err : err_slot).

(** The loop of [read_header]; [None] when [fuel] rounds were not
    enough. *)
Fixpoint fetch_header_line (fuel : nat) (lr : LineReader Src)
  : option (fetched * LineReader Src) :=
  match fuel with
  | O => None
  | S fuel' =>
      match next_line lr None with
      | (_, lr', Some e) => Some (Stop (Some e), lr')
      | (None, lr', None) =>
          Some (Stop (Some (format_error_message strerror
                              (Error.set_file_name (make_shared header_missing)
                                 (file_name lr')))), lr')
      | (Some line, lr', None) =>
          if is_comment cp line then fetch_header_line fuel' lr'
          else Some (Line line, lr')
      end
  end.

(** [read_header(ignore_policy, err, cols...)]; [cols] has
    [column_count] names. *)
Definition read_header (fuel : nat) (r : CSVReader) (ignore_policy : Z)
           (err : err_slot) (cols : list cstring)
  : option (bool * CSVReader * err_slot) :=
  match err with
  | Some _ => Some (false, r, err)
  | None =>
      match fetch_header_line fuel (in_ r) with
      | None => None
      | Some (Stop err', lr') =>
          Some (false, mk_csv lr' (row r) cols (col_order r), err')
      | Some (Line line, lr') =>
          let '(success, col_order', err') :=
            parse_header_line tp qp (Some line) (col_order r) cols
                              ignore_policy None in
          Some (success, mk_csv lr' (row r) cols col_order',
                if success then err'
                else option_map
                       (fun e => format_error_message strerror
                                   (Error.set_file_name e (file_name lr')))
                       err')
      end
  end.

(** [set_header(cols...)] *)
Definition set_header (r : CSVReader) (cols : list cstring)
  : bool * CSVReader :=
  (true, mk_csv (in_ r) (repeat None (length cols)) cols
                (identity_order (length cols))).

(** [has_column(name)] *)
Definition has_column (r : CSVReader) (name : cstring) : bool :=
  let i := match find_name name (column_names r) 0 with
           | Some i => Z.of_nat i
           | None => Z.of_nat (length (column_names r))
           end in
  existsb (Z.eqb i) (col_order r).

(** The three lines that end every failing path of [read_row]. *)
Definition report (lr : LineReader Src) (e : error) : error :=
  format_error_message strerror
    (Error.set_file_line (Error.set_file_name e (file_name lr))
                         (wrap SInt (file_line lr))).

(** [parse_helper(r, err, cols...)]; [None] when a [parse] call does
    not return. *)
Fixpoint parse_helper (rd : CSVReader) (r : nat) (err : err_slot)
         (cols : list var) : option (bool * list var * err_slot) :=
  match cols with
  | [] =>
      match err with
      | Some e => Some (false, [], Some (format_error_message strerror e))
      | None => Some (true, [], None)
      end
  | t :: cols' =>
      match err with
      | Some _ => Some (false, cols, err)
      | None =>
          match nth r (row rd) None with
          | Some col =>
              match parse col t None with
              | None => None
              | Some (false, t', err') =>
                  Some (false, t' :: cols',
                        option_map
                          (fun e => Error.set_column_name
                                      (Error.set_column_content e col)
                                      (c_str (nth r (column_names rd) [])))
                          err')
              | Some (true, t', err') =>
                  option_map (fun '(b, cols'', err'') => (b, t' :: cols'', err''))
                             (parse_helper rd (S r) err' cols')
              end
          | None =>
              option_map (fun '(b, cols'', err'') => (b, t :: cols'', err''))
                         (parse_helper rd (S r) None cols')
          end
      end
  end.

(** The loop of [read_row]. *)
Fixpoint fetch_row_line (fuel : nat) (lr : LineReader Src)
  : option (fetched * LineReader Src) :=
  match fuel with
  | O => None
  | S fuel' =>
      match next_line lr None with
      | (None, lr', err') => Some (Stop err', lr')
      | (Some line, lr', Some e) => Some (Stop (Some (report lr' e)), lr')
      | (Some line, lr', None) =>
          if is_comment cp line then fetch_row_line fuel' lr'
          else Some (Line line, lr')
      end
  end.

(** [read_row(err, cols...)]: the result, the reader, the variables
    and the error slot afterwards; [None] when [fuel] rounds of its loop
    were not enough, or when the call does not return. *)
Definition read_row (fuel : nat) (r : CSVReader) (err : err_slot)
           (cols : list var)
  : option (bool * CSVReader * list var * err_slot) :=
  match err with
  | Some _ => Some (false, r, cols, err)
  | None =>
      match fetch_row_line fuel (in_ r) with
      | None => None
      | Some (Stop err', lr') => Some (false, with_in r lr', cols, err')
      | Some (Line line, lr') =>
          match parse_line tp qp (Some line) (row r) (col_order r) None with
          | (false, row', err') =>
              Some (false, mk_csv lr' row' (column_names r) (col_order r),
                    cols, option_map (report lr') err')
          | (true, row', _) =>
              let r' := mk_csv lr' row' (column_names r) (col_order r) in
              match parse_helper r' 0 None cols with
              | None => None
              | Some (_, cols', Some e) =>
                  Some (false, r', cols', Some (report lr' e))
              | Some (_, cols', None) => Some (true, r', cols', None)
              end
          end
      end
  end.

End WithPolicies.

Arguments XChar {F} x.
Arguments XString {F} x.
Arguments XConstCharPtr {F} x.
Arguments XCharPtr {F} x.
Arguments XInt {F} t x.
Arguments XFloat {F} k x.
Arguments CSVReader : clear implicits.

End CSV.

(** ** Readers over files that are opened by name *)

Module Files.
Import Reader CSV.

Section WithFiles.
Context {Src : Type} {src : ByteSourceBase Src}.
Variable strerror : Z -> cstring.

(** [std::fopen(file_name, "rb")] belongs to the C library: the byte
    source over the opened file, or the value of [errno] when the file
    cannot be opened. *)
Variable fopen : cstring -> Src + Z.

(** [LineReader::open_file(file_name, err)]; [None] is the null
    pointer. *)
Definition open_file (file_name : cstring) (err : err_slot)
  : option Src * err_slot :=
  match err with
  | Some _ => (None, err)
  | None =>
      match fopen file_name with
      | inl file => (Some file, None)
      | inr x =>
          (None,
           Some (Error.set_file_name
                   (set_errno (make_shared cannot_open_file) x) file_name))
      end
  end.

(** [LineReader(err, const char *file_name_)]:
    [set_file_name(file_name_)], then [init(open_file(file_name, err))]
    on the member [file_name], which has the truncated name.  [None] is
    a reader whose [init] returned false: besides the file name its
    members are not initialised. *)
Definition line_reader_of_name (file_name_ : cstring) (fresh : memory)
           (err : err_slot) : option (LineReader Src) * err_slot :=
  let '(byte_source_, err') :=
    open_file (truncate_file_name file_name_) err in
  (option_map (fun s => init file_name_ s fresh) byte_source_, err').


(** [CSVReader(err, args...)] after the constructor of its [LineReader]
    has run: with an error in the slot the message is formatted and the
    other members stay as they are, which is [None] here. *)
Definition csv_reader_over (column_count : nat)
           (in_err : option (LineReader Src) * err_slot)
  : option (CSVReader Src) * err_slot :=
  match in_err with
  | (_, Some e) => (None, Some (format_error_message strerror e))
  | (Some lr, None) =>
      (Some (mk_csv lr (repeat None column_count)
                    (map (fun i => lit "col" ++ dec (Z.of_nat i))
                         (seq 1 column_count))
                    (identity_order column_count)), None)
  | (None, None) => (None, None)
  end.

Definition csv_reader_of_name (column_count : nat) (file_name_ : cstring)
           (fresh : memory) (err : err_slot)
  : option (CSVReader Src) * err_slot :=
  csv_reader_over column_count (line_reader_of_name file_name_ fresh err).


End WithFiles.

End Files.

(** * Vocabulary of the properties *)

Module Spec.
Import FieldParser.

(** The number a digit string denotes, continuing from [acc]. *)
Definition decimal_from (acc : Z) (ds : cstring) : Z :=
  fold_left (fun a c => 10 * a + digit_val c) ds acc.

Definition decimal (ds : cstring) : Z := decimal_from 0 ds.

Definition all_digits (ds : cstring) : Prop :=
  Forall (fun c => is_digit c = true) ds.

End Spec.

Import Spec.

(** The vocabulary of the [LineReader] properties. *)
Module SpecReader.
Import Reader.

Section WithSource.
Context {Src : Type} {src : ByteSourceBase Src}.

(** The contract of [ByteSourceBase::read]: at most [size] bytes are
    written. *)
Definition bounded_reads : Prop :=
  forall (s : Src) (n : Z), 0 <= n -> Z.of_nat (length (fst (read s n))) <= n.

Definition cursors_ok (lr : LineReader Src) : Prop :=
  0 <= data_begin lr /\ data_begin lr <= data_end lr
  /\ data_end lr <= 2 * block_len.

(** What the cursor proofs need to know of the reader: a valid reader
    was started on the third block. *)
Definition reader_started (lr : LineReader Src) : Prop :=
  is_valid (reader lr) = true ->
  desired_byte_count (reader lr) = block_len.

Definition reader_ok (lr : LineReader Src) : Prop :=
  cursors_ok lr /\ reader_started lr.

(** The states a [LineReader] built over a byte source goes through:
    calls of [next_line] with any error slot, and of the two setters. *)
Inductive reachable (file_name_ : cstring) (s : Src) (fresh : memory)
  : LineReader Src -> Prop :=
| reach_init : reachable file_name_ s fresh (init file_name_ s fresh)
| reach_next_line lr err :
    reachable file_name_ s fresh lr ->
    reachable file_name_ s fresh (snd (fst (next_line lr err)))
| reach_set_file_name lr name :
    reachable file_name_ s fresh lr ->
    reachable file_name_ s fresh (set_file_name lr name)
| reach_set_file_line lr n :
    reachable file_name_ s fresh lr ->
    reachable file_name_ s fresh (set_file_line lr n).

End WithSource.
End SpecReader.

Import SpecReader.

(** What a reader over an in-memory file has still to deliver. *)
Module SpecLines.
Import Reader.

(** A file without its UTF-8 byte order mark. *)
Definition skip_bom (file : list ascii) : list ascii :=
  match file with
  | a :: b :: c :: file' =>
      if ch_eqb a (ascii_of_nat 239) && ch_eqb b (ascii_of_nat 187)
         && ch_eqb c (ascii_of_nat 191)
      then file' else file
  | _ => file
  end.

(** A line without the carriage return of a Windows line break. *)
Definition chomp (l : list ascii) : list ascii :=
  match rev l with
  | c :: l' => if ch_eqb c CR then rev l' else l
  | [] => l
  end.

Definition no_line_feed (l : list ascii) : Prop := ~ In LF l.

(** The buffered bytes are the first bytes of [rest]. *)
Definition buffered (lr : LineReader NonOwningStringByteSource)
           (rest : list ascii) : Prop :=
  forall i, data_begin lr <= i < data_end lr ->
            buffer lr i = nth (Z.to_nat (i - data_begin lr)) rest NUL.

(** The source holds the bytes of [rest] that are not buffered; while it
    has bytes left, both blocks of the window are full. *)
Definition source_ok (lr : LineReader NonOwningStringByteSource)
           (rest : list ascii) : Prop :=
  match byte_source (reader lr) with
  | Some s =>
      str s = skipn (Z.to_nat (data_end lr - data_begin lr)) rest
      /\ desired_byte_count (reader lr) = block_len
      /\ target (reader lr) = 2 * block_len
      /\ (data_end lr = 2 * block_len \/ str s = [])
  | None => Z.of_nat (length rest) = data_end lr - data_begin lr
  end.

(** [pending lr rest]: the bytes of the file that [lr] has not yet
    returned as lines are [rest]. *)
Definition pending (lr : LineReader NonOwningStringByteSource)
           (rest : list ascii) : Prop :=
  cursors_ok lr
  /\ data_end lr - data_begin lr <= Z.of_nat (length rest)
  /\ buffered lr rest
  /\ source_ok lr rest
  /\ (data_begin lr = data_end lr -> rest = []).

End SpecLines.

Import SpecLines.

(** Text files. *)
Module SpecText.

(** Text: no terminator, no line feed, no carriage return. *)
Definition plain_text (l : list ascii) : Prop :=
  Forall (fun c => c <> NUL /\ c <> LF /\ c <> CR) l.

(** A Unix or a Windows line break. *)
Definition line_break (eol : list ascii) : Prop :=
  eol = [LF] \/ eol = [CR; LF].

End SpecText.

Import SpecText.

(** Columns, cells and rows. *)
Module SpecColumns.
Import Tokenizer FieldParser.

(** [chops qp line cols line']: [chop_next_column] cuts the raw columns
    [cols] off [line], one after the other, and leaves [line']. *)
Inductive chops (qp : quote_policy)
  : option cstring -> list cstring -> option cstring -> Prop :=
| chops_nil line : chops qp line [] line
| chops_cons l col line' cols line'' :
    chop_next_column qp (Some l) None = (Some (col, line'), None) ->
    chops qp line' cols line'' ->
    chops qp (Some l) (col :: cols) line''.

(** A row tokenizes into the raw columns [cols]. *)
Definition tokenizes (qp : quote_policy) (line : cstring)
           (cols : list cstring) : Prop :=
  chops qp (Some line) cols None.

(** What [trim] and [unescape] make of a raw column. *)
Definition normalize (tp : trim_policy) (qp : quote_policy) (col : cstring)
  : cstring :=
  unescape qp (trim tp col).

Definition separator (qp : quote_policy) : ascii :=
  match qp with
  | no_quote_escape sep => sep
  | double_quote_escape sep _ => sep
  end.

Definition is_quote (qp : quote_policy) (c : ascii) : bool :=
  match qp with
  | no_quote_escape _ => false
  | double_quote_escape _ quote => ch_eqb c quote
  end.

(** The text of an unquoted cell: plain text without separator and
    without quote character. *)
Definition cell_text (qp : quote_policy) (raw : cstring) : Prop :=
  Forall (fun c => (c <> NUL /\ c <> LF /\ c <> CR)
                   /\ c <> separator qp /\ is_quote qp c = false) raw.

(** [raw] is [core] with trim characters around it. *)
Definition padded (tp : trim_policy) (core raw : cstring) : Prop :=
  exists pre post,
    raw = pre ++ core ++ post
    /\ Forall (fun c => is_trim_char c tp = true) pre
    /\ Forall (fun c => is_trim_char c tp = true) post
    /\ (core = [] \/ (is_trim_char (hd NUL core) tp = false
                      /\ is_trim_char (last core NUL) tp = false)).

(** The cells of a line, with the separator between them. *)
Fixpoint join (sep : ascii) (cells : list cstring) : cstring :=
  match cells with
  | [] => []
  | c :: cells' =>
      match cells' with
      | [] => c
      | _ :: _ => c ++ sep :: join sep cells'
      end
  end.

(** The bytes of a text file: every line is followed by [eol], the last
    one only if [final_eol] is set. *)
Fixpoint file_of_lines (eol : list ascii) (final_eol : bool)
         (lines : list cstring) : list ascii :=
  match lines with
  | [] => []
  | l :: lines' =>
      match lines' with
      | [] => l ++ (if final_eol then eol else [])
      | _ :: _ => l ++ eol ++ file_of_lines eol final_eol lines'
      end
  end.

(** The integer a cell denotes for a target of type [t], if any: digits,
    after a sign for a signed target, and a value the type holds. *)
Definition digits_value (ds : cstring) : option Z :=
  match ds with
  | [] => None
  | _ :: _ => if forallb is_digit ds then Some (decimal ds) else None
  end.

Definition in_range (t : int_type) (z : Z) : bool :=
  (numeric_min t <=? z) && (z <=? numeric_max t).

Definition check_range (t : int_type) (z : option Z) : option Z :=
  match z with
  | Some v => if in_range t v then Some v else None
  | None => None
  end.

Definition integer_value (t : int_type) (core : cstring) : option Z :=
  match core with
  | c :: ds =>
      if is_signed t && ch_eqb c MINUS
      then check_range t (option_map Z.opp (digits_value ds))
      else if is_signed t && ch_eqb c PLUS
           then check_range t (digits_value ds)
           else check_range t (digits_value core)
  | [] => None
  end.

End SpecColumns.

Import SpecColumns.

(** Floating-point cells. *)
Module SpecFloat.
Import FieldParser.

Section WithFloat.
Context {T : Type} {ops : FloatOps T}.

(** The operations of a floating-point type round their results, so the
    number that a text denotes in the type is given with the operations
    that lead to it. *)

(** The digits before the decimal separator, from the left: ten times
    the number so far plus the digit. *)
Definition float_digits (ds : cstring) : T :=
  fold_left (fun a c => f_add (f_mul a (f_of_int 10)) (f_of_int (digit_val c)))
            ds (f_of_int 0).

(** The digits after it, added to [x] with the weights [pos / 10],
    [pos / 10 / 10] and so on. *)
Fixpoint float_fraction (ds : cstring) (pos x : T) : T :=
  match ds with
  | [] => x
  | c :: ds' =>
      float_fraction ds' (f_div pos (f_of_int 10))
        (f_add x (f_mul (f_of_int (digit_val c)) (f_div pos (f_of_int 10))))
  end.

(** [x] times the power [p] of [base]: the binary digits of [p] from the
    lowest on, with the squares of [base]. *)
Fixpoint float_power (p : positive) (base x : T) : T :=
  match p with
  | xH => f_mul x base
  | xO p' => float_power p' (f_mul base base) x
  | xI p' => float_power p' (f_mul base base) (f_mul x base)
  end.

(** [x] times ten to the power [e]: powers of ten, and for a negative
    exponent powers of a tenth. *)
Definition float_scale (e : Z) (x : T) : T :=
  match e with
  | Z0 => x
  | Zpos p => float_power p (f_of_int 10) x
  | Zneg p => float_power p f_tenth x
  end.

(** The number with the integer digits [ip], the digits [fp] after the
    separator and the exponent [e], negated for [neg]. *)
Definition float_number (neg : bool) (ip fp : cstring) (e : Z) : T :=
  let y := float_scale e (float_fraction fp (f_of_int 1) (float_digits ip)) in
  if neg then f_neg y else y.

End WithFloat.

(** A text up to its first character with [p], and that character with
    what follows it. *)
Fixpoint break_at (p : ascii -> bool) (s : cstring)
  : cstring * option (ascii * cstring) :=
  match s with
  | [] => ([], None)
  | c :: s' =>
      if p c then ([], Some (c, s'))
      else let (a, r) := break_at p s' in (c :: a, r)
  end.

Definition is_decimal_separator (c : ascii) : bool :=
  ch_eqb c DOT || ch_eqb c COMMA.

Definition is_exponent_char (c : ascii) : bool :=
  ch_eqb c (ascii_of_nat 101) || ch_eqb c (ascii_of_nat 69).

(** A leading sign, and the text after it. *)
Definition float_sign (core : cstring) : bool * cstring :=
  match core with
  | c :: body =>
      if ch_eqb c MINUS then (true, body)
      else if ch_eqb c PLUS then (false, body)
      else (false, core)
  | [] => (false, core)
  end.

(** An exponent: an integer with its sign whose magnitude is below
    2^31. *)
Definition exponent_value (s : cstring) : option Z :=
  match integer_value SInt s with
  | Some e => if e =? numeric_min SInt then None else Some e
  | None => None
  end.

(** The parts of a number in decimal notation: an optional sign, digits,
    optionally a point or comma with digits after it, optionally [e] or
    [E] with an exponent; there is a digit before or after the
    separator. *)
Definition float_parts (core : cstring)
  : option (bool * cstring * cstring * Z) :=
  let (neg, body) := float_sign core in
  let (mantissa, ex) := break_at is_exponent_char body in
  let (ip, fr) := break_at is_decimal_separator mantissa in
  let fp := match fr with Some (_, fp) => fp | None => [] end in
  if forallb is_digit ip && forallb is_digit fp
     && negb (Nat.eqb (length (ip ++ fp)) 0)
  then match ex with
       | None => Some (neg, ip, fp, 0)
       | Some (_, s) =>
           option_map (fun e => (neg, ip, fp, e)) (exponent_value s)
       end
  else None.

(** The number that a cell denotes in a floating-point type, if any. *)
Definition float_value {T : Type} {ops : FloatOps T} (core : cstring)
  : option T :=
  option_map (fun '(neg, ip, fp, e) => float_number neg ip fp e)
             (float_parts core).

(** A text put together from parts: a minus sign for [neg], the digits
    [ip], a separator with the digits after it, an exponent character
    with the text of an exponent. *)
Definition number_text (neg : bool) (ip : cstring)
           (fr ex : option (ascii * cstring)) : cstring :=
  (if neg then [MINUS] else [])
  ++ ip
  ++ match fr with Some (c, fp) => c :: fp | None => [] end
  ++ match ex with Some (c, s) => c :: s | None => [] end.

Definition number_parts (ip : cstring) (fr ex : option (ascii * cstring))
  : Prop :=
  all_digits ip
  /\ match fr with
     | Some (c, fp) => is_decimal_separator c = true /\ all_digits fp
     | None => True
     end
  /\ match ex with
     | Some (c, _) => is_exponent_char c = true
     | None => True
     end.

End SpecFloat.

Import SpecFloat.

(** Header columns. *)
Module SpecHeader.
Import Header.

(** Whether a header column is one of the declared names. *)
Definition is_declared (col_name : list cstring) (p : cstring) : bool :=
  match find_name p col_name 0 with Some _ => true | None => false end.

(** The entry of the column-order table for a header column. *)
Definition column_index (col_name : list cstring) (p : cstring) : Z :=
  match find_name p col_name 0 with
  | Some i => Z.of_nat i
  | None => -1
  end.

(** The [found] flags after a header column. *)
Definition mark (col_name : list cstring) (found : list bool) (p : cstring)
  : list bool :=
  match find_name p col_name 0 with
  | Some i => Tokenizer.store found i true
  | None => found
  end.

End SpecHeader.

Import SpecHeader.

(** Rows and files of a [CSVReader]. *)
Module SpecCSV.
Import Tokenizer Header FieldParser Reader CSV.

(** Readers without floating-point columns are stated over the
    one-point type. *)
#[export] Instance unit_float : FloatOps unit := {|
  f_of_int := fun _ => tt;
  f_tenth := tt;
  f_add := fun _ _ => tt;
  f_mul := fun _ _ => tt;
  f_div := fun _ _ => tt;
  f_neg := fun _ => tt
|}.

Definition no_float (k : float_type) : Type := unit.

#[export] Instance no_float_ops (k : float_type) : FloatOps (no_float k) :=
  unit_float.

Section WithSource.
Context {Src : Type} {src : ByteSourceBase Src}.

(** The reader after [k] more lines, and these lines. *)
Fixpoint lines_from (k : nat) (lr : LineReader Src)
  : option (list cstring * LineReader Src) :=
  match k with
  | O => Some ([], lr)
  | S k' =>
      match next_line lr None with
      | (Some line, lr', None) =>
          match lines_from k' lr' with
          | Some (lines, lr'') => Some (line :: lines, lr'')
          | None => None
          end
      | _ => None
      end
  end.

End WithSource.

Section WithPolicies.
Context {Src : Type} {src : ByteSourceBase Src}.
Variable strerror : Z -> cstring.
Variable F : float_type -> Type.
Context {fops : forall k, FloatOps (F k)}.
Variable tp : trim_policy.
Variable qp : quote_policy.
Variable op : overflow_policy.
Variable cp : comment_policy.

(** The value a cell gives to a variable: the byte of a one-byte cell
    for a [char], the cell itself for the string types, the integer it
    denotes for the integer types, the number it denotes for the
    floating-point types. *)
Definition cell_value (x : var F) (core : cstring) : option (var F) :=
  match x with
  | XChar _ =>
      match core with
      | c :: core' =>
          match core' with [] => Some (XChar c) | _ :: _ => None end
      | [] => None
      end
  | XString _ => Some (XString core)
  | XConstCharPtr _ => Some (XConstCharPtr (Some core))
  | XCharPtr _ => Some (XCharPtr (Some core))
  | XInt t _ => option_map (XInt t) (integer_value t core)
  | XFloat k _ => option_map (XFloat k) (float_value core)
  end.

(** [n] successive [read_row] calls on the same variables and the same
    error slot: the result, the variables and the slot after each. *)
Fixpoint read_rows (fuel n : nat) (r : CSVReader Src) (err : err_slot)
         (cols : list (var F))
  : option (list (bool * list (var F) * err_slot)) :=
  match n with
  | O => Some []
  | S n' =>
      match read_row strerror tp qp op cp fuel r err cols with
      | None => None
      | Some (b, r', cols', err') =>
          option_map (cons (b, cols', err')) (read_rows fuel n' r' err' cols')
      end
  end.

(** A cell of a data row: its bytes in the file, its content, and the
    value it stands for. *)
Definition cell : Type := cstring * cstring * var F.

Definition cell_raw (c : cell) : cstring := fst (fst c).
Definition cell_core (c : cell) : cstring := snd (fst c).
Definition cell_var (c : cell) : var F := snd c.

Definition no_cell : cell := ([], [], XString []).

(** The line of a row: the cells of the declared columns [order] lists,
    in that order. *)
Definition line_of (order : list nat) (raws : list cstring) : cstring :=
  join (separator qp) (map (fun i => nth i raws []) order).

Definition row_line (order : list nat) (row : list cell) : cstring :=
  line_of order (map cell_raw row).

(** A data row with the comment lines before it. *)
Definition group : Type := list cstring * list cell.


(** A comment line under the comment policy. *)
Definition comment_line (l : cstring) : Prop :=
  is_comment cp l = true /\ plain_text l.

(** A row of [n] cells for the variables [vars]: every cell is an
    unquoted cell, its content with trim characters around it, and the
    content is a value of the type of the variable. *)
Definition row_ok (n : nat) (vars : list (var F)) (row : list cell) : Prop :=
  length row = n
  /\ forall i, (i < n)%nat ->
       cell_text qp (cell_raw (nth i row no_cell))
       /\ padded tp (cell_core (nth i row no_cell))
                 (cell_raw (nth i row no_cell))
       /\ cell_value (nth i vars (XString []))
                     (cell_core (nth i row no_cell))
          = Some (cell_var (nth i row no_cell)).


End WithPolicies.

End SpecCSV.

Import SpecCSV.

(** Readers and files of the examples. *)
Module Examples.
Import Tokenizer Header FieldParser Reader CSV.

(** The expressions over the operations of a floating-point type.  The
    examples with floating-point cells compute in them, which shows the
    operations that lead to a value and their order. *)
Inductive float_expr :=
| e_int (z : Z)
| e_tenth
| e_add (a b : float_expr)
| e_mul (a b : float_expr)
| e_div (a b : float_expr)
| e_neg (a : float_expr).

#[export] Instance expr_float : FloatOps float_expr := {|
  f_of_int := e_int;
  f_tenth := e_tenth;
  f_add := e_add;
  f_mul := e_mul;
  f_div := e_div;
  f_neg := e_neg
|}.

Definition expr_floats (k : float_type) : Type := float_expr.

#[export] Instance expr_floats_ops (k : float_type) : FloatOps (expr_floats k) :=
  expr_float.

Definition ex_strerror (n : Z) : cstring := [].
Definition ex_trim : trim_policy := [SPACE; TAB].
Definition ex_quote : quote_policy := no_quote_escape COMMA.
Definition ex_fresh : memory := fun _ => NUL.
Definition ex_name : cstring := lit "t.csv".

Definition ex_reader : Type := CSVReader NonOwningStringByteSource.

Definition ex_init (file : list ascii) : LineReader NonOwningStringByteSource :=
  init ex_name (mk_string_source file) ex_fresh.

Definition ex_new (n : nat) (file : list ascii) : ex_reader :=
  new n ex_name (mk_string_source file) ex_fresh.

Definition ex_read_header (r : ex_reader) (names : list cstring)
  : option (bool * ex_reader * err_slot) :=
  read_header ex_strerror ex_trim ex_quote no_comment 1 r ignore_no_column
              None names.

Definition ex_read_row (r : ex_reader) (err : err_slot)
           (cols : list (var no_float))
  : option (bool * ex_reader * list (var no_float) * err_slot) :=
  read_row ex_strerror ex_trim ex_quote set_to_max_on_overflow no_comment 1
           r err cols.

Definition after_header (r : ex_reader) (names : list cstring) : ex_reader :=
  match ex_read_header r names with
  | Some (_, r', _) => r'
  | None => r
  end.

Definition after_row (r : ex_reader) (cols : list (var no_float)) : ex_reader :=
  match ex_read_row r None cols with
  | Some (_, r', _, _) => r'
  | None => r
  end.

Definition after_fetch (r : ex_reader) : LineReader NonOwningStringByteSource :=
  match fetch_row_line ex_strerror no_comment 1 (in_ r) with
  | Some (_, lr) => lr
  | None => in_ r
  end.

Definition ex_ab : list cstring := [lit "a"; lit "b"].

(** A header and two rows, the second one short. *)
Definition short_file : list ascii :=
  lit "a,b" ++ [LF] ++ lit "1,2" ++ [LF] ++ lit "3" ++ [LF].

Definition short_reader : ex_reader :=
  after_row (after_header (ex_new 2 short_file) ex_ab)
            [XInt SInt 0; XInt SInt 0].

(** A negative number in an unsigned column. *)
Definition minus_file : list ascii :=
  lit "a,b" ++ [LF] ++ lit "1,-1" ++ [LF].

Definition minus_reader : ex_reader := after_header (ex_new 2 minus_file) ex_ab.

(** Headers with a repeated column. *)
Definition dup_file : list ascii := lit "a,b,a" ++ [LF] ++ lit "1,2,3" ++ [LF].

Definition extra_dup_file : list ascii := lit "x,a,a" ++ [LF].

Definition bb_file : list ascii := lit "b,b" ++ [LF] ++ lit "5" ++ [LF].

(** A file with byte order mark and Windows line breaks, whose header
    has the first two of its three columns in the other order, with
    blanks around cells, comment and empty lines before the header,
    between the rows and after them, and no line break after the last
    line.  The columns are read into an [int], a [char] and a
    [double]. *)
Definition ex_abc : list cstring := [lit "a"; lit "b"; lit "c"].


Definition mixed_rows : list (list (cell expr_floats)) :=
  [ [ (lit "-12", lit "-12", XInt SInt (-12));
      (lit " x", lit "x", XChar (ascii_of_nat 120));
      (lit "2.5e-1", lit "2.5e-1",
       XFloat Double (float_number false (lit "2") (lit "5") (-1))) ];
    [ (lit "7 ", lit "7", XInt SInt 7);
      (lit "y", lit "y", XChar (ascii_of_nat 121));
      (lit " -15E2", lit "-15E2",
       XFloat Double (float_number true (lit "15") [] 2)) ] ].

Definition mixed_comments : comment_policy :=
  single_and_empty_line_comment [ascii_of_nat 35].




Definition mixed_vars : list (var expr_floats) :=
  [XInt SInt 0; XChar (ascii_of_nat 48); XFloat Double (e_int 0)].

End Examples.

Import Examples.

(** Quoted cells. *)
Module SpecQuotes.
Import Tokenizer.

(** The content of a cell with every quote character doubled. *)
Fixpoint escape (quote : ascii) (s : cstring) : cstring :=
  match s with
  | [] => []
  | c :: s' =>
      if ch_eqb c quote then quote :: quote :: escape quote s'
      else c :: escape quote s'
  end.

(** A quoted cell: the escaped content between two quote characters. *)
Definition quoted (quote : ascii) (s : cstring) : cstring :=
  quote :: escape quote s ++ [quote].

(** The number of quote characters of a line. *)
Definition quotes (quote : ascii) (l : cstring) : nat :=
  count_occ ascii_dec l quote.

End SpecQuotes.

Import SpecQuotes.
(** Errors of rows. *)
Module SpecErrors.

(** The kinds of error that reading a row may raise. *)
Definition row_error_kind (k : error_kind) : bool :=
  match k with
  | internal_error | line_length_limit_exceeded
  | too_few_columns | too_many_columns | escaped_string_not_closed
  | integer_must_be_positive | no_digit | invalid_single_character => true
  | _ => false
  end.

(** The kinds of error that a field parser may raise. *)
Definition field_error_kind (k : error_kind) : bool :=
  match k with
  | integer_must_be_positive | no_digit | invalid_single_character => true
  | _ => false
  end.

(** What a field parser returns when it is called with an empty error
    slot: success and an empty slot, or failure and a new error of one
    of these kinds. *)
Definition field_outcome (b : bool) (e : err_slot) : Prop :=
  (b = true /\ e = None)
  \/ (b = false
      /\ exists k, field_error_kind k = true /\ e = Some (make_shared k)).

End SpecErrors.

Import SpecErrors.
(** Files without header line. *)
Module SpecTable.
Import Tokenizer Reader CSV.

Section WithPolicies.
Variable F : float_type -> Type.
Context {fops : forall k, FloatOps (F k)}.
Variable tp : trim_policy.
Variable qp : quote_policy.
Variable cp : comment_policy.

(** The lines of the rows, each after its comment lines, and the
    comment lines after the last row. *)
Definition table_lines (order : list nat) (groups : list (group F))
           (trailing : list cstring) : list cstring :=
  flat_map (fun g => fst g ++ [row_line qp order (snd g)]) groups ++ trailing.

(** Well-formed rows for [n] variables [vars], as in [well_formed]. *)
Definition table_ok (n : nat) (vars : list (var F)) (order : list nat)
           (groups : list (group F)) (trailing : list cstring)
           (final_eol : bool) : Prop :=
  (0 < n)%nat
  /\ length vars = n
  /\ plain_text [separator qp]
  /\ Forall (fun g => row_ok tp qp n vars (snd g)
                      /\ is_comment cp (row_line qp order (snd g)) = false
                      /\ Forall (comment_line cp) (fst g)) groups
  /\ Forall (comment_line cp) trailing
  /\ Forall (fun l => Z.of_nat (length l) + 2 <= block_len)
            (table_lines order groups trailing)
  /\ (final_eol = false -> table_lines order groups trailing <> [] ->
      last (table_lines order groups trailing) [] <> []).

End WithPolicies.

End SpecTable.

Import SpecTable.

(** More readers and files of the examples. *)
Module MoreExamples.
Import Tokenizer Header FieldParser Reader CSV Examples.

(** A row whose second cell opens a quote and does not close it. *)
Definition open_quote_file : list ascii :=
  lit "1," ++ [DQUOTE] ++ lit "x" ++ [LF].

(** Headers with a column that is not declared, and without a declared
    one. *)
Definition extra_file : list ascii :=
  lit "b,x,a" ++ [LF] ++ lit "5, y ,6" ++ [LF].

Definition lonely_file : list ascii := lit "b" ++ [LF] ++ lit "5" ++ [LF].

Definition lonely_reader : ex_reader :=
  match read_header ex_strerror ex_trim ex_quote no_comment 1
                    (ex_new 2 lonely_file) ignore_missing_column None ex_ab with
  | Some (_, r', _) => r'
  | None => ex_new 2 lonely_file
  end.

(** A letter in a column of numbers. *)
Definition letter_file : list ascii :=
  lit "a,b" ++ [LF] ++ lit "1,x" ++ [LF].

Definition letter_reader : ex_reader :=
  after_header (ex_new 2 letter_file) ex_ab.

(** Two rows without header line, a comment line between them. *)
Definition bare_groups : list (group expr_floats) :=
  [ ([], nth 0 mixed_rows []); ([lit "#"], nth 1 mixed_rows []) ].

Definition bare_file : list ascii :=
  file_of_lines [LF] true
    (table_lines ex_quote [0; 1; 2]%nat bare_groups []).

(** A file system without files. *)
Definition no_file (name : cstring) : NonOwningStringByteSource + Z := inr 2.

End MoreExamples.

Import MoreExamples.

(** * Properties *)

Unset Implicit Arguments.

Lemma ch_eqb_eq a b : ch_eqb a b = true <-> a = b.
Proof. apply Ascii.eqb_eq. Qed.

Lemma ch_eqb_neq a b : ch_eqb a b = false <-> a <> b.
Proof. apply Ascii.eqb_neq. Qed.

Lemma ch_eqb_refl a : ch_eqb a a = true.
Proof. apply Ascii.eqb_refl. Qed.

(** ** Integer types *)

Lemma numeric_max_ge t : 127 <= numeric_max t.
Proof. destruct t; vm_compute; discriminate. Qed.

Lemma numeric_min_le t : numeric_min t <= 0.
Proof. destruct t; vm_compute; discriminate. Qed.

Ltac eval_pows :=
  repeat match goal with
         | |- context [2 ^ ?n] =>
             let v := eval vm_compute in (2 ^ n) in change (2 ^ n) with v
         | H : context [2 ^ ?n] |- _ =>
             let v := eval vm_compute in (2 ^ n) in change (2 ^ n) with v in H
         end.

Lemma wrap_in_range t z :
  numeric_min t <= z <= numeric_max t -> wrap t z = z.
Proof.
  destruct t; cbv [wrap numeric_min numeric_max is_signed bits];
    intros H; eval_pows.
  1-5: apply Z.mod_small; lia.
  all: match goal with
       | |- (?a + ?h) mod ?m - ?h = _ =>
           rewrite (Z.mod_small (a + h) m); lia
       end.
Qed.

(** ** Field parsers *)

Module FieldParserFacts.
Import FieldParser.

Lemma digit_val_range c : is_digit c = true -> 0 <= digit_val c <= 9.
Proof.
  unfold is_digit, digit_val. rewrite andb_true_iff, !Z.leb_le.
  change (code (ascii_of_nat 48)) with 48.
  change (code (ascii_of_nat 57)) with 57. lia.
Qed.

Lemma minus_not_digit : is_digit MINUS = false.
Proof. reflexivity. Qed.

Lemma decimal_from_cons a c ds :
  decimal_from a (c :: ds) = decimal_from (10 * a + digit_val c) ds.
Proof. reflexivity. Qed.

Lemma decimal_from_ge ds : forall a,
  all_digits ds -> 0 <= a -> a <= decimal_from a ds.
Proof.
  induction ds as [|c ds IH]; intros a Hd Ha; [cbn; lia|].
  rewrite decimal_from_cons.
  inversion Hd as [|? ? Hc Hds]; subst.
  pose proof (digit_val_range _ Hc).
  etransitivity; [|apply IH; [assumption|lia]]. lia.
Qed.

(** The overflow test of the code is exact: it fires when, and only
    when, the next value leaves the range. *)
Lemma overflow_test_exact m x y :
  0 <= y <= 9 -> 9 <= m -> 0 <= x ->
  (x >? Z.quot (m - y) 10) = (m <? 10 * x + y).
Proof.
  intros Hy Hm Hx. rewrite Z.quot_div_nonneg by lia.
  pose proof (Z.div_mod (m - y) 10 ltac:(lia)).
  pose proof (Z.mod_pos_bound (m - y) 10 ltac:(lia)).
  destruct (Z.gtb_spec x ((m - y) / 10)); destruct (Z.ltb_spec m (10 * x + y));
    try reflexivity; lia.
Qed.

Lemma underflow_test_exact m x y :
  0 <= y <= 9 -> m <= -9 -> x <= 0 ->
  (x <? Z.quot (m + y) 10) = (10 * x - y <? m).
Proof.
  intros Hy Hm Hx.
  replace (m + y) with (- (- m - y)) by lia.
  rewrite Z.quot_opp_l by lia. rewrite Z.quot_div_nonneg by lia.
  pose proof (Z.div_mod (- m - y) 10 ltac:(lia)).
  pose proof (Z.mod_pos_bound (- m - y) 10 ltac:(lia)).
  destruct (Z.ltb_spec x (- ((- m - y) / 10)));
    destruct (Z.ltb_spec (10 * x - y) m); try reflexivity; lia.
Qed.

(** A digit string that stays in range is read as the number it
    denotes, under both policies. *)
Lemma unsigned_loop_in_range p t ds : forall x,
  all_digits ds -> 0 <= x -> decimal_from x ds <= numeric_max t ->
  unsigned_loop p t ds x = (true, decimal_from x ds, None).
Proof.
  induction ds as [|c ds IH]; intros x Hd Hx Hle; [reflexivity|].
  rewrite decimal_from_cons in *. cbn [unsigned_loop].
  inversion Hd as [|? ? Hc Hds]; subst. rewrite Hc.
  pose proof (digit_val_range _ Hc) as Hy.
  pose proof (numeric_max_ge t) as Hm.
  pose proof (numeric_min_le t) as Hn.
  pose proof (@decimal_from_ge ds (10 * x + digit_val c) Hds ltac:(lia)).
  rewrite overflow_test_exact by lia.
  destruct (Z.ltb_spec (numeric_max t) (10 * x + digit_val c)); [lia|].
  rewrite wrap_in_range by lia. apply IH; [assumption|lia|assumption].
Qed.

(** A digit string that leaves the range stops the loop at the
    overflowing digit, whatever follows. *)
Lemma unsigned_loop_overflow p t ds : forall x rest,
  all_digits ds -> 0 <= x <= numeric_max t ->
  numeric_max t < decimal_from x ds ->
  exists x', unsigned_loop p t (ds ++ rest) x = (true, on_overflow p t x', None).
Proof.
  induction ds as [|c ds IH]; intros x rest Hd Hx Hgt; [cbn in Hgt; lia|].
  rewrite decimal_from_cons in Hgt. cbn [unsigned_loop app].
  inversion Hd as [|? ? Hc Hds]; subst. rewrite Hc.
  pose proof (digit_val_range _ Hc) as Hy.
  pose proof (numeric_max_ge t) as Hm.
  pose proof (numeric_min_le t) as Hn.
  rewrite overflow_test_exact by lia.
  destruct (Z.ltb_spec (numeric_max t) (10 * x + digit_val c)).
  - exists x. reflexivity.
  - rewrite wrap_in_range by lia. apply IH; [assumption|lia|assumption].
Qed.

Lemma digit_not_minus c : is_digit c = true -> ch_eqb c MINUS = false.
Proof.
  intros H. apply ch_eqb_neq. intros ->. discriminate H.
Qed.

Lemma digit_not_plus c : is_digit c = true -> ch_eqb c PLUS = false.
Proof.
  intros H. apply ch_eqb_neq. intros ->. discriminate H.
Qed.

(** C5. Under [set_to_max_on_overflow], a digit string whose value
    exceeds the maximum of the target type parses with success to that
    maximum and leaves the error slot empty; nothing after the digits
    that overflow is looked at, so the bytes [rest] that follow are
    arbitrary. *)
Theorem clamp_on_overflow t ds rest x :
  all_digits ds -> numeric_max t < decimal ds ->
  parse_unsigned_integer set_to_max_on_overflow t (ds ++ rest) x None
    = (true, numeric_max t, None) /\
  parse_signed_integer set_to_max_on_overflow t (ds ++ rest) x None
    = (true, numeric_max t, None).
Proof.
  intros Hd Hgt.
  assert (Hloop : unsigned_loop set_to_max_on_overflow t (ds ++ rest) 0
                  = (true, numeric_max t, None)).
  { pose proof (numeric_max_ge t).
    destruct (@unsigned_loop_overflow set_to_max_on_overflow t ds 0 rest)
      as [x' Hx']; [assumption|lia|exact Hgt|exact Hx']. }
  destruct ds as [|c ds]; [cbn in Hgt; pose proof (numeric_max_ge t); lia|].
  inversion Hd as [|? ? Hc Hds]; subst.
  unfold parse_signed_integer, parse_unsigned_integer. cbn [app].
  rewrite (digit_not_minus _ Hc), (digit_not_plus _ Hc).
  split; exact Hloop.
Qed.

Lemma clamp_on_overflow_witness :
  parse_unsigned_integer set_to_max_on_overflow UChar (lit "999x") 7 None
    = (true, 255, None) /\
  parse_signed_integer set_to_max_on_overflow UChar (lit "999x") 7 None
    = (true, 255, None).
Proof.
  apply (@clamp_on_overflow UChar (lit "999") (lit "x") 7).
  - repeat constructor.
  - vm_compute. reflexivity.
Defined.

(** C10. The empty slice parses to 0 with success into an unsigned and
    into a signed target, and so do the slices made of a single sign
    into a signed target; no error is populated. *)
Theorem empty_slice_is_zero p t x :
  parse_unsigned_integer p t [] x None = (true, 0, None) /\
  parse_signed_integer p t [] x None = (true, 0, None) /\
  parse_signed_integer p t [MINUS] x None = (true, 0, None) /\
  parse_signed_integer p t [PLUS] x None = (true, 0, None).
Proof. repeat split. Qed.

(** The parsers that test the error slot on entry leave their output and
    the pending error alone. *)
Lemma parse_char_pending col x e :
  parse_char col x (Some e) = (false, x, Some e).
Proof. reflexivity. Qed.

Lemma parse_unsigned_pending p t col x e :
  parse_unsigned_integer p t col x (Some e) = (false, x, Some e).
Proof. reflexivity. Qed.

Lemma parse_signed_pending p t col x e :
  parse_signed_integer p t col x (Some e) = (false, x, Some e).
Proof. reflexivity. Qed.

Lemma parse_float_pending {T} {ops : FloatOps T} col (x : T) e :
  parse_float col x (Some e) = Some (false, x, Some e).
Proof. reflexivity. Qed.

(** The string parser has no such test. *)
Lemma parse_string_pending col x e :
  parse_string col x (Some e) = (true, col, Some e).
Proof. reflexivity. Qed.

(** A leading minus sign is refused for an unsigned target before the
    output is written. *)
Lemma minus_refused p t s x :
  parse_unsigned_integer p t (MINUS :: s) x None
    = (false, x, Some (make_shared integer_must_be_positive)).
Proof. reflexivity. Qed.

End FieldParserFacts.

(** ** Trimming and unescaping *)

Module TokenizerFacts.
Import Tokenizer.

(** C6. Under the space/tab trim policy and the double-quote escape
    policy, trimming and then unescaping the six bytes
    quote, a, quote, quote, b, quote gives the three bytes a, quote, b:
    the outer quotes are stripped and the doubled quote inside becomes
    one. *)
Theorem trim_unescape_doubled_quote sep :
  unescape (double_quote_escape sep DQUOTE)
           (trim [SPACE; TAB]
                 ([DQUOTE] ++ lit "a" ++ [DQUOTE; DQUOTE] ++ lit "b" ++ [DQUOTE]))
  = lit "a" ++ [DQUOTE] ++ lit "b".
Proof. reflexivity. Qed.

End TokenizerFacts.

(** ** The line reader *)

Module ReaderFacts.
Import Reader.

Lemma block_len_val : block_len = 1048576.
Proof. reflexivity. Qed.

#[local] Opaque block_len.

Lemma string_source_bounded : bounded_reads (Src := NonOwningStringByteSource).
Proof.
  intros s n Hn. cbn. unfold string_source_read. cbn [fst].
  rewrite length_firstn.
  destruct (Z.ltb_spec (Z.of_nat (length (str s))) n); lia.
Qed.

Section WithSource.
Context {Src : Type} {src : ByteSourceBase Src}.

Lemma find_line_end_range m e fuel : forall b,
  b <= e -> b <= find_line_end m e fuel b <= e.
Proof.
  induction fuel as [|fuel IH]; intros b Hb; cbn [find_line_end]; [lia|].
  destruct (Z.eqb_spec b e); cbn [negb andb]; [lia|].
  destruct (ch_eqb (m b) LF); cbn [negb]; [lia|].
  specialize (IH (b + 1)). lia.
Qed.

(** With enough fuel the scan stops at the end of the data or on a
    line feed, and passes no line feed on the way. *)
Lemma find_line_end_stop m e fuel : forall b,
  b <= e -> e - b <= Z.of_nat fuel ->
  let r := find_line_end m e fuel b in
  (r = e \/ m r = LF) /\ forall i, b <= i < r -> m i <> LF.
Proof.
  induction fuel as [|fuel IH]; intros b Hb Hf; cbn [find_line_end].
  - split; [left|]; lia.
  - destruct (Z.eqb_spec b e); cbn [negb andb].
    + split; [left; assumption|lia].
    + destruct (ch_eqb (m b) LF) eqn:E; cbn [negb].
      * apply ch_eqb_eq in E. split; [right; assumption|lia].
      * apply ch_eqb_neq in E.
        destruct (IH (b + 1) ltac:(lia) ltac:(lia)) as [H1 H2].
        split; [exact H1|]. intros i Hi.
        destruct (Z.eq_dec i b) as [->|]; [exact E|apply H2; lia].
Qed.

Hypothesis Hread : bounded_reads (Src := Src).

Lemma init_ok file_name_ s fresh : reader_ok (init file_name_ s fresh).
Proof.
  unfold init. pose proof (Hread s (2 * block_len)) as Hb.
  pose proof block_len_val.
  destruct (read s (2 * block_len)) as [data s']. cbn [fst] in Hb.
  split.
  - unfold cursors_ok. cbn [data_begin data_end].
    destruct (Z.leb_spec 3 (Z.of_nat (length data))); cbn [andb];
      [destruct (is_bom _)|]; lia.
  - unfold reader_started. cbn [reader].
    destruct (Z.of_nat (length data) =? 2 * block_len); [reflexivity|].
    cbn. discriminate.
Qed.

Lemma shift_ok lr :
  reader_ok lr -> block_len <= data_begin lr ->
  reader_started (shift lr)
  /\ data_begin (shift lr) = data_begin lr - block_len
  /\ data_end lr - block_len <= data_end (shift lr) <= data_end lr.
Proof.
  intros [Hc Hs] Hge. unfold shift, reader_started in *.
  destruct (is_valid (reader lr)) eqn:Ev.
  - pose proof (Hs eq_refl) as Hd. unfold finish_read. unfold is_valid in Ev.
    destruct (byte_source (reader lr)) as [s|] eqn:Es; [|discriminate].
    rewrite Hd.
    pose proof (Hread s block_len) as Hb. pose proof block_len_val.
    destruct (read s block_len) as [data s']. cbn [fst] in Hb.
    cbn [reader data_begin data_end start_read desired_byte_count].
    repeat split; lia.
  - cbn [reader data_begin data_end]. pose proof block_len_val.
    repeat split; try lia. intros Hv. congruence.
Qed.

Lemma next_line_ok lr err :
  reader_ok lr -> reader_ok (snd (fst (next_line lr err))).
Proof.
  intros Hok. pose proof Hok as [Hc Hs]. pose proof block_len_val as Hbl.
  unfold next_line. destruct err; [exact Hok|].
  destruct (Z.eqb_spec (data_begin lr) (data_end lr)); [exact Hok|].
  set (lr1 := set_file_line lr (incr_file_line (file_line lr))).
  assert (Hok1 : reader_ok lr1) by exact Hok.
  destruct (Z.geb_spec (data_begin lr1) (data_end lr1)); [exact Hok1|].
  destruct (Z.gtb_spec (data_end lr1) (block_len * 2)); [exact Hok1|].
  set (lr2 := if data_begin lr1 >=? block_len then shift lr1 else lr1).
  assert (H2 : reader_started lr2 /\ 0 <= data_begin lr2 < block_len
               /\ data_begin lr2 < data_end lr2 <= 2 * block_len).
  { subst lr2. unfold cursors_ok in Hc.
    destruct (Z.geb_spec (data_begin lr1) block_len).
    - destruct (shift_ok lr1 Hok1) as (Ha & Hb & Hc'); [lia|].
      cbn [lr1 set_file_line data_begin data_end] in *.
      split; [exact Ha|]. lia.
    - cbn [lr1 set_file_line data_begin data_end] in *.
      split; [exact Hs|]. lia. }
  clearbody lr2. destruct H2 as (Hs2 & Hb2 & He2).
  set (line_end := find_line_end (buffer lr2) (data_end lr2)
                     (Z.to_nat (data_end lr2 - data_begin lr2)) (data_begin lr2)).
  pose proof (find_line_end_range (buffer lr2) (data_end lr2)
                (Z.to_nat (data_end lr2 - data_begin lr2)) (data_begin lr2)
                ltac:(lia)) as Hr.
  destruct (find_line_end_stop (buffer lr2) (data_end lr2)
              (Z.to_nat (data_end lr2 - data_begin lr2)) (data_begin lr2)
              ltac:(lia) ltac:(lia)) as [Hstop _].
  fold line_end in Hr, Hstop.
  destruct (Z.gtb_spec (line_end - data_begin lr2 + 1) block_len).
  - cbn [fst snd]. split; [unfold cursors_ok; lia|exact Hs2].
  - cbn [fst snd]. split; [|exact Hs2].
    unfold cursors_ok. cbn [data_begin data_end].
    destruct (Z.eqb_spec line_end (data_end lr2)) as [E|E]; cbn [negb andb].
    + lia.
    + destruct Hstop as [Hstop|Hstop]; [contradiction|].
      rewrite Hstop, ch_eqb_refl. lia.
Qed.

(** C9. Between [next_line] calls the cursors of a [LineReader] built
    over a byte source that honours the [read] contract satisfy
    [0 <= data_begin <= data_end <= 2 * block_len]: [init] establishes
    it and every [next_line] call keeps it, on the shift-and-refill path
    and on the path that adds the terminator of a last line without
    newline as well. *)
Theorem cursors_invariant file_name_ s fresh lr :
  reachable file_name_ s fresh lr ->
  cursors_ok lr /\ forall err, cursors_ok (snd (fst (next_line lr err))).
Proof.
  intros Hreach.
  assert (Hok : reader_ok lr).
  { induction Hreach as [|lr err _ IH|lr name _ IH|lr n _ IH].
    - apply init_ok.
    - apply next_line_ok, IH.
    - exact IH.
    - exact IH. }
  split; [apply Hok|]. intros err. apply next_line_ok, Hok.
Qed.

(** The scan does not stop before the end of a run without line
    feed. *)
Lemma find_line_end_skips m e fuel : forall b k,
  0 <= k -> b + k <= e -> k <= Z.of_nat fuel ->
  (forall i, b <= i < b + k -> m i <> LF) ->
  b + k <= find_line_end m e fuel b.
Proof.
  induction fuel as [|fuel IH]; intros b k Hk He Hf Hm; cbn [find_line_end];
    [lia|].
  destruct (Z.eq_dec k 0) as [->|Hk0].
  { pose proof (find_line_end_range m e (S fuel) b ltac:(lia)) as Hr.
    cbn [find_line_end] in Hr. lia. }
  destruct (Z.eqb_spec b e); [lia|]. cbn [negb andb].
  destruct (ch_eqb (m b) LF) eqn:E.
  { apply ch_eqb_eq in E. exfalso. apply (Hm b); [lia|exact E]. }
  cbn [negb]. specialize (IH (b + 1) (k - 1)).
  replace (b + 1 + (k - 1)) with (b + k) in IH by lia.
  apply IH; try lia. intros i Hi. apply Hm. lia.
Qed.

(** A line that fills a whole block is refused: with [block_len] bytes
    without line feed buffered from [data_begin] on, [next_line]
    populates [line_length_limit_exceeded] with the file name and the
    number of the line, and returns no line. *)
Lemma next_line_too_long (lr : LineReader Src) :
  0 <= data_begin lr < block_len ->
  data_begin lr + block_len <= data_end lr <= 2 * block_len ->
  (forall i, data_begin lr <= i < data_begin lr + block_len ->
             buffer lr i <> LF) ->
  next_line lr None
  = (None, set_file_line lr (incr_file_line (file_line lr)),
     Some (Error.set_file_line
             (Error.set_file_name (make_shared line_length_limit_exceeded)
                                  (file_name lr))
             (wrap SInt (incr_file_line (file_line lr))))).
Proof.
  intros Hb He Hm. pose proof block_len_val as Hbl. unfold next_line.
  destruct (Z.eqb_spec (data_begin lr) (data_end lr)); [lia|].
  cbn [set_file_line data_begin data_end buffer file_name file_line].
  destruct (Z.geb_spec (data_begin lr) (data_end lr)); [lia|].
  destruct (Z.gtb_spec (data_end lr) (block_len * 2)); [lia|].
  destruct (Z.geb_spec (data_begin lr) block_len); [lia|].
  cbn [set_file_line data_begin data_end buffer file_name file_line].
  pose proof (find_line_end_skips (buffer lr) (data_end lr)
                (Z.to_nat (data_end lr - data_begin lr)) (data_begin lr)
                block_len ltac:(lia) ltac:(lia) ltac:(lia) Hm) as Hskip.
  destruct (Z.gtb_spec
              (find_line_end (buffer lr) (data_end lr)
                 (Z.to_nat (data_end lr - data_begin lr)) (data_begin lr)
               - data_begin lr + 1) block_len); [reflexivity|lia].
Qed.

End WithSource.

Lemma cursors_invariant_witness :
  let lr := snd (fst (next_line
                        (init (lit "1.csv")
                              (mk_string_source (lit "a,b" ++ [LF] ++ lit "1,2"))
                              (fun _ => NUL)) None)) in
  cursors_ok lr /\ forall err, cursors_ok (snd (fst (next_line lr err))).
Proof.
  intros lr.
  apply (cursors_invariant string_source_bounded (lit "1.csv")
           (mk_string_source (lit "a,b" ++ [LF] ++ lit "1,2")) (fun _ => NUL)).
  apply reach_next_line. apply reach_init.
Defined.

End ReaderFacts.

(** ** The lines of an in-memory file *)

Module LinesFacts.
Import Reader ReaderFacts.

#[local] Opaque block_len.

Ltac z_cases :=
  repeat match goal with
         | |- context [?a <=? ?b] => destruct (Z.leb_spec a b)
         | |- context [?a <? ?b] => destruct (Z.ltb_spec a b)
         | |- context [?a =? ?b] => destruct (Z.eqb_spec a b)
         | |- context [?a >=? ?b] => destruct (Z.geb_spec a b)
         | |- context [?a >? ?b] => destruct (Z.gtb_spec a b)
         end; cbn [andb negb].

Lemma string_read s n :
  0 <= n ->
  read s n = (firstn (Z.to_nat n) (str s),
              mk_string_source (skipn (Z.to_nat n) (str s))).
Proof.
  intros Hn. cbn [read string_byte_source]. unfold string_source_read.
  destruct (Z.ltb_spec (Z.of_nat (length (str s))) n); [|reflexivity].
  rewrite Nat2Z.id, firstn_all, skipn_all.
  rewrite firstn_all2, skipn_all2 by lia. reflexivity.
Qed.

Lemma fill_inside m off data i :
  off <= i < off + Z.of_nat (length data) ->
  fill m off data i = nth (Z.to_nat (i - off)) data NUL.
Proof. intros H. unfold fill. z_cases; try lia. reflexivity. Qed.

Lemma fill_outside m off data i :
  i < off \/ off + Z.of_nat (length data) <= i -> fill m off data i = m i.
Proof. intros H. unfold fill. z_cases; try lia; reflexivity. Qed.

Lemma nth_firstn_lt (l : list ascii) n i :
  (i < n)%nat -> nth i (firstn n l) NUL = nth i l NUL.
Proof.
  intros H. rewrite nth_firstn. destruct (Nat.ltb_spec i n); [reflexivity|lia].
Qed.

Lemma init_pending file_name_ file fresh :
  pending (init file_name_ (mk_string_source file) fresh) (skip_bom file).
Proof.
  pose proof block_len_val as Hbl. unfold init.
  rewrite string_read by lia. cbn [str].
  set (data := firstn (Z.to_nat (2 * block_len)) file).
  set (de := Z.of_nat (length data)).
  assert (Hde : de = Z.min (Z.of_nat (length file)) (2 * block_len)).
  { subst de data. rewrite length_firstn. lia. }
  assert (Hbuf : forall i, 0 <= i < de ->
                 fill fresh 0 data i = nth (Z.to_nat i) file NUL).
  { intros i Hi. rewrite fill_inside by (fold de; lia).
    replace (i - 0) with i by lia. subst data. apply nth_firstn_lt. lia. }
  set (db := if (3 <=? de) && is_bom (fill fresh 0 data) then 3 else 0).
  assert (Hdb : (db = 0 /\ skip_bom file = file)
                \/ (db = 3 /\ 3 <= de /\ skip_bom file = skipn 3 file)).
  { subst db. destruct (Z.leb_spec 3 de) as [H3|H3]; cbn [andb].
    - unfold is_bom. rewrite !Hbuf by lia.
      destruct file as [|a [|b [|c file']]]; cbn [length] in Hde; try lia.
      change (nth (Z.to_nat 0) (a :: b :: c :: file') NUL) with a.
      change (nth (Z.to_nat 1) (a :: b :: c :: file') NUL) with b.
      change (nth (Z.to_nat 2) (a :: b :: c :: file') NUL) with c.
      unfold skip_bom.
      destruct (ch_eqb a (ascii_of_nat 239) && ch_eqb b (ascii_of_nat 187)
                && ch_eqb c (ascii_of_nat 191)); [right|left]; auto.
    - left. split; [reflexivity|].
      destruct file as [|a [|b [|c file']]]; try reflexivity.
      cbn [length] in Hde. lia. }
  assert (Hrest : skip_bom file = skipn (Z.to_nat db) file
                  /\ (db = 0 \/ db = 3 /\ 3 <= de)).
  { destruct Hdb as [[-> ->]|(-> & H3 & ->)]; split; auto. }
  clearbody db. clear Hdb. destruct Hrest as [Hrest Hdb]. rewrite Hrest.
  unfold pending, cursors_ok, buffered, source_ok.
  cbn [data_begin data_end buffer reader].
  rewrite length_skipn.
  repeat split; try lia.
  - intros i Hi. rewrite Hbuf by lia. rewrite nth_skipn. f_equal. lia.
  - destruct (Z.eqb_spec de (2 * block_len)) as [E|E].
    + cbn [start_read byte_source desired_byte_count target str].
      repeat split; try lia. rewrite skipn_skipn. f_equal. lia.
    + cbn [byte_source]. lia.
  - intros E. apply length_zero_iff_nil. rewrite length_skipn. lia.
Qed.

Lemma memcpy_inside m dst src n i :
  dst <= i < dst + n -> memcpy m dst src n i = m (i - dst + src).
Proof. intros H. unfold memcpy. z_cases; try lia. reflexivity. Qed.

Lemma memcpy_outside m dst src n i :
  i < dst \/ dst + n <= i -> memcpy m dst src n i = m i.
Proof. intros H. unfold memcpy. z_cases; try lia; reflexivity. Qed.

Lemma skipn_firstn_length (l : list ascii) n :
  skipn n l = skipn (length (firstn n l)) l.
Proof.
  rewrite length_firstn. destruct (Nat.le_ge_cases n (length l)).
  - rewrite Nat.min_l by assumption. reflexivity.
  - rewrite Nat.min_r by assumption. rewrite skipn_all.
    apply skipn_all2. assumption.
Qed.

(** The shift keeps what is pending, and brings [data_begin] into the
    first block. *)
Lemma shift_pending lr rest :
  pending lr rest -> block_len <= data_begin lr < data_end lr ->
  pending (shift lr) rest
  /\ data_begin (shift lr) = data_begin lr - block_len
  /\ data_begin (shift lr) < data_end (shift lr)
  /\ file_name (shift lr) = file_name lr
  /\ file_line (shift lr) = file_line lr.
Proof.
  intros (Hc & Hlen & Hbuf & Hsrc & Hemp) Hge.
  pose proof block_len_val as Hbl.
  unfold cursors_ok in Hc. unfold source_ok in Hsrc. unfold buffered in Hbuf.
  unfold shift, is_valid, finish_read.
  destruct (byte_source (reader lr)) as [s|] eqn:Es.
  - destruct Hsrc as (Hstr & Hdes & Htgt & Hfull).
    rewrite Hdes, Htgt. rewrite string_read by lia.
    set (data := firstn (Z.to_nat block_len) (str s)).
    assert (Hn : Z.of_nat (length data)
                 = Z.min block_len (Z.of_nat (length (str s)))).
    { subst data. rewrite length_firstn. lia. }
    assert (Hls : Z.of_nat (length (str s))
                  = Z.of_nat (length rest) - (data_end lr - data_begin lr)).
    { rewrite Hstr, length_skipn. lia. }
    assert (Hfull' : 0 < Z.of_nat (length data) -> data_end lr = 2 * block_len).
    { intros Hpos. destruct Hfull as [|E]; [assumption|].
      rewrite E in Hn. cbn [length] in Hn. lia. }
    unfold pending, cursors_ok, buffered, source_ok.
    cbn [data_begin data_end buffer reader file_name file_line start_read
         byte_source desired_byte_count target str].
    repeat split; try lia.
    + intros i Hi.
      destruct (Z.lt_ge_cases i block_len) as [Hlt|Hge'].
      * rewrite memcpy_outside by lia. rewrite fill_outside by lia.
        rewrite memcpy_inside by lia. rewrite Hbuf by lia. f_equal. lia.
      * rewrite memcpy_inside by lia. rewrite fill_inside by lia.
        subst data. rewrite nth_firstn_lt by lia. rewrite Hstr, nth_skipn.
        f_equal. lia.
    + rewrite (skipn_firstn_length (str s) (Z.to_nat block_len)).
      fold data. rewrite Hstr, skipn_skipn. f_equal. lia.
    + destruct (Z.eq_dec (Z.of_nat (length data)) block_len) as [E|E].
      * left. lia.
      * right. apply length_zero_iff_nil. rewrite length_skipn. lia.
  - unfold pending, cursors_ok, buffered, source_ok.
    cbn [data_begin data_end buffer reader file_name file_line].
    rewrite Es. repeat split; try lia.
    intros i Hi. rewrite memcpy_inside by lia. rewrite Hbuf by lia.
    f_equal. lia.
Qed.

Lemma find_line_end_line m e fuel b (l : list ascii) :
  no_line_feed l ->
  (forall j, (j < length l)%nat -> m (b + Z.of_nat j) = nth j l NUL) ->
  b + Z.of_nat (length l) <= e ->
  (b + Z.of_nat (length l) = e \/ m (b + Z.of_nat (length l)) = LF) ->
  e - b <= Z.of_nat fuel ->
  find_line_end m e fuel b = b + Z.of_nat (length l).
Proof.
  intros Hnl Hm He Hend Hf.
  assert (Hno : forall i, b <= i < b + Z.of_nat (length l) -> m i <> LF).
  { intros i Hi E. apply Hnl.
    replace i with (b + Z.of_nat (Z.to_nat (i - b))) in E by lia.
    rewrite Hm in E by lia. rewrite <- E. apply nth_In. lia. }
  pose proof (find_line_end_skips m e fuel b (Z.of_nat (length l))
                ltac:(lia) He ltac:(lia) Hno) as Hge.
  pose proof (find_line_end_range m e fuel b ltac:(lia)) as Hr.
  destruct (find_line_end_stop m e fuel b ltac:(lia) Hf) as [_ Hpass].
  cbv zeta in Hpass.
  destruct (Z.eq_dec (find_line_end m e fuel b) (b + Z.of_nat (length l)))
    as [|Hne]; [assumption|].
  exfalso. destruct Hend as [E|E]; [lia|].
  apply (Hpass (b + Z.of_nat (length l))); [lia|exact E].
Qed.

Lemma peek_list m : forall n off (l : list ascii),
  (n <= length l)%nat ->
  (forall j, (j < n)%nat -> m (off + Z.of_nat j) = nth j l NUL) ->
  peek m off n = firstn n l.
Proof.
  induction n as [|n IH]; intros off l Hn Hm; [reflexivity|].
  destruct l as [|c l]; [cbn in Hn; lia|]. cbn [peek firstn].
  f_equal.
  - specialize (Hm O ltac:(lia)). cbn [nth] in Hm.
    rewrite <- Hm. f_equal. lia.
  - apply IH; [cbn in Hn; lia|]. intros j Hj.
    specialize (Hm (S j) ltac:(lia)). cbn [nth] in Hm. rewrite <- Hm.
    f_equal. lia.
Qed.

Lemma c_str_app_nul l l' : c_str (l ++ NUL :: l') = c_str l.
Proof.
  induction l as [|c l IH]; cbn [app c_str].
  - rewrite ch_eqb_refl. reflexivity.
  - destruct (ch_eqb c NUL); [reflexivity|]. rewrite IH. reflexivity.
Qed.

Lemma chomp_snoc l c :
  chomp (l ++ [c]) = if ch_eqb c CR then l else l ++ [c].
Proof.
  unfold chomp. rewrite rev_app_distr. cbn [rev app].
  destruct (ch_eqb c CR); [apply rev_involutive|reflexivity].
Qed.

Lemma poke_other m i c j : j <> i -> poke m i c j = m j.
Proof. intros H. unfold poke. destruct (Z.eqb_spec j i); [contradiction|reflexivity]. Qed.

Lemma poke_same m i c : poke m i c i = c.
Proof. unfold poke. rewrite Z.eqb_refl. reflexivity. Qed.

(** The step of the reader on a pending line: [l] is the line, without
    line feed, and [tail] is either the line feed and what follows, or
    nothing after a last line that is not empty. *)
Lemma next_line_delivers lr l tail :
  pending lr (l ++ tail) ->
  no_line_feed l ->
  Z.of_nat (length l) + 1 <= block_len ->
  (exists r, tail = LF :: r) \/ (tail = [] /\ l <> []) ->
  exists lr',
    next_line lr None = (Some (c_str (chomp l)), lr', None)
    /\ pending lr' (tl tail)
    /\ file_line lr' = incr_file_line (file_line lr)
    /\ file_name lr' = file_name lr.
Proof.
  intros Hp Hnl Hlen Htail. pose proof block_len_val as Hbl.
  set (rest := l ++ tail) in *.
  assert (Hrest : rest <> []).
  { subst rest. destruct Htail as [[r ->]|[-> Hl]].
    - destruct l; discriminate.
    - rewrite app_nil_r. exact Hl. }
  assert (Hlr : Z.of_nat (length rest)
                = Z.of_nat (length l) + Z.of_nat (length tail)).
  { subst rest. rewrite length_app. lia. }
  assert (Htl : tl tail = skipn (S (length l)) rest).
  { subst rest. rewrite skipn_app.
    rewrite skipn_all2 by lia.
    replace (S (length l) - length l)%nat with 1%nat by lia.
    destruct tail; reflexivity. }
  assert (Hp1 : pending (set_file_line lr (incr_file_line (file_line lr))) rest)
    by exact Hp.
  unfold next_line.
  destruct Hp as (Hc & Hle & Hbuf & Hsrc & Hemp). unfold cursors_ok in Hc.
  destruct (Z.eqb_spec (data_begin lr) (data_end lr)) as [E|E];
    [elim Hrest; auto|].
  set (lr1 := set_file_line lr (incr_file_line (file_line lr))) in *.
  change (data_begin lr1) with (data_begin lr).
  change (data_end lr1) with (data_end lr).
  destruct (Z.geb_spec (data_begin lr) (data_end lr)); [lia|].
  destruct (Z.gtb_spec (data_end lr) (block_len * 2)); [lia|].
  set (lr2 := if data_begin lr >=? block_len then shift lr1 else lr1).
  assert (H2 : pending lr2 rest
               /\ 0 <= data_begin lr2 < block_len
               /\ data_begin lr2 < data_end lr2
               /\ file_name lr2 = file_name lr
               /\ file_line lr2 = incr_file_line (file_line lr)).
  { subst lr2. destruct (Z.geb_spec (data_begin lr) block_len).
    - destruct (shift_pending lr1 rest Hp1) as (Ha & Hb & Hc' & Hd & He');
        [unfold lr1; cbn [set_file_line data_begin data_end]; lia|].
      unfold lr1 in Hb, Hd, He'.
      cbn [set_file_line data_begin data_end file_name file_line] in Hb, Hd, He'.
      fold lr1 in Hb, Hd, He'.
      split; [exact Ha|]. repeat split; try assumption; lia.
    - split; [exact Hp1|]. unfold lr1.
      cbn [set_file_line data_begin data_end file_name file_line].
      repeat split; try assumption; lia. }
  clearbody lr2. clear Hp1 lr1 Hle Hbuf Hsrc Hemp Hc E.
  destruct H2 as ((Hc & Hle & Hbuf & Hsrc & Hemp) & Hb2 & Hlt2 & Hfn & Hfl).
  unfold cursors_ok in Hc. unfold buffered in Hbuf.
  set (db := data_begin lr2) in *. set (de := data_end lr2) in *.
  set (n := Z.of_nat (length l)) in *.
  (* how much of the line is buffered *)
  assert (Hcover : (exists r, tail = LF :: r) /\ db + n < de
                   \/ (tail = [] /\ db + n = de /\
                       (match byte_source (reader lr2) with
                        | Some s => str s = []
                        | None => True
                        end))).
  { unfold source_ok in Hsrc. fold db de in Hsrc.
    assert (Hex : de = 2 * block_len
                  \/ Z.of_nat (length rest) = de - db
                     /\ match byte_source (reader lr2) with
                        | Some s => str s = []
                        | None => True
                        end).
    { destruct (byte_source (reader lr2)) as [s|].
      - destruct Hsrc as (Hstr & _ & _ & [Hf|Hf]); [left; assumption|].
        right. split; [|assumption]. rewrite Hf in Hstr.
        symmetry in Hstr. apply (f_equal (@length ascii)) in Hstr.
        rewrite length_skipn in Hstr. cbn [length] in Hstr. lia.
      - right. split; [assumption|exact I]. }
    destruct Htail as [[r Hr]|[Ht Hl]].
    - left. split; [exists r; exact Hr|].
      rewrite Hr in Hlr. cbn [length] in Hlr. lia.
    - right. rewrite Ht in Hlr. cbn [length] in Hlr.
      destruct Hex as [Hex|[Hex Hs]]; [lia|].
      repeat split; [assumption|lia|assumption]. }
  assert (Hbl' : forall j, (j < length l)%nat ->
                 buffer lr2 (db + Z.of_nat j) = nth j l NUL).
  { intros j Hj. rewrite Hbuf by lia. subst rest. rewrite app_nth1 by lia.
    f_equal. lia. }
  assert (Hle' : find_line_end (buffer lr2) de (Z.to_nat (de - db)) db
                 = db + n).
  { apply find_line_end_line; try assumption; try lia.
    destruct Hcover as [[[r Hr] Hlt]|(Ht & He & _)]; [right|left; lia].
    rewrite Hbuf by lia. subst rest. rewrite app_nth2 by lia.
    replace (Z.to_nat (db + Z.of_nat (length l) - db) - length l)%nat
      with O by lia.
    rewrite Hr. reflexivity. }
  rewrite Hle'.
  destruct (Z.gtb_spec (db + n - db + 1) block_len); [lia|].
  set (buffer3 := poke (buffer lr2) (db + n) NUL).
  set (buffer4 := if negb (db + n =? db) && ch_eqb (buffer3 (db + n - 1)) CR
                  then poke buffer3 (db + n - 1) NUL else buffer3).
  set (de3 := if negb (db + n =? de) && ch_eqb (buffer lr2 (db + n)) LF
              then de else de + 1).
  assert (Hde3 : (exists r, tail = LF :: r) /\ de3 = de
                 \/ tail = [] /\ de3 = db + n + 1).
  { subst de3. destruct Hcover as [[[r Hr] Hlt]|(Ht & He & _)].
    - left. split; [exists r; exact Hr|].
      destruct (Z.eqb_spec (db + n) de); [lia|]. cbn [negb andb].
      rewrite Hbuf by lia. subst rest. rewrite app_nth2 by lia.
      replace (Z.to_nat (db + n - db) - length l)%nat with O by lia.
      rewrite Hr. cbn [nth]. rewrite ch_eqb_refl. reflexivity.
    - right. split; [assumption|].
      destruct (Z.eqb_spec (db + n) de); [|lia]. cbn [negb andb]. lia. }
  clearbody de3.
  assert (Hb4 : forall i, db + n < i -> buffer4 i = buffer lr2 i).
  { intros i Hi. subst buffer4 buffer3.
    destruct (negb (db + n =? db) && ch_eqb _ CR);
      rewrite ?poke_other by lia; reflexivity. }
  assert (Hline : c_str (peek buffer4 db (Z.to_nat (db + n - db)))
                  = c_str (chomp l)).
  { replace (Z.to_nat (db + n - db)) with (length l) by lia.
    destruct (rev l) as [|c l0r] eqn:Erev.
    - apply (f_equal (@rev ascii)) in Erev. rewrite rev_involutive in Erev.
      rewrite Erev. reflexivity.
    - apply (f_equal (@rev ascii)) in Erev. rewrite rev_involutive in Erev.
      cbn [rev] in Erev. set (l0 := rev l0r) in *. clearbody l0.
      assert (Hn : n = Z.of_nat (length l0) + 1).
      { subst n. rewrite Erev, length_app. cbn [length]. lia. }
      assert (Hc3 : buffer3 (db + n - 1) = c).
      { subst buffer3. rewrite poke_other by lia.
        replace (db + n - 1) with (db + Z.of_nat (length l0)) by lia.
        rewrite Hbl' by (rewrite Erev, length_app; cbn [length]; lia).
        rewrite Erev, app_nth2 by lia.
        replace (length l0 - length l0)%nat with O by lia. reflexivity. }
      rewrite Erev at 2. rewrite chomp_snoc.
      subst buffer4. destruct (Z.eqb_spec (db + n) db); [lia|].
      cbn [negb andb]. rewrite Hc3.
      destruct (ch_eqb c CR).
      + rewrite (peek_list _ (length l) db (l0 ++ [NUL])).
        * rewrite firstn_all2 by (rewrite Erev, !length_app; cbn [length]; lia).
          apply c_str_app_nul.
        * rewrite Erev, !length_app. cbn [length]. lia.
        * intros j Hj. rewrite Erev, length_app in Hj. cbn [length] in Hj.
          destruct (Nat.eq_dec j (length l0)) as [->|Hne].
          -- replace (db + Z.of_nat (length l0)) with (db + n - 1) by lia.
             rewrite poke_same, app_nth2 by lia.
             replace (length l0 - length l0)%nat with O by lia. reflexivity.
          -- rewrite poke_other by lia. subst buffer3.
             rewrite poke_other by lia.
             rewrite Hbl' by (rewrite Erev, length_app; cbn [length]; lia).
             rewrite Erev, !app_nth1 by lia. reflexivity.
      + rewrite (peek_list _ (length l) db l).
        * rewrite firstn_all. rewrite Erev. reflexivity.
        * lia.
        * intros j Hj. subst buffer3. rewrite poke_other by lia.
          apply Hbl'. exact Hj. }
  rewrite Hline.
  eexists. split; [reflexivity|].
  split; [|split; cbn [file_line file_name]; assumption].
  rewrite Htl. unfold pending, cursors_ok, buffered, source_ok.
  cbn [data_begin data_end buffer reader]. fold db de.
  rewrite length_skipn.
  unfold source_ok in Hsrc. fold db de in Hsrc.
  destruct Hde3 as [[[r Hr] ->]|[Ht ->]].
  - destruct Hcover as [[_ Hlt]|(Ht & _)]; [|rewrite Ht in Hr; discriminate].
    repeat split; try lia.
    + intros i Hi. rewrite Hb4 by lia. rewrite Hbuf by lia.
      rewrite nth_skipn. f_equal. lia.
    + destruct (byte_source (reader lr2)) as [s|].
      * destruct Hsrc as (Hstr & Hdes & Htgt & Hfull).
        repeat split; try assumption.
        rewrite Hstr, skipn_skipn. f_equal. lia.
      * lia.
    + intros E. apply length_zero_iff_nil. rewrite length_skipn.
      destruct (byte_source (reader lr2)) as [s|].
      * destruct Hsrc as (Hstr & _ & _ & [Hf|Hf]); [lia|].
        rewrite Hf in Hstr. symmetry in Hstr.
        apply (f_equal (@length ascii)) in Hstr.
        rewrite length_skipn in Hstr. cbn [length] in Hstr. lia.
      * lia.
  - destruct Hcover as [[[r Hr] _]|(_ & He & Hs)];
      [rewrite Ht in Hr; discriminate|].
    rewrite Ht in Hlr. cbn [length] in Hlr.
    repeat split; try lia.
    + destruct (byte_source (reader lr2)) as [s|].
      * destruct Hsrc as (Hstr & Hdes & Htgt & Hfull).
        repeat split; try assumption; [|right; assumption].
        rewrite Hs. symmetry. apply skipn_all2. rewrite length_skipn. lia.
      * lia.
    + intros _. apply length_zero_iff_nil. rewrite length_skipn. lia.
Qed.

Lemma next_line_at_end lr :
  pending lr [] -> next_line lr None = (None, lr, None).
Proof.
  intros (Hc & Hle & _). unfold cursors_ok in Hc. cbn [length] in Hle.
  unfold next_line.
  destruct (Z.eqb_spec (data_begin lr) (data_end lr)); [reflexivity|lia].
Qed.

Lemma c_str_plain l : plain_text l -> c_str l = l.
Proof.
  induction 1 as [|c l [Hc _] _ IH]; [reflexivity|]. cbn [c_str].
  apply ch_eqb_neq in Hc. rewrite Hc, IH. reflexivity.
Qed.

Lemma plain_no_line_feed l : plain_text l -> no_line_feed l.
Proof.
  intros H Hin. unfold plain_text in H. rewrite Forall_forall in H.
  destruct (H _ Hin) as (_ & Hlf & _). apply Hlf. reflexivity.
Qed.

Lemma chomp_plain l : plain_text l -> chomp l = l.
Proof.
  intros H. destruct (rev l) as [|c l0r] eqn:E.
  - unfold chomp. rewrite E. reflexivity.
  - apply (f_equal (@rev ascii)) in E. rewrite rev_involutive in E.
    cbn [rev] in E. rewrite E, chomp_snoc.
    unfold plain_text in H. rewrite Forall_forall in H.
    destruct (H c) as (_ & _ & Hcr); [rewrite E; apply in_or_app; right; left; reflexivity|].
    apply ch_eqb_neq in Hcr. rewrite Hcr. reflexivity.
Qed.

(** A line of text followed by a line break is returned as it is. *)
Lemma next_line_text lr l eol rest :
  plain_text l -> Z.of_nat (length l) + 2 <= block_len ->
  line_break eol ->
  pending lr (l ++ eol ++ rest) ->
  exists lr',
    next_line lr None = (Some l, lr', None)
    /\ pending lr' rest
    /\ file_line lr' = incr_file_line (file_line lr)
    /\ file_name lr' = file_name lr.
Proof.
  intros Hpl Hlen [->| ->] Hp.
  - destruct (next_line_delivers lr l (LF :: rest)) as (lr' & H1 & H2 & H3);
      [exact Hp|apply plain_no_line_feed, Hpl|lia|left; eauto|].
    rewrite chomp_plain, c_str_plain in H1 by assumption.
    exists lr'. auto.
  - destruct (next_line_delivers lr (l ++ [CR]) (LF :: rest))
      as (lr' & H1 & H2 & H3).
    + rewrite <- app_assoc. exact Hp.
    + intros Hin. apply in_app_or in Hin. destruct Hin as [Hin|[Hin|[]]].
      * exact (plain_no_line_feed l Hpl Hin).
      * discriminate Hin.
    + rewrite length_app. cbn [length]. lia.
    + left. eauto.
    + rewrite chomp_snoc, ch_eqb_refl, c_str_plain in H1 by assumption.
      exists lr'. auto.
Qed.

(** So is a last line that is not followed by a line break. *)
Lemma next_line_text_last lr l :
  plain_text l -> Z.of_nat (length l) + 2 <= block_len -> l <> [] ->
  pending lr l ->
  exists lr',
    next_line lr None = (Some l, lr', None)
    /\ pending lr' []
    /\ file_line lr' = incr_file_line (file_line lr)
    /\ file_name lr' = file_name lr.
Proof.
  intros Hpl Hlen Hne Hp.
  destruct (next_line_delivers lr l []) as (lr' & H1 & H2 & H3);
    [rewrite app_nil_r; exact Hp|apply plain_no_line_feed, Hpl|lia|right; auto|].
  rewrite chomp_plain, c_str_plain in H1 by assumption.
  exists lr'. auto.
Qed.

(** C3, at the input where the code leaves the documented limit. A
    file whose first line has [2^20] bytes, far below [2^24-1], is
    refused: the first [next_line] call returns no line and populates
    [line_length_limit_exceeded] with the file name and line number 1,
    whose message states the limit [2^24-1]. *)
Theorem block_long_line_refused file_name_ fresh :
  let line := repeat (ascii_of_nat 97) (Z.to_nat block_len) in
  let lr := init file_name_ (mk_string_source (line ++ [LF])) fresh in
  Z.of_nat (length line) = 2 ^ 20 /\
  Z.of_nat (length line) <= 2 ^ 24 - 1 /\
  exists lr' e,
    next_line lr None = (None, lr', Some e)
    /\ kind e = line_length_limit_exceeded
    /\ Error.file_name e = truncate_file_name file_name_
    /\ Error.file_line e = 1.
Proof.
  intros line lr. pose proof block_len_val as Hbl.
  assert (Hlen : Z.of_nat (length line) = block_len).
  { subst line. rewrite repeat_length. lia. }
  split; [rewrite Hlen, Hbl; reflexivity|].
  split; [rewrite Hlen, Hbl; vm_compute; discriminate|].
  assert (Hfile : Z.of_nat (length (line ++ [LF])) = block_len + 1).
  { rewrite length_app. cbn [length]. lia. }
  assert (Hinit : data_begin lr = 0 /\ data_end lr = block_len + 1
                  /\ (forall i, 0 <= i < block_len -> buffer lr i <> LF)
                  /\ file_name lr = truncate_file_name file_name_
                  /\ file_line lr = 0).
  { subst lr. unfold init. rewrite string_read by lia. cbn [str].
    rewrite firstn_all2 by lia. rewrite Hfile.
    assert (Hb : forall i, 0 <= i < block_len ->
                 fill fresh 0 (line ++ [LF]) i = ascii_of_nat 97).
    { intros i Hi. rewrite fill_inside by lia. rewrite app_nth1 by lia.
      subst line. rewrite nth_repeat_lt by lia. reflexivity. }
    assert (Hbom : is_bom (fill fresh 0 (line ++ [LF])) = false).
    { unfold is_bom. rewrite (Hb 0) by lia. reflexivity. }
    rewrite Hbom, andb_false_r.
    cbn [data_begin data_end buffer file_name file_line].
    repeat split. intros i Hi. rewrite Hb by lia. discriminate. }
  destruct Hinit as (Hdb & Hde & Hbuf & Hfn & Hfl).
  eexists. eexists. split.
  - apply next_line_too_long.
    + lia.
    + lia.
    + intros i Hi. apply Hbuf. lia.
  - rewrite Hfn, Hfl. repeat split.
Qed.

End LinesFacts.

(** ** Tokenizing *)

Module ColumnFacts.
Import Tokenizer.

Lemma find_end_plain_split sep s :
  fst (find_end_plain sep s) ++ snd (find_end_plain sep s) = s.
Proof.
  induction s as [|c s IH]; [reflexivity|]. cbn [find_end_plain].
  destruct (ch_eqb c sep); [reflexivity|].
  destruct (find_end_plain sep s) as [col rest]. cbn [fst snd app] in *.
  rewrite IH. reflexivity.
Qed.

Lemma find_end_quoted_split sep quote s : forall st col rest,
  find_end_quoted sep quote st s = Some (col, rest) -> col ++ rest = s.
Proof.
  induction s as [|c s IH]; intros st col rest H.
  - destruct st; cbn in H; inversion H; reflexivity.
  - assert (Hcons : forall st',
              cons_col c (find_end_quoted sep quote st' s) = Some (col, rest) ->
              col ++ rest = c :: s).
    { intros st' H'. destruct (find_end_quoted sep quote st' s) as [[a b]|] eqn:E;
        cbn [cons_col] in H'; inversion H'; subst.
      cbn [app]. f_equal. eapply IH. exact E. }
    destruct st; cbn [find_end_quoted] in H.
    + destruct (ch_eqb c sep); [inversion H; reflexivity|].
      destruct (negb (ch_eqb c quote)); eapply Hcons; exact H.
    + destruct (ch_eqb c quote); eapply Hcons; exact H.
    + destruct (ch_eqb c quote); [eapply Hcons; exact H|].
      destruct (ch_eqb c sep); [inversion H; reflexivity|].
      eapply Hcons; exact H.
Qed.

(** A chopped column and what is left of the line make up the line. *)
Lemma chop_split qp l col line' :
  chop_next_column qp (Some l) None = (Some (col, line'), None) ->
  match line' with
  | Some rest => exists c, l = col ++ c :: rest
  | None => l = col
  end.
Proof.
  unfold chop_next_column, find_next_column_end. intros H.
  assert (Hgen : forall r : cstring * cstring,
            fst r ++ snd r = l ->
            match snd r with
            | [] => (Some (fst r, @None cstring), @None error)
            | _ :: line0 => (Some (fst r, Some line0), None)
            end = (Some (col, line'), None) ->
            match line' with
            | Some rest => exists c, l = col ++ c :: rest
            | None => l = col
            end).
  { intros [a b] Hab Hr. cbn [fst snd] in *. destruct b as [|c b].
    - inversion Hr; subst. rewrite app_nil_r. reflexivity.
    - inversion Hr; subst. exists c. reflexivity. }
  destruct qp as [sep|sep quote].
  - apply (Hgen (find_end_plain sep l)); [apply find_end_plain_split|].
    destruct (find_end_plain sep l) as [a b]. exact H.
  - destruct (find_end_quoted sep quote Outer l) as [[a b]|] eqn:E;
      [|discriminate H].
    apply (Hgen (a, b)); [apply (find_end_quoted_split _ _ _ _ _ _ E)|exact H].
Qed.

Lemma chop_shortens qp l col rest :
  chop_next_column qp (Some l) None = (Some (col, Some rest), None) ->
  (length rest < length l)%nat.
Proof.
  intros H. destruct (chop_split _ _ _ _ H) as [c ->].
  rewrite length_app. cbn [length]. lia.
Qed.

(** The scan of an unquoted cell stops at the separator after it, or at
    the end of the line. *)
Lemma find_end_plain_cell sep cell tail :
  ~ In sep cell -> (tail = [] \/ hd NUL tail = sep) ->
  find_end_plain sep (cell ++ tail) = (cell, tail).
Proof.
  intros Hnot Htail. induction cell as [|c cell IH]; cbn [app].
  - destruct tail as [|t tail]; [reflexivity|].
    destruct Htail as [|Ht]; [discriminate|]. cbn in Ht. subst t.
    cbn [find_end_plain]. rewrite ch_eqb_refl. reflexivity.
  - cbn [find_end_plain].
    destruct (ch_eqb c sep) eqn:E.
    + apply ch_eqb_eq in E. subst c. elim Hnot. left. reflexivity.
    + rewrite IH; [reflexivity|]. intros Hin. apply Hnot. right. exact Hin.
Qed.

Lemma find_end_quoted_cell sep quote cell tail :
  ~ In sep cell -> ~ In quote cell -> (tail = [] \/ hd NUL tail = sep) ->
  find_end_quoted sep quote Outer (cell ++ tail) = Some (cell, tail).
Proof.
  intros Hs Hq Htail. induction cell as [|c cell IH]; cbn [app].
  - destruct tail as [|t tail]; [reflexivity|].
    destruct Htail as [|Ht]; [discriminate|]. cbn in Ht. subst t.
    cbn [find_end_quoted]. rewrite ch_eqb_refl. reflexivity.
  - cbn [find_end_quoted].
    destruct (ch_eqb c sep) eqn:E.
    { apply ch_eqb_eq in E. subst c. elim Hs. left. reflexivity. }
    destruct (ch_eqb c quote) eqn:E'.
    { apply ch_eqb_eq in E'. subst c. elim Hq. left. reflexivity. }
    cbn [negb]. rewrite IH; [reflexivity| |].
    + intros Hin. apply Hs. right. exact Hin.
    + intros Hin. apply Hq. right. exact Hin.
Qed.

Lemma cell_text_no_sep qp cell : cell_text qp cell -> ~ In (separator qp) cell.
Proof.
  intros H Hin. unfold cell_text in H. rewrite Forall_forall in H.
  destruct (H _ Hin) as (_ & Hsep & _). apply Hsep. reflexivity.
Qed.

Lemma cell_text_no_quote sep quote cell :
  cell_text (double_quote_escape sep quote) cell -> ~ In quote cell.
Proof.
  intros H Hin. unfold cell_text in H. rewrite Forall_forall in H.
  destruct (H _ Hin) as (_ & _ & Hq). cbn [is_quote] in Hq.
  rewrite ch_eqb_refl in Hq. discriminate.
Qed.

Lemma cell_text_plain qp cell : cell_text qp cell -> plain_text cell.
Proof.
  unfold cell_text, plain_text. intros H.
  eapply Forall_impl; [|exact H]. cbn. intros c Hc. apply Hc.
Qed.

Lemma find_cell qp cell tail :
  cell_text qp cell -> (tail = [] \/ hd NUL tail = separator qp) ->
  find_next_column_end qp (cell ++ tail) = (Some (cell, tail), None).
Proof.
  intros Hc Ht. pose proof (cell_text_no_sep _ _ Hc) as Hs.
  destruct qp as [sep|sep quote]; cbn [find_next_column_end separator] in *.
  - rewrite find_end_plain_cell by assumption. reflexivity.
  - rewrite find_end_quoted_cell;
      [reflexivity|assumption|eapply cell_text_no_quote; eassumption|assumption].
Qed.

Lemma chop_cell qp cell more :
  cell_text qp cell ->
  chop_next_column qp (Some (cell ++ separator qp :: more)) None
  = (Some (cell, Some more), None).
Proof.
  intros Hc. unfold chop_next_column.
  rewrite find_cell; [reflexivity|assumption|right; reflexivity].
Qed.

Lemma chop_last_cell qp cell :
  cell_text qp cell ->
  chop_next_column qp (Some cell) None = (Some (cell, None), None).
Proof.
  intros Hc. unfold chop_next_column.
  rewrite <- (app_nil_r cell) at 1.
  rewrite find_cell; [reflexivity|assumption|left; reflexivity].
Qed.

(** A line of unquoted cells tokenizes into these cells. *)
Lemma join_tokenizes qp cells :
  cells <> [] -> Forall (cell_text qp) cells ->
  tokenizes qp (join (separator qp) cells) cells.
Proof.
  unfold tokenizes. induction cells as [|c cells IH]; intros Hne Hall;
    [contradiction|].
  inversion Hall as [|? ? Hc Hcs]; subst. cbn [join].
  destruct cells as [|c' cells].
  - eapply chops_cons; [apply chop_last_cell, Hc|apply chops_nil].
  - eapply chops_cons; [apply chop_cell, Hc|].
    apply IH; [discriminate|exact Hcs].
Qed.

(** Trimming a padded cell gives its core, which unescaping leaves as
    it is. *)
Lemma trim_begin_pad tp pre s :
  Forall (fun c => is_trim_char c tp = true) pre ->
  trim_begin tp (pre ++ s) = trim_begin tp s.
Proof.
  induction 1 as [|c pre Hc _ IH]; [reflexivity|].
  cbn [app trim_begin]. rewrite Hc. exact IH.
Qed.

Lemma trim_begin_stop tp s :
  s <> [] -> is_trim_char (hd NUL s) tp = false -> trim_begin tp s = s.
Proof.
  destruct s as [|c s]; [contradiction|]. cbn [hd trim_begin].
  intros _ ->. reflexivity.
Qed.

Lemma trim_padded tp core raw : padded tp core raw -> trim tp raw = core.
Proof.
  intros (pre & post & -> & Hpre & Hpost & Hcore). unfold trim, trim_end.
  rewrite trim_begin_pad by assumption.
  assert (Hrev : Forall (fun c => is_trim_char c tp = true) (rev post))
    by (apply Forall_rev; assumption).
  destruct Hcore as [->|[Hhd Hlast]].
  - cbn [app]. rewrite <- (app_nil_r post) at 1.
    rewrite trim_begin_pad by assumption. cbn [trim_begin rev].
    reflexivity.
  - destruct core as [|c core]; [cbn [app]|].
    { rewrite <- (app_nil_r post) at 1.
      rewrite trim_begin_pad by assumption. reflexivity. }
    rewrite (trim_begin_stop tp ((c :: core) ++ post));
      [|cbn [app]; discriminate|exact Hhd].
    rewrite rev_app_distr, trim_begin_pad by assumption.
    rewrite (app_removelast_last NUL (l := c :: core)) at 1 by discriminate.
    rewrite rev_app_distr. cbn [rev app].
    cbn [trim_begin]. rewrite Hlast.
    change (last (c :: core) NUL :: rev (removelast (c :: core)))
      with (rev [last (c :: core) NUL] ++ rev (removelast (c :: core))).
    rewrite <- rev_app_distr, rev_involutive.
    symmetry. apply app_removelast_last. discriminate.
Qed.

Lemma unescape_cell qp core : cell_text qp core -> unescape qp core = core.
Proof.
  intros H. destruct qp as [sep|sep quote]; [reflexivity|].
  cbn [unescape]. destruct core as [|c core]; [reflexivity|].
  inversion H as [|? ? (_ & _ & Hq) _]; subst. cbn [is_quote] in Hq.
  cbn [hd]. rewrite Hq, andb_false_r. reflexivity.
Qed.

Lemma padded_cell_text tp qp core raw :
  padded tp core raw -> cell_text qp raw -> cell_text qp core.
Proof.
  intros (pre & post & -> & _) H. unfold cell_text in *.
  apply Forall_app in H. destruct H as [_ H].
  apply Forall_app in H. apply H.
Qed.

Lemma normalize_cell tp qp core raw :
  padded tp core raw -> cell_text qp raw -> normalize tp qp raw = core.
Proof.
  intros Hp Hc. unfold normalize. rewrite (trim_padded _ _ _ Hp).
  apply unescape_cell. eapply padded_cell_text; eassumption.
Qed.

(** Stores into an array. *)
Lemma length_store {A} (l : list A) : forall i x, length (store l i x) = length l.
Proof.
  induction l as [|y l IH]; intros [|i] x; cbn [store length]; auto.
Qed.

Lemma nth_store_same {A} (l : list A) : forall i x d,
  (i < length l)%nat -> nth i (store l i x) d = x.
Proof.
  induction l as [|y l IH]; intros [|i] x d H; cbn [store nth length] in *;
    try lia; auto. apply IH. lia.
Qed.

Lemma nth_store_other {A} (l : list A) : forall i j x d,
  i <> j -> nth j (store l i x) d = nth j l d.
Proof.
  induction l as [|y l IH]; intros [|i] [|j] x d H; cbn [store nth];
    try reflexivity; try contradiction. apply IH. lia.
Qed.

(** The number of raw columns decides between the two column-count
    errors. *)
Lemma parse_line_loop_few tp qp : forall col_order line cols row,
  chops qp line cols None -> (length cols < length col_order)%nat ->
  exists row',
    parse_line_loop tp qp col_order line row
    = (false, row', Some (make_shared too_few_columns)).
Proof.
  induction col_order as [|i col_order IH]; intros line cols row Hch Hlen;
    [cbn in Hlen; lia|].
  inversion Hch as [|l col line' cols' line'' Hchop Hrest]; subst.
  - exists row. reflexivity.
  - cbn [parse_line_loop]. rewrite Hchop.
    apply (IH line' cols'); [exact Hrest|cbn [length] in Hlen; lia].
Qed.

Lemma parse_line_loop_many tp qp : forall col_order line cols row,
  chops qp line cols None -> (length col_order < length cols)%nat ->
  exists row',
    parse_line_loop tp qp col_order line row
    = (false, row', Some (make_shared too_many_columns)).
Proof.
  induction col_order as [|i col_order IH]; intros line cols row Hch Hlen.
  - inversion Hch; subst; [cbn in Hlen; lia|]. exists row. reflexivity.
  - inversion Hch as [|l col line' cols' line'' Hchop Hrest]; subst;
      [cbn in Hlen; lia|].
    cbn [parse_line_loop]. rewrite Hchop.
    apply (IH line' cols'); [exact Hrest|cbn [length] in Hlen; lia].
Qed.

(** With as many raw columns as the table has entries, every column is
    stored at the place the table gives; [raws] are the raw columns in
    the order of the array. *)
Lemma parse_line_loop_ordered tp qp (raws : list cstring) :
  forall order line row,
    chops qp line (map (fun i => nth i raws []) order) None ->
    (forall i, In i order -> (i < length row)%nat) ->
    exists row',
      parse_line_loop tp qp (map Z.of_nat order) line row = (true, row', None)
      /\ length row' = length row
      /\ (forall i, In i order ->
                    nth i row' None = Some (normalize tp qp (nth i raws [])))
      /\ (forall i, ~ In i order -> nth i row' None = nth i row None).
Proof.
  induction order as [|i order IH]; intros line row Hch Hin.
  - inversion Hch; subst. exists row. cbn. repeat split; tauto.
  - cbn [map] in Hch.
    inversion Hch as [|l col line' cols' line'' Hchop Hrest]; subst.
    cbn [map parse_line_loop]. rewrite Hchop.
    destruct (Z.eqb_spec (Z.of_nat i) (-1)); [lia|].
    unfold store_col. destruct (Z.ltb_spec (Z.of_nat i) 0); [lia|].
    rewrite Nat2Z.id.
    set (row1 := store row i (Some (unescape qp (trim tp (nth i raws []))))).
    destruct (IH line' row1 Hrest) as (row' & Hrun & Hlen & Hset & Hkeep).
    { intros k Hk. subst row1. rewrite length_store. apply Hin. right. exact Hk. }
    exists row'. split; [exact Hrun|].
    split; [rewrite Hlen; apply length_store|]. split.
    + intros k [->|Hk].
      * destruct (in_dec Nat.eq_dec k order) as [Hk|Hk]; [apply Hset, Hk|].
        rewrite Hkeep by assumption. subst row1.
        apply nth_store_same. apply Hin. left. reflexivity.
      * apply Hset, Hk.
    + intros k Hk. rewrite Hkeep by (intros H'; apply Hk; right; exact H').
      subst row1. apply nth_store_other. intros ->. apply Hk. left. reflexivity.
Qed.

End ColumnFacts.

(** ** Resolving the header *)

Module HeaderFacts.
Import Tokenizer Header ColumnFacts.

Lemma cstring_eqb_eq a b : cstring_eqb a b = true <-> a = b.
Proof.
  unfold cstring_eqb. destruct (list_eq_dec ascii_dec a b); split; auto.
  discriminate.
Qed.

Lemma find_name_some p names : forall k i,
  find_name p names k = Some i ->
  exists j, i = (k + j)%nat /\ (j < length names)%nat /\ nth j names [] = p.
Proof.
  induction names as [|n names IH]; intros k i H; [discriminate|].
  cbn [find_name] in H. destruct (cstring_eqb p n) eqn:E.
  - inversion H; subst. apply cstring_eqb_eq in E. subst.
    exists O. cbn. repeat split; lia.
  - destruct (IH _ _ H) as (j & -> & Hj & Hn).
    exists (S j). cbn [length nth]. repeat split; [lia|lia|exact Hn].
Qed.

Lemma find_name_none p names : forall k,
  find_name p names k = None -> ~ In p names.
Proof.
  induction names as [|n names IH]; intros k H; [tauto|].
  cbn [find_name] in H. destruct (cstring_eqb p n) eqn:E; [discriminate|].
  intros [->|Hin].
  - assert (cstring_eqb p p = true) by (apply cstring_eqb_eq; reflexivity).
    congruence.
  - exact (IH _ H Hin).
Qed.

Lemma find_name_nth names : forall k j,
  NoDup names -> (j < length names)%nat ->
  find_name (nth j names []) names k = Some (k + j)%nat.
Proof.
  induction names as [|n names IH]; intros k j Hnd Hj; [cbn in Hj; lia|].
  inversion Hnd as [|? ? Hnot Hnd']; subst. cbn [find_name].
  destruct j as [|j]; cbn [nth].
  - assert (E : cstring_eqb n n = true) by (apply cstring_eqb_eq; reflexivity).
    rewrite E. f_equal. lia.
  - destruct (cstring_eqb (nth j names []) n) eqn:E.
    + apply cstring_eqb_eq in E. elim Hnot. rewrite <- E. apply nth_In.
      cbn in Hj. lia.
    + rewrite IH by (assumption || (cbn in Hj; lia)). f_equal. lia.
Qed.

Lemma find_name_inj names p q i :
  find_name p names 0 = Some i -> find_name q names 0 = Some i -> p = q.
Proof.
  intros Hp Hq.
  destruct (find_name_some _ _ _ _ Hp) as (j & -> & _ & <-).
  destruct (find_name_some _ _ _ _ Hq) as (j' & E & _ & <-).
  replace j' with j by lia. reflexivity.
Qed.

(** The rounds of the header loop over columns that raise no error:
    every column is a declared name seen for the first time, or an extra
    column that is ignored. *)
Lemma header_loop_prefix tp qp names ignore : forall line raws line1,
  chops qp line raws line1 ->
  forall found col_order fuel,
    NoDup (filter (is_declared names) (map (normalize tp qp) raws)) ->
    (forall p, In p (map (normalize tp qp) raws) ->
               is_declared names p = true
               \/ Z.land ignore ignore_extra_column <> 0) ->
    (forall p i, In p (map (normalize tp qp) raws) ->
                 find_name p names 0 = Some i -> nth i found false = false) ->
    header_loop (length raws + fuel) tp qp names ignore line found col_order
    = header_loop fuel tp qp names ignore line1
        (fold_left (mark names) (map (normalize tp qp) raws) found)
        (col_order ++ map (column_index names) (map (normalize tp qp) raws)).
Proof.
  induction 1 as [line|l col line' cols line'' Hchop Hrest IH];
    intros found col_order fuel Hnd Hdecl Hfresh.
  - cbn. rewrite app_nil_r. reflexivity.
  - cbn [length Nat.add header_loop map fold_left]. rewrite Hchop.
    fold (normalize tp qp col). cbn [map filter] in Hnd.
    set (p := normalize tp qp col) in *.
    assert (Hmark : mark names found p
                    = match find_name p names 0 with
                      | Some i => store found i true
                      | None => found
                      end) by reflexivity.
    assert (Hidx : column_index names p
                   = match find_name p names 0 with
                     | Some i => Z.of_nat i
                     | None => -1
                     end) by reflexivity.
    assert (Hdec : is_declared names p
                   = match find_name p names 0 with
                     | Some _ => true
                     | None => false
                     end) by reflexivity.
    rewrite Hmark, Hidx. rewrite Hdec in Hnd. clear Hmark Hidx Hdec.
    destruct (find_name p names 0) as [i|] eqn:Ef.
    + rewrite (Hfresh p i) by (auto; left; reflexivity).
      inversion Hnd as [|? ? Hnotin Hnd']; subst.
      rewrite IH.
      * rewrite <- app_assoc. reflexivity.
      * exact Hnd'.
      * intros q Hq. apply Hdecl. right. exact Hq.
      * intros q k Hq Hk.
        destruct (Nat.eq_dec k i) as [->|Hne].
        -- elim Hnotin. rewrite (find_name_inj _ _ _ _ Ef Hk).
           apply filter_In. split; [exact Hq|].
           unfold is_declared. rewrite Hk. reflexivity.
        -- rewrite nth_store_other by auto.
           apply (Hfresh q k); [right; exact Hq|exact Hk].
    + destruct (Hdecl p (or_introl eq_refl)) as [Hd|Hi].
      { unfold is_declared in Hd. rewrite Ef in Hd. discriminate. }
      destruct (Z.eqb_spec (Z.land ignore ignore_extra_column) 0) as [E|_];
        [contradiction|]. cbn [negb].
      rewrite IH.
      * rewrite <- app_assoc. reflexivity.
      * exact Hnd.
      * intros q Hq. apply Hdecl. right. exact Hq.
      * intros q k Hq Hk. apply (Hfresh q k); [right; exact Hq|exact Hk].
Qed.

(** The flags after these columns. *)
Lemma marked_keeps names pre : forall found i,
  nth i found false = true ->
  nth i (fold_left (mark names) pre found) false = true.
Proof.
  induction pre as [|p pre IH]; intros found i H; [exact H|].
  cbn [fold_left]. apply IH. unfold mark.
  destruct (find_name p names 0) as [k|]; [|exact H].
  destruct (Nat.eq_dec k i) as [->|Hne].
  - apply nth_store_same.
    destruct (Nat.lt_ge_cases i (length found)); [assumption|].
    rewrite nth_overflow in H by lia. discriminate.
  - rewrite nth_store_other by assumption. exact H.
Qed.

Lemma length_marked names pre : forall found,
  length (fold_left (mark names) pre found) = length found.
Proof.
  induction pre as [|p pre IH]; intros found; [reflexivity|].
  cbn [fold_left]. rewrite IH. unfold mark.
  destruct (find_name p names 0); [apply length_store|reflexivity].
Qed.

Lemma marked_sets names pre : forall found p i,
  In p pre -> find_name p names 0 = Some i -> (i < length found)%nat ->
  nth i (fold_left (mark names) pre found) false = true.
Proof.
  induction pre as [|q pre IH]; intros found p i Hin Hf Hi; [contradiction|].
  cbn [fold_left]. destruct Hin as [->|Hin].
  - apply marked_keeps. unfold mark. rewrite Hf.
    apply nth_store_same. exact Hi.
  - apply (IH _ p); [exact Hin|exact Hf|].
    unfold mark. destruct (find_name q names 0); [rewrite length_store|];
      exact Hi.
Qed.

(** Every round takes bytes off the line, so the rounds the model grants
    are enough. *)
Lemma chops_rounds qp : forall line raws line1,
  chops qp line raws line1 ->
  (length raws + match line1 with Some l1 => S (length l1) | None => O end
   <= match line with Some l => S (length l) | None => O end)%nat.
Proof.
  induction 1 as [line|l col line' cols line'' Hchop Hrest IH].
  - cbn. lia.
  - cbn [length]. destruct line' as [rest|].
    + pose proof (chop_shortens _ _ _ _ Hchop). lia.
    + inversion Hrest; subst. cbn. lia.
Qed.

Lemma first_missing_none names : forall found,
  length found = length names ->
  (forall i, (i < length names)%nat -> nth i found false = true) ->
  first_missing found names = None.
Proof.
  induction names as [|n names IH]; intros [|f found] Hlen Hall;
    try reflexivity; try discriminate.
  cbn [first_missing]. pose proof (Hall O ltac:(cbn; lia)) as H0.
  cbn [nth] in H0. subst f.
  apply IH; [cbn in Hlen; lia|].
  intros i Hi. apply (Hall (S i)). cbn. lia.
Qed.


(** A header column that repeats a declared name seen before, after
    columns that raise no error, ends the resolution with
    [duplicated_column_in_header] for that column. *)
Lemma header_duplicate tp qp names ignore l raws l1 raw line2 col_order0 i :
  chops qp (Some l) raws (Some l1) ->
  chop_next_column qp (Some l1) None = (Some (raw, line2), None) ->
  NoDup (filter (is_declared names) (map (normalize tp qp) raws)) ->
  (forall p, In p (map (normalize tp qp) raws) ->
             is_declared names p = true
             \/ Z.land ignore ignore_extra_column <> 0) ->
  In (normalize tp qp raw) (map (normalize tp qp) raws) ->
  find_name (normalize tp qp raw) names 0 = Some i ->
  parse_header_line tp qp (Some l) col_order0 names ignore None
  = (false, map (column_index names) (map (normalize tp qp) raws),
     Some (set_column_name (make_shared duplicated_column_in_header)
                           (normalize tp qp raw))).
Proof.
  intros Hch Hchop Hnd Hdecl Hin Hf. unfold parse_header_line.
  pose proof (chops_rounds _ _ _ _ Hch) as Hrounds.
  cbv beta iota in Hrounds. unfold cstring in Hrounds.
  set (fuel := S (S (length l))).
  assert (Hfuel : fuel = (length raws + (fuel - length raws))%nat)
    by (unfold fuel, cstring in *; lia).
  rewrite Hfuel.
  rewrite (header_loop_prefix tp qp names ignore _ _ _ Hch); try assumption.
  - destruct (fuel - length raws)%nat as [|fuel'] eqn:Ef; [unfold fuel, cstring in *; lia|].
    cbn [header_loop app]. rewrite Hchop.
    fold (normalize tp qp raw). rewrite Hf.
    rewrite (marked_sets names _ _ (normalize tp qp raw) i); auto.
    rewrite repeat_length.
    destruct (find_name_some _ _ _ _ Hf) as (j & -> & Hj & _). exact Hj.
  - intros p k _ _. apply nth_repeat.
Qed.

(** The rounds granted are enough for every line: the loop ends with
    the flags or with an error. *)
Lemma chop_result qp l r e :
  chop_next_column qp (Some l) None = (r, e) ->
  (r = None /\ e <> None) \/ (exists col line', r = Some (col, line') /\ e = None).
Proof.
  unfold chop_next_column, find_next_column_end. intros H.
  destruct qp as [sep|sep quote].
  - destruct (find_end_plain sep l) as [col [|c rest]]; inversion H; subst;
      right; eauto.
  - destruct (find_end_quoted sep quote Outer l) as [[col [|c rest]]|];
      inversion H; subst; [right; eauto|right; eauto|left].
    split; [reflexivity|discriminate].
Qed.

Lemma header_loop_total tp qp names ignore : forall fuel line found col_order,
  (match line with Some l => S (length l) | None => O end < fuel)%nat ->
  forall col_order', 
    header_loop fuel tp qp names ignore line found col_order
    <> (None, col_order', None).
Proof.
  induction fuel as [|fuel IH]; intros line found col_order Hf col_order';
    [lia|].
  cbn [header_loop]. destruct line as [l|]; [|discriminate].
  destruct (chop_next_column qp (Some l) None) as [r e] eqn:Hchop.
  destruct (chop_result _ _ _ _ Hchop) as [[-> He]|(col & line' & -> & ->)].
  - intros H. inversion H; subst. apply He. reflexivity.
  - assert (Hm : (match line' with Some l' => S (length l') | None => O end
                  < fuel)%nat).
    { destruct line' as [l'|]; [|lia].
      pose proof (chop_shortens _ _ _ _ Hchop). lia. }
    destruct (find_name (unescape qp (trim tp col)) names 0) as [i|].
    + destruct (nth i found false); [discriminate|]. apply IH, Hm.
    + destruct (negb (Z.land ignore ignore_extra_column =? 0));
        [apply IH, Hm|discriminate].
Qed.

End HeaderFacts.

(** ** The value of a cell *)

Module ValueFacts.
Import FieldParser FieldParserFacts CSV.

Lemma numeric_min_signed t : is_signed t = true -> numeric_min t <= -128.
Proof. destruct t; try discriminate; intros _; vm_compute; discriminate. Qed.

Lemma digits_value_some ds v :
  digits_value ds = Some v -> ds <> [] /\ all_digits ds /\ v = decimal ds.
Proof.
  unfold digits_value. destruct ds as [|c ds]; [discriminate|].
  destruct (forallb is_digit (c :: ds)) eqn:E; [|discriminate].
  intros H. inversion H; subst. split; [discriminate|]. split; [|reflexivity].
  apply Forall_forall. rewrite forallb_forall in E. exact E.
Qed.

Lemma check_range_some t z v :
  check_range t z = Some v ->
  z = Some v /\ numeric_min t <= v <= numeric_max t.
Proof.
  unfold check_range, in_range. destruct z as [w|]; [|discriminate].
  destruct (Z.leb_spec (numeric_min t) w) as [H1|H1]; cbn [andb];
    [|discriminate].
  destruct (Z.leb_spec w (numeric_max t)) as [H2|H2]; [|discriminate].
  intros E. inversion E; subst. split; [reflexivity|lia].
Qed.

(** Digits after a minus sign that stay in range are read as the
    negative number they denote. *)
Lemma negative_loop_in_range p t ds : forall x,
  is_signed t = true -> all_digits ds -> x <= 0 ->
  numeric_min t <= - decimal_from (- x) ds ->
  negative_loop p t ds x = (true, - decimal_from (- x) ds, None).
Proof.
  induction ds as [|c ds IH]; intros x Hs Hd Hx Hge.
  - cbn. f_equal. f_equal. lia.
  - rewrite decimal_from_cons in *. cbn [negative_loop].
    inversion Hd as [|? ? Hc Hds]; subst. rewrite Hc.
    pose proof (digit_val_range _ Hc) as Hy.
    pose proof (numeric_max_ge t) as Hm.
    pose proof (numeric_min_signed t Hs) as Hn.
    pose proof (decimal_from_ge ds (10 * - x + digit_val c) Hds ltac:(lia)).
    rewrite underflow_test_exact by lia.
    destruct (Z.ltb_spec (10 * x - digit_val c) (numeric_min t)); [lia|].
    rewrite wrap_in_range by lia.
    replace (10 * - x + digit_val c) with (- (10 * x - digit_val c)) in * by lia.
    apply IH; [assumption|assumption|lia|assumption].
Qed.

Lemma parse_unsigned_digits p t ds x :
  ds <> [] -> all_digits ds -> decimal ds <= numeric_max t ->
  parse_unsigned_integer p t ds x None = (true, decimal ds, None).
Proof.
  intros Hne Hd Hle. destruct ds as [|c ds]; [contradiction|].
  unfold parse_unsigned_integer.
  inversion Hd as [|? ? Hc Hds]; subst. rewrite (digit_not_minus _ Hc).
  apply unsigned_loop_in_range; [assumption|lia|assumption].
Qed.

(** A cell that denotes an integer of the target type is parsed to that
    integer, under both overflow policies. *)
Lemma parse_integer_value p t core z x :
  integer_value t core = Some z ->
  (if is_signed t then parse_signed_integer p t core x None
   else parse_unsigned_integer p t core x None) = (true, z, None).
Proof.
  unfold integer_value. destruct core as [|c ds]; [discriminate|].
  destruct (is_signed t) eqn:Hs; cbn [andb].
  - unfold parse_signed_integer.
    destruct (ch_eqb c MINUS) eqn:Em.
    + intros H. apply check_range_some in H. destruct H as [Hv Hr].
      destruct (digits_value ds) as [v|] eqn:Ed; [|discriminate].
      cbn [option_map] in Hv. inversion Hv; subst.
      apply digits_value_some in Ed. destruct Ed as (Hne & Hd & ->).
      rewrite negative_loop_in_range;
        [reflexivity|assumption|assumption|lia|].
      change (- 0) with 0. unfold decimal in Hr. lia.
    + destruct (ch_eqb c PLUS) eqn:Ep.
      * intros H. apply check_range_some in H. destruct H as [Hv Hr].
        apply digits_value_some in Hv. destruct Hv as (Hne & Hd & ->).
        apply parse_unsigned_digits; auto. lia.
      * intros H. apply check_range_some in H. destruct H as [Hv Hr].
        apply digits_value_some in Hv. destruct Hv as (Hne & Hd & ->).
        apply parse_unsigned_digits; auto. lia.
  - intros H. apply check_range_some in H. destruct H as [Hv Hr].
    apply digits_value_some in Hv. destruct Hv as (Hne & Hd & ->).
    apply parse_unsigned_digits; auto. lia.
Qed.

Lemma integer_value_range t core z :
  integer_value t core = Some z -> numeric_min t <= z <= numeric_max t.
Proof.
  unfold integer_value. destruct core as [|c ds]; [discriminate|].
  destruct (is_signed t && ch_eqb c MINUS);
    [|destruct (is_signed t && ch_eqb c PLUS)];
    intros H; apply check_range_some in H; apply H.
Qed.

Lemma size_nat_bound : forall p n,
  Z.pos p < 2 ^ Z.of_nat n -> (Pos.size_nat p <= n)%nat.
Proof.
  induction p as [p IH|p IH|]; intros n H; (destruct n as [|n];
    [change (2 ^ Z.of_nat 0) with 1 in H; lia|]); cbn [Pos.size_nat];
    try (apply le_n_S, IH); try lia;
    rewrite Nat2Z.inj_succ, Z.pow_succ_r in H by lia; lia.
Qed.

Section Floats.
Context {T : Type} {ops : FloatOps T}.

(** More rounds do not change the result of a loop that has ended. *)
Lemma exponent_loop_more : forall fuel fuel' e (base x : T) r,
  exponent_loop fuel e base x = Some r -> (fuel <= fuel')%nat ->
  exponent_loop fuel' e base x = Some r.
Proof.
  induction fuel as [|fuel IH]; intros fuel' e base x r H Hle;
    [discriminate|].
  destruct fuel' as [|fuel']; [lia|]. cbn [exponent_loop] in *.
  destruct (e =? 1); [exact H|].
  destruct (Z.land e 1 =? 0); apply (IH fuel'); try assumption; lia.
Qed.

(** The loop on a positive exponent: two rounds for a binary digit, and
    at the exit [x] and [base] give the power. *)
Lemma exponent_loop_power : forall p fuel (base x : T),
  Z.pos p < 2 ^ 31 -> (2 * Pos.size_nat p <= fuel)%nat ->
  exists x' base',
    exponent_loop fuel (Z.pos p) base x = Some (x', base')
    /\ f_mul x' base' = float_power p base x.
Proof.
  change (2 ^ 31) with 2147483648.
  induction p as [p IH|p IH|]; intros fuel base x Hp Hfuel;
    cbn [Pos.size_nat] in Hfuel.
  - destruct fuel as [|[|fuel]]; try lia. cbn [exponent_loop].
    change (Z.pos p~1 =? 1) with false.
    change (Z.land (Z.pos p~1) 1 =? 0) with false. cbv iota.
    replace (wrap SInt (Z.pos p~1 - 1)) with (Z.pos p~0).
    + change (Z.pos p~0 =? 1) with false.
      change (Z.land (Z.pos p~0) 1 =? 0) with true. cbv iota.
      change (Z.shiftr (Z.pos p~0) 1) with (Z.pos p).
      apply IH; lia.
    + symmetry. replace (Z.pos p~1 - 1) with (Z.pos p~0) by lia.
      apply wrap_in_range. cbv [numeric_min numeric_max is_signed bits].
      change (2 ^ (32 - 1)) with 2147483648. lia.
  - destruct fuel as [|fuel]; try lia. cbn [exponent_loop].
    change (Z.pos p~0 =? 1) with false.
    change (Z.land (Z.pos p~0) 1 =? 0) with true. cbv iota.
    change (Z.shiftr (Z.pos p~0) 1) with (Z.pos p).
    apply IH; lia.
  - destruct fuel as [|fuel]; try lia. exists x, base. split; reflexivity.
Qed.

(** For an exponent of magnitude below 2^31 the loop ends, and [x] is
    scaled by the power of ten. *)
Lemma apply_exponent_scale e (x : T) :
  - 2 ^ 31 < e < 2 ^ 31 -> apply_exponent e x = Some (float_scale e x).
Proof.
  change (2 ^ 31) with 2147483648. intros He. unfold apply_exponent.
  destruct e as [|p|p]; [reflexivity| |];
    (assert (Hsize : (2 * Pos.size_nat p <= 64)%nat);
     [assert (Pos.size_nat p <= 31)%nat; [|lia];
      apply size_nat_bound; change (2 ^ Z.of_nat 31) with 2147483648; lia
     |]).
  - change (Z.pos p =? 0) with false. change (Z.pos p <? 0) with false.
    cbv iota.
    destruct (exponent_loop_power p 64 (f_of_int 10) x ltac:(lia) Hsize)
      as (x' & base' & Hloop & Hv).
    rewrite Hloop, Hv. reflexivity.
  - change (Z.neg p =? 0) with false. change (Z.neg p <? 0) with true.
    cbv iota. change (- Z.neg p) with (Z.pos p).
    rewrite wrap_in_range
      by (cbv [numeric_min numeric_max is_signed bits];
          change (2 ^ (32 - 1)) with 2147483648; lia).
    destruct (exponent_loop_power p 64 f_tenth x ltac:(lia) Hsize)
      as (x' & base' & Hloop & Hv).
    rewrite Hloop, Hv. reflexivity.
Qed.

(** The loops over the digits before and after the separator stop at the
    first byte that is no digit. *)
Lemma float_int_part_digits rest :
  match rest with [] => True | c :: _ => is_digit c = false end ->
  forall ds (x : T),
    all_digits ds ->
    float_int_part (ds ++ rest) x
    = (fold_left (fun a c => f_add (f_mul a (f_of_int 10))
                                   (f_of_int (digit_val c))) ds x, rest).
Proof.
  intros Hrest. induction ds as [|c ds IH]; intros x Hd.
  - cbn [app fold_left]. destruct rest as [|c rest]; [reflexivity|].
    cbn [float_int_part]. rewrite Hrest. reflexivity.
  - inversion Hd as [|? ? Hc Hds]; subst.
    cbn [app float_int_part fold_left]. rewrite Hc. apply (IH _ Hds).
Qed.

Lemma float_frac_part_digits rest :
  match rest with [] => True | c :: _ => is_digit c = false end ->
  forall ds (pos x : T),
    all_digits ds ->
    float_frac_part (ds ++ rest) pos x = (float_fraction ds pos x, rest).
Proof.
  intros Hrest. induction ds as [|c ds IH]; intros pos x Hd.
  - cbn [app float_fraction]. destruct rest as [|c rest]; [reflexivity|].
    cbn [float_frac_part]. rewrite Hrest. reflexivity.
  - inversion Hd as [|? ? Hc Hds]; subst.
    cbn [app float_frac_part float_fraction]. rewrite Hc. apply (IH _ _ Hds).
Qed.

(** [parse_float] up to the exponent: after the sign, the digits and
    the digits after a separator it stands at the first byte [tail] that
    belongs to neither. *)
Lemma parse_float_parts core (x : T) neg body ip fr tail :
  float_sign core = (neg, body) ->
  body = ip ++ match fr with Some (c, fp) => c :: fp | None => [] end ++ tail ->
  all_digits ip ->
  match fr with
  | Some (c, fp) => is_decimal_separator c = true /\ all_digits fp
  | None => True
  end ->
  match tail with
  | [] => True
  | c :: _ => is_digit c = false
              /\ (fr = None -> is_decimal_separator c = false)
  end ->
  parse_float core x None
  = let m := float_fraction match fr with Some (_, fp) => fp | None => [] end
                            (f_of_int 1) (float_digits ip) in
    match tail with
    | [] => Some (true, if neg then f_neg m else m, None)
    | c :: s =>
        if is_exponent_char c
        then match parse_signed_integer set_to_max_on_overflow SInt s 0 None
             with
             | (false, _, err') => Some (false, m, err')
             | (true, e, _) =>
                 option_map (fun y => (true, if neg then f_neg y else y, None))
                            (apply_exponent e m)
             end
        else Some (false, m, Some (make_shared no_digit))
    end.
Proof.
  intros Hsign Hbody Hip Hfr Htail. unfold parse_float.
  match goal with
  | |- (let (_, _) := ?s in _) = _ => change s with (float_sign core)
  end.
  rewrite Hsign, Hbody.
  assert (Htd : match tail with [] => True | c :: _ => is_digit c = false end)
    by (destruct tail; [exact I|apply Htail]).
  destruct fr as [[c fp]|].
  - destruct Hfr as [Hc Hfp].
    rewrite (float_int_part_digits (c :: fp ++ tail)); [|clear - Hc|exact Hip].
    + fold (@float_digits T ops ip). unfold is_decimal_separator in Hc.
      rewrite Hc. rewrite (float_frac_part_digits tail Htd fp _ _ Hfp).
      destruct tail as [|c' s]; reflexivity.
    + unfold is_decimal_separator in Hc.
      destruct (orb_prop _ _ Hc) as [E|E]; apply ch_eqb_eq in E; subst c;
        reflexivity.
  - cbn [app]. rewrite (float_int_part_digits tail Htd ip _ Hip).
    fold (@float_digits T ops ip).
    destruct tail as [|c' s]; [reflexivity|].
    destruct Htail as [_ Hsep]. specialize (Hsep eq_refl).
    unfold is_decimal_separator in Hsep. rewrite Hsep. reflexivity.
Qed.

Lemma break_at_app p : forall s a r,
  break_at p s = (a, r) ->
  s = a ++ match r with Some (c, s') => c :: s' | None => [] end
  /\ match r with Some (c, _) => p c = true | None => True end.
Proof.
  induction s as [|c s IH]; intros a r H; cbn [break_at] in H.
  - inversion H; subst. split; [reflexivity|exact I].
  - destruct (p c) eqn:E.
    + inversion H; subst. split; [reflexivity|exact E].
    + destruct (break_at p s) as [a' r'] eqn:E'. inversion H; subst.
      destruct (IH a' r eq_refl) as [-> Hr]. split; [reflexivity|exact Hr].
Qed.

(** The parts of a cell that denotes a number. *)
Lemma float_parts_text core neg ip fp e :
  float_parts core = Some (neg, ip, fp, e) ->
  exists body fr tail,
    float_sign core = (neg, body)
    /\ body = ip ++ match fr with Some (c, fp) => c :: fp | None => [] end
                 ++ tail
    /\ fp = match fr with Some (_, fp) => fp | None => [] end
    /\ all_digits ip
    /\ match fr with
       | Some (c, fp) => is_decimal_separator c = true /\ all_digits fp
       | None => True
       end
    /\ match tail with
       | [] => e = 0
       | c :: s => is_exponent_char c = true /\ exponent_value s = Some e
       end.
Proof.
  unfold float_parts. destruct (float_sign core) as [neg' body].
  destruct (break_at is_exponent_char body) as [mantissa ex] eqn:Eex.
  destruct (break_at is_decimal_separator mantissa) as [ip' fr] eqn:Efr.
  cbv zeta.
  match goal with
  | |- context [forallb is_digit ip' && forallb is_digit ?l] =>
      set (fp' := l)
  end.
  destruct (forallb is_digit ip') eqn:Eip;
    [|intros H; cbn [andb] in H; discriminate H].
  destruct (forallb is_digit fp') eqn:Efp;
    [|intros H; cbn [andb] in H; discriminate H].
  cbn [andb].
  destruct (negb (Nat.eqb (length (ip' ++ fp')) 0));
    [|intros H; discriminate H].
  apply break_at_app in Eex. destruct Eex as [-> Hex].
  apply break_at_app in Efr. destruct Efr as [-> Hfr].
  rewrite forallb_forall in Eip, Efp.
  intros H.
  exists (ip' ++ match fr with Some (c, fp) => c :: fp | None => [] end
          ++ match ex with Some (c, s) => c :: s | None => [] end), fr,
         match ex with Some (c, s) => c :: s | None => [] end.
  assert (Hparts : neg' = neg /\ ip' = ip /\ fp' = fp
                   /\ match ex with
                      | Some (_, s) => exponent_value s = Some e
                      | None => e = 0
                      end).
  { destruct ex as [[c s]|].
    - destruct (exponent_value s) as [e'|]; [|discriminate].
      cbn [option_map] in H. inversion H; subst. auto.
    - inversion H; subst. auto. }
  destruct Hparts as (-> & -> & Hfp & He).
  split; [rewrite <- app_assoc; reflexivity|].
  split; [reflexivity|]. split; [symmetry; exact Hfp|].
  split; [apply Forall_forall; exact Eip|].
  split.
  - destruct fr as [[c fp'']|]; [|exact I].
    split; [exact Hfr|apply Forall_forall; exact Efp].
  - destruct ex as [[c s]|]; [|exact He]. split; [exact Hex|exact He].
Qed.

(** A cell that denotes a number is parsed to that number, whatever the
    variable held. *)
Lemma parse_float_value core (v x : T) :
  float_value core = Some v -> parse_float core x None = Some (true, v, None).
Proof.
  unfold float_value.
  destruct (float_parts core) as [[[[neg ip] fp] e]|] eqn:E; [|discriminate].
  cbn [option_map]. intros H. inversion H; subst. clear H.
  apply float_parts_text in E.
  destruct E as (body & fr & tail & Hsign & Hbody & -> & Hip & Hfr & Htail).
  rewrite (parse_float_parts core x neg body ip fr tail Hsign Hbody Hip Hfr).
  - cbv zeta. unfold float_number. destruct tail as [|c s].
    + subst e. reflexivity.
    + destruct Htail as [Hc He]. rewrite Hc.
      unfold exponent_value in He.
      destruct (integer_value SInt s) as [e'|] eqn:Ei; [|discriminate].
      destruct (Z.eqb_spec e' (numeric_min SInt)) as [|Hne]; [discriminate|].
      inversion He; subst e'.
      pose proof (integer_value_range _ _ _ Ei) as Hr.
      pose proof (parse_integer_value set_to_max_on_overflow SInt s e 0 Ei)
        as Hparse.
      cbn [is_signed] in Hparse. rewrite Hparse.
      rewrite apply_exponent_scale; [reflexivity|].
      revert Hr Hne. cbv [numeric_min numeric_max is_signed bits].
      change (2 ^ (32 - 1)) with 2147483648.
      change (2 ^ 31) with 2147483648. lia.
  - destruct tail as [|c s]; [exact I|]. destruct Htail as [Hc _].
    unfold is_exponent_char in Hc.
    destruct (orb_prop _ _ Hc) as [E|E]; apply ch_eqb_eq in E; subst c;
      split; reflexivity.
Qed.

End Floats.

Section WithFloat.
Variable F : float_type -> Type.
Context {fops : forall k, FloatOps (F k)}.

Lemma parse_cell_value op (x v : var F) core :
  cell_value x core = Some v -> parse op core x None = Some (true, v, None).
Proof.
  destruct x as [c|s|q|q|t z|k f]; cbn [cell_value parse].
  - destruct core as [|c' [|? ?]]; try discriminate.
    intros H. inversion H; subst. reflexivity.
  - intros H. inversion H; subst. reflexivity.
  - intros H. inversion H; subst. reflexivity.
  - intros H. inversion H; subst. reflexivity.
  - destruct (integer_value t core) as [z'|] eqn:E; [|discriminate].
    intros H. inversion H; subst.
    rewrite (parse_integer_value op t core z' z E). reflexivity.
  - destruct (float_value core) as [v'|] eqn:E; [|discriminate].
    intros H. inversion H; subst.
    rewrite (parse_float_value core v' f E). reflexivity.
Qed.

(** The value of a cell depends on the type of the variable only. *)
Lemma cell_value_retype (x v : var F) core :
  cell_value x core = Some v ->
  forall core', cell_value v core' = cell_value x core'.
Proof.
  destruct x as [c|s|q|q|t z|k f]; cbn [cell_value].
  - destruct core as [|c' [|? ?]]; try discriminate.
    intros H. inversion H; subst. reflexivity.
  - intros H. inversion H; subst. reflexivity.
  - intros H. inversion H; subst. reflexivity.
  - intros H. inversion H; subst. reflexivity.
  - destruct (integer_value t core) as [z'|]; [|discriminate].
    intros H. inversion H; subst. reflexivity.
  - destruct (float_value core) as [v'|]; [|discriminate].
    intros H. inversion H; subst. reflexivity.
Qed.

End WithFloat.

End ValueFacts.

(** ** Reading rows *)

Module CSVFacts.
Import Tokenizer Header FieldParser Reader CSV.
Import ReaderFacts LinesFacts ColumnFacts HeaderFacts FieldParserFacts ValueFacts.

#[local] Opaque block_len.

Lemma plain_text_join qp cells :
  plain_text [separator qp] -> Forall (cell_text qp) cells ->
  plain_text (join (separator qp) cells).
Proof.
  intros Hsep. induction 1 as [|c cells Hc _ IH]; [constructor|].
  cbn [join]. destruct cells as [|c' cells]; [apply (cell_text_plain _ _ Hc)|].
  unfold plain_text in *. apply Forall_app. split.
  - apply (cell_text_plain _ _ Hc).
  - constructor; [inversion Hsep; assumption|exact IH].
Qed.

(** The first line of a text file. *)
Lemma next_line_of_file lr l ls eol final_eol :
  plain_text l -> Z.of_nat (length l) + 2 <= block_len -> line_break eol ->
  (final_eol = false -> last (l :: ls) [] <> []) ->
  pending lr (file_of_lines eol final_eol (l :: ls)) ->
  exists lr',
    next_line lr None = (Some l, lr', None)
    /\ pending lr' (file_of_lines eol final_eol ls)
    /\ file_line lr' = incr_file_line (file_line lr)
    /\ file_name lr' = file_name lr.
Proof.
  intros Hpl Hlen Heol Hlast Hp. cbn [file_of_lines] in Hp.
  destruct ls as [|l' ls].
  - destruct final_eol.
    + apply (next_line_text lr l eol []); try assumption.
      rewrite app_nil_r. exact Hp.
    + rewrite app_nil_r in Hp.
      apply next_line_text_last; try assumption. apply Hlast. reflexivity.
  - apply (next_line_text lr l eol); assumption.
Qed.

Lemma last_cons_default {A} (l : list A) a d : last (a :: l) d = last l a.
Proof.
  revert a d. induction l as [|b l IH]; intros a d; [reflexivity|].
  change (last (a :: b :: l) d) with (last (b :: l) d).
  rewrite (IH b d), (IH b a). reflexivity.
Qed.

Lemma last_app_nonempty {A} (a b : list A) d :
  b <> [] -> last (a ++ b) d = last b d.
Proof.
  intros Hb. induction a as [|x a IH]; [reflexivity|].
  cbn [app]. destruct (a ++ b) eqn:E.
  - destruct a; [cbn in E; contradiction|discriminate].
  - rewrite <- IH. reflexivity.
Qed.

(** A file without final line break does not end in an empty line;
    neither does what is left of it after its first lines. *)
Lemma ends_well_app (final_eol : bool) (a b : list cstring) :
  (final_eol = false -> a ++ b <> [] -> last (a ++ b) [] <> []) ->
  final_eol = false -> b <> [] -> last b [] <> [].
Proof.
  intros H Hf Hb. rewrite <- (last_app_nonempty a b) by assumption.
  apply H; [exact Hf|]. destruct a; [exact Hb|discriminate].
Qed.

Lemma ends_well_first (final_eol : bool) l (ls : list cstring) :
  (final_eol = false -> l :: ls <> [] -> last (l :: ls) [] <> []) ->
  final_eol = false -> last (l :: ls) [] <> [].
Proof. intros H Hf. apply H; [exact Hf|discriminate]. Qed.

Section WithPolicies.
Variable strerror : Z -> cstring.
Variable F : float_type -> Type.
Context {fops : forall k, FloatOps (F k)}.
Variable tp : trim_policy.
Variable qp : quote_policy.
Variable op : overflow_policy.
Variable cp : comment_policy.

Let Reader : Type := CSVReader NonOwningStringByteSource.
Let Lines : Type := LineReader NonOwningStringByteSource.

(** The loop of [read_row] passes the comment lines and stops at the
    first line that is not one. *)
Lemma fetch_row_line_skips eol final_eol : forall comments fuel (lr : Lines)
                                                  line rest,
  Forall (comment_line cp) comments ->
  plain_text line -> is_comment cp line = false ->
  Forall (fun l => Z.of_nat (length l) + 2 <= block_len)
         (comments ++ line :: rest) ->
  line_break eol ->
  (final_eol = false -> comments ++ line :: rest <> [] ->
   last (comments ++ line :: rest) [] <> []) ->
  pending lr (file_of_lines eol final_eol (comments ++ line :: rest)) ->
  (length comments < fuel)%nat ->
  exists lr',
    fetch_row_line strerror cp fuel lr = Some (Line line, lr')
    /\ pending lr' (file_of_lines eol final_eol rest).
Proof.
  induction comments as [|c comments IH];
    intros fuel lr line rest Hcom Hpl Hnc Hlen Heol Hlast Hp Hfuel;
    (destruct fuel as [|fuel]; [cbn in Hfuel; lia|]); cbn [app] in *.
  - destruct (next_line_of_file lr line rest eol final_eol)
      as (lr' & Hnext & Hp' & _); try assumption.
    { apply (Forall_inv Hlen). }
    { apply ends_well_first. exact Hlast. }
    exists lr'. split; [|exact Hp'].
    cbn [fetch_row_line]. rewrite Hnext, Hnc. reflexivity.
  - destruct (Forall_inv Hcom) as [Hc Hcpl].
    destruct (next_line_of_file lr c (comments ++ line :: rest) eol final_eol)
      as (lr1 & Hnext & Hp1 & _); try assumption.
    { apply (Forall_inv Hlen). }
    { apply ends_well_first. exact Hlast. }
    destruct (IH fuel lr1 line rest) as (lr' & Hfetch & Hp'); try assumption.
    { apply (Forall_inv_tail Hcom). }
    { apply (Forall_inv_tail Hlen). }
    { apply (ends_well_app final_eol [c]). exact Hlast. }
    { cbn in Hfuel. lia. }
    exists lr'. split; [|exact Hp'].
    cbn [fetch_row_line]. rewrite Hnext, Hc. exact Hfetch.
Qed.


(** After the last row the loop of [read_row] passes the comment lines
    that are left and ends without a line and without an error. *)
Lemma fetch_row_line_end eol final_eol : forall comments fuel (lr : Lines),
  Forall (comment_line cp) comments ->
  Forall (fun l => Z.of_nat (length l) + 2 <= block_len) comments ->
  line_break eol ->
  (final_eol = false -> comments <> [] -> last comments [] <> []) ->
  pending lr (file_of_lines eol final_eol comments) ->
  (length comments < fuel)%nat ->
  exists lr',
    fetch_row_line strerror cp fuel lr = Some (Stop None, lr')
    /\ pending lr' [].
Proof.
  induction comments as [|c comments IH];
    intros fuel lr Hcom Hlen Heol Hlast Hp Hfuel;
    (destruct fuel as [|fuel]; [cbn in Hfuel; lia|]).
  - exists lr. split; [|exact Hp]. cbn [fetch_row_line].
    rewrite (next_line_at_end lr Hp). reflexivity.
  - destruct (Forall_inv Hcom) as [Hc Hcpl].
    destruct (next_line_of_file lr c comments eol final_eol)
      as (lr1 & Hnext & Hp1 & _); try assumption.
    { apply (Forall_inv Hlen). }
    { apply ends_well_first. exact Hlast. }
    destruct (IH fuel lr1) as (lr' & Hfetch & Hp'); try assumption.
    { apply (Forall_inv_tail Hcom). }
    { apply (Forall_inv_tail Hlen). }
    { apply (ends_well_app final_eol [c]). exact Hlast. }
    { cbn in Hfuel. lia. }
    exists lr'. split; [|exact Hp'].
    cbn [fetch_row_line]. rewrite Hnext, Hc. exact Hfetch.
Qed.

(** The variables of a row whose cells are in the [row] array. *)
Lemma parse_helper_values (rd : Reader) : forall (cells : list (cell F)) vars k,
  length vars = length cells ->
  (forall j, (j < length cells)%nat ->
     nth (k + j) (row rd) None = Some (cell_core (nth j cells (no_cell F)))
     /\ cell_value (nth j vars (XString []))
                   (cell_core (nth j cells (no_cell F)))
        = Some (cell_var (nth j cells (no_cell F)))) ->
  parse_helper strerror op rd k None vars
  = Some (true, map (@cell_var F) cells, None).
Proof.
  induction cells as [|c cells IH]; intros vars k Hlen Hcells.
  - destruct vars; [reflexivity|discriminate].
  - destruct vars as [|x vars]; [discriminate|].
    cbn [parse_helper map].
    destruct (Hcells O ltac:(cbn; lia)) as [Hrow Hval].
    rewrite Nat.add_0_r in Hrow. cbn [nth] in Hrow, Hval. rewrite Hrow.
    rewrite (parse_cell_value F op _ _ _ Hval).
    rewrite (IH vars (S k)).
    + reflexivity.
    + cbn in Hlen. lia.
    + intros j Hj. destruct (Hcells (S j) ltac:(cbn; lia)) as [H1 H2].
      cbn [nth] in H1, H2. rewrite <- plus_n_Sm in H1. split; assumption.
Qed.

(** A row line that the loop of [read_row] stops at is tokenized, stored
    by the column-order table and parsed into the variables. *)
Lemma read_row_delivers (r : Reader) line lr' order (cells : list (cell F))
      vars fuel :
  fetch_row_line strerror cp fuel (in_ r) = Some (Line line, lr') ->
  line = line_of qp order (map (@cell_raw F) cells) ->
  col_order r = map Z.of_nat order ->
  length (row r) = length cells ->
  order <> [] ->
  (forall i, In i order -> (i < length cells)%nat) ->
  (forall i, (i < length cells)%nat -> In i order) ->
  length vars = length cells ->
  (forall i, (i < length cells)%nat ->
     cell_text qp (cell_raw (nth i cells (no_cell F)))
     /\ padded tp (cell_core (nth i cells (no_cell F)))
               (cell_raw (nth i cells (no_cell F)))
     /\ cell_value (nth i vars (XString []))
                   (cell_core (nth i cells (no_cell F)))
        = Some (cell_var (nth i cells (no_cell F)))) ->
  exists row',
    read_row strerror tp qp op cp fuel r None vars
    = Some (true, mk_csv lr' row' (column_names r) (col_order r),
            map (@cell_var F) cells, None)
    /\ length row' = length cells.
Proof.
  intros Hfetch Hline Hco Hrow Hne Hrange Hcover Hvars Hcells.
  set (raws := map (@cell_raw F) cells).
  assert (Hraw : forall i, nth i raws [] = cell_raw (nth i cells (no_cell F))).
  { intros i. subst raws. apply (map_nth (@cell_raw F) cells (no_cell F) i). }
  assert (Htok : tokenizes qp line (map (fun i => nth i raws []) order)).
  { rewrite Hline. unfold line_of. apply join_tokenizes.
    - destruct order; [contradiction|discriminate].
    - apply Forall_forall. intros raw Hin. apply in_map_iff in Hin.
      destruct Hin as (i & <- & Hi). rewrite Hraw.
      apply Hcells, Hrange, Hi. }
  destruct (parse_line_loop_ordered tp qp raws order (Some line) (row r) Htok)
    as (row' & Hparse & Hlen & Hset & _).
  { intros i Hi. rewrite Hrow. apply Hrange, Hi. }
  exists row'. split; [|rewrite Hlen; exact Hrow].
  unfold read_row. rewrite Hfetch.
  unfold parse_line. rewrite Hco, Hparse.
  rewrite (parse_helper_values _ cells).
  - rewrite <- Hco. reflexivity.
  - exact Hvars.
  - intros j Hj. cbn [row Nat.add].
    destruct (Hcells j Hj) as (Hc & Hp & Hv). split; [|exact Hv].
    rewrite (Hset j (Hcover j Hj)). f_equal. rewrite Hraw.
    apply normalize_cell; assumption.
Qed.

(** At the end of the file [read_row] fails and leaves the variables and
    the error slot as they are, on every call. *)
Lemma read_rows_at_end eol final_eol vars fuel : forall m comments (r : Reader),
  Forall (comment_line cp) comments ->
  Forall (fun l => Z.of_nat (length l) + 2 <= block_len) comments ->
  line_break eol ->
  (final_eol = false -> comments <> [] -> last comments [] <> []) ->
  pending (in_ r) (file_of_lines eol final_eol comments) ->
  (length comments < fuel)%nat ->
  read_rows strerror tp qp op cp fuel m r None vars
  = Some (repeat (false, vars, None) m).
Proof.
  induction m as [|m IH]; intros comments r Hcom Hlen Heol Hlast Hp Hfuel;
    [reflexivity|].
  destruct (fetch_row_line_end eol final_eol comments fuel (in_ r))
    as (lr' & Hfetch & Hp'); try assumption.
  cbn [read_rows repeat]. unfold read_row. rewrite Hfetch.
  rewrite (IH [] (with_in r lr')).
  - reflexivity.
  - constructor.
  - constructor.
  - exact Heol.
  - intros _ H. contradiction.
  - exact Hp'.
  - cbn. lia.
Qed.

Lemma row_ok_next n vars row row' :
  row_ok tp qp n vars row -> row_ok tp qp n vars row' ->
  row_ok tp qp n (map (@cell_var F) row) row'.
Proof.
  intros [Hlen Hrow] [Hlen' Hrow']. split; [exact Hlen'|].
  intros i Hi. destruct (Hrow' i Hi) as (Hc & Hp & Hv).
  destruct (Hrow i Hi) as (_ & _ & Hv0).
  repeat split; try assumption.
  rewrite <- Hv.
  change (XString []) with (cell_var (no_cell F)). rewrite map_nth.
  apply (cell_value_retype F _ _ _ Hv0).
Qed.

Lemma row_line_plain n vars order row :
  plain_text [separator qp] -> row_ok tp qp n vars row ->
  (forall i, In i order -> (i < n)%nat) ->
  plain_text (line_of qp order (map (@cell_raw F) row)).
Proof.
  intros Hsep [Hlen Hrow] Hrange. unfold line_of.
  apply plain_text_join; [exact Hsep|].
  apply Forall_forall. intros raw Hin. apply in_map_iff in Hin.
  destruct Hin as (i & <- & Hi).
  change (@nil ascii) with (cell_raw (no_cell F)). rewrite map_nth.
  apply Hrow, Hrange, Hi.
Qed.

(** Successive [read_row] calls deliver the rows that are pending, in
    their order, passing the comment lines between them, and fail from
    then on with an empty error slot. *)
Lemma read_rows_deliver n order eol final_eol fuel m trailing :
  forall (groups : list (group F)) (r : Reader) vars,
    plain_text [separator qp] -> line_break eol ->
    order <> [] ->
    (forall i, In i order -> (i < n)%nat) ->
    (forall i, (i < n)%nat -> In i order) ->
    Forall (fun g => row_ok tp qp n vars (snd g)
                     /\ is_comment cp (row_line qp order (snd g)) = false
                     /\ Forall (comment_line cp) (fst g)) groups ->
    Forall (comment_line cp) trailing ->
    Forall (fun l => Z.of_nat (length l) + 2 <= block_len)
           (flat_map (fun g => fst g ++ [row_line qp order (snd g)]) groups
            ++ trailing) ->
    (final_eol = false ->
     flat_map (fun g => fst g ++ [row_line qp order (snd g)]) groups
     ++ trailing <> [] ->
     last (flat_map (fun g => fst g ++ [row_line qp order (snd g)]) groups
           ++ trailing) [] <> []) ->
    length vars = n ->
    col_order r = map Z.of_nat order ->
    length (row r) = n ->
    pending (in_ r)
            (file_of_lines eol final_eol
               (flat_map (fun g => fst g ++ [row_line qp order (snd g)]) groups
                ++ trailing)) ->
    (length (flat_map (fun g => fst g ++ [row_line qp order (snd g)]) groups
             ++ trailing) < fuel)%nat ->
    read_rows strerror tp qp op cp fuel (length groups + m) r None vars
    = Some (map (fun g => (true, map (@cell_var F) (snd g), None)) groups
            ++ repeat (false,
                       last (map (fun g => map (@cell_var F) (snd g)) groups)
                            vars,
                       None) m).
Proof.
  induction groups as [|g groups IH];
    intros r vars Hsep Heol Hne Hrange Hcover Hgroups Htrail Hlen Hlast Hvars
           Hco Hrow Hp Hfuel.
  - cbn [length Nat.add map app last flat_map] in *.
    apply (read_rows_at_end eol final_eol vars fuel m trailing); assumption.
  - destruct (Forall_inv Hgroups) as (Hok & Hnc & Hcom).
    pose proof (Forall_inv_tail Hgroups) as Hgroups'.
    cbn [flat_map] in Hlen, Hlast, Hp, Hfuel.
    set (rest := flat_map (fun g => fst g ++ [row_line qp order (snd g)])
                          groups ++ trailing) in *.
    set (line := row_line qp order (snd g)) in *.
    assert (E : ((fst g ++ [line])
                 ++ flat_map (fun g => fst g ++ [row_line qp order (snd g)])
                             groups) ++ trailing
                = fst g ++ line :: rest).
    { subst rest. rewrite <- !app_assoc. reflexivity. }
    assert (E' : fst g ++ line :: rest = (fst g ++ [line]) ++ rest).
    { rewrite <- app_assoc. reflexivity. }
    rewrite E in Hlen, Hlast, Hp, Hfuel.
    destruct (fetch_row_line_skips eol final_eol (fst g) fuel (in_ r) line rest)
      as (lr' & Hfetch & Hp'); try assumption.
    { apply (row_line_plain n vars); assumption. }
    { rewrite length_app in Hfuel. lia. }
    destruct Hok as [Hlenrow Hcells].
    destruct (read_row_delivers r line lr' order (snd g) vars fuel)
      as (row' & Hread & Hlen');
      rewrite ?Hlenrow; try assumption; try reflexivity.
    cbn [length Nat.add read_rows]. rewrite Hread.
    rewrite (IH (mk_csv lr' row' (column_names r) (col_order r))
                (map (@cell_var F) (snd g))); try assumption.
    + cbn [option_map map app]. rewrite last_cons_default. reflexivity.
    + apply Forall_forall. intros g2 Hin.
      rewrite Forall_forall in Hgroups'.
      destruct (Hgroups' g2 Hin) as (Hok2 & Hnc2 & Hcom2).
      split; [|split; assumption].
      apply (row_ok_next n vars (snd g)); [split; assumption|exact Hok2].
    + rewrite E' in Hlen. apply Forall_app in Hlen. apply Hlen.
    + rewrite E' in Hlast. intros Hf. apply (ends_well_app _ _ _ Hlast Hf).
    + rewrite length_map. exact Hlenrow.
    + cbn [CSV.row]. rewrite Hlen'. exact Hlenrow.
    + rewrite length_app in Hfuel. cbn [length] in Hfuel. lia.
Qed.



End WithPolicies.
End CSVFacts.

(** ** Errors of a row and of the header *)

Module ErrorFacts.
Import Tokenizer Header FieldParser Reader CSV.
Import ReaderFacts LinesFacts ColumnFacts HeaderFacts FieldParserFacts ValueFacts.

#[local] Opaque block_len.

Section WithSource.
Context {Src : Type} {src : ByteSourceBase Src}.

Lemma shift_file_line (lr : LineReader Src) : file_line (shift lr) = file_line lr.
Proof.
  unfold shift. destruct (is_valid (reader lr)); [|reflexivity].
  destruct (finish_read (reader lr) _) as [[m n] rd]. reflexivity.
Qed.

(** Every line that [next_line] returns adds one to the line counter. *)
Lemma next_line_counts (lr lr' : LineReader Src) line err :
  next_line lr None = (Some line, lr', err) ->
  file_line lr' = incr_file_line (file_line lr).
Proof.
  unfold next_line.
  destruct (data_begin lr =? data_end lr); [discriminate|].
  destruct (_ >=? _); [discriminate|].
  destruct (_ >? _); [discriminate|].
  match goal with
  | |- context [if ?c then shift ?a else ?b] =>
      assert (Hfl : file_line (if c then shift a else b)
                    = incr_file_line (file_line lr))
        by (destruct c; [rewrite shift_file_line|]; reflexivity);
      set (lr2 := if c then shift a else b) in *
  end.
  destruct (_ >? block_len); [discriminate|].
  intros H. inversion H; subst. exact Hfl.
Qed.

Lemma init_file_line file_name_ (s : Src) fresh :
  file_line (init file_name_ s fresh) = 0.
Proof. unfold init. destruct (read s _). reflexivity. Qed.

Lemma lines_from_count : forall k (lr lr' : LineReader Src) ls,
  lines_from k lr = Some (ls, lr') ->
  0 <= file_line lr -> file_line lr + Z.of_nat k < 2 ^ 32 ->
  file_line lr' = file_line lr + Z.of_nat k /\ length ls = k.
Proof.
  induction k as [|k IH]; intros lr lr' ls H Hlo Hhi.
  - cbn in H. inversion H; subst. split; [lia|reflexivity].
  - cbn [lines_from] in H.
    destruct (next_line lr None) as [[[line|] lr1] [e|]] eqn:Hn;
      try discriminate.
    destruct (lines_from k lr1) as [[ls1 lr2]|] eqn:Hk; [|discriminate].
    inversion H; subst.
    pose proof (next_line_counts _ _ _ _ Hn) as Hc.
    unfold incr_file_line in Hc. rewrite Z.mod_small in Hc by lia.
    destruct (IH _ _ _ Hk) as [H1 H2]; try lia.
    split; [lia|cbn; lia].
Qed.

Lemma lines_from_app : forall k j (lr lr1 lr2 : LineReader Src) ls1 ls2,
  lines_from k lr = Some (ls1, lr1) ->
  lines_from j lr1 = Some (ls2, lr2) ->
  lines_from (k + j) lr = Some (ls1 ++ ls2, lr2).
Proof.
  induction k as [|k IH]; intros j lr lr1 lr2 ls1 ls2 H1 H2.
  - cbn in H1. inversion H1; subst. exact H2.
  - cbn [lines_from Nat.add] in *.
    destruct (next_line lr None) as [[[line|] lr'] [e|]]; try discriminate.
    destruct (lines_from k lr') as [[ls lr'']|] eqn:Hk; [|discriminate].
    inversion H1; subst. rewrite (IH _ _ _ _ _ _ Hk H2). reflexivity.
Qed.

Section WithPolicies.
Variable strerror : Z -> cstring.
Variable F : float_type -> Type.
Context {fops : forall k, FloatOps (F k)}.
Variable tp : trim_policy.
Variable qp : quote_policy.
Variable op : overflow_policy.
Variable cp : comment_policy.

(** The line [read_row] tokenizes is the last of the lines it fetches:
    the comment lines before it are counted as well. *)
Lemma fetch_row_line_lines : forall fuel (lr lr' : LineReader Src) line,
  fetch_row_line strerror cp fuel lr = Some (Line line, lr') ->
  exists j ls,
    (1 <= j <= fuel)%nat /\ lines_from j lr = Some (ls ++ [line], lr').
Proof.
  induction fuel as [|fuel IH]; intros lr lr' line H; [discriminate|].
  cbn [fetch_row_line] in H.
  destruct (next_line lr None) as [[[l|] lr1] [e|]] eqn:Hn; try discriminate.
  destruct (is_comment cp l).
  - destruct (IH _ _ _ H) as (j & ls & Hj & Hls).
    exists (S j), (l :: ls). split; [lia|].
    cbn [lines_from]. rewrite Hn, Hls. reflexivity.
  - inversion H; subst. exists 1%nat, []. split; [lia|].
    cbn [lines_from]. rewrite Hn. reflexivity.
Qed.

Lemma report_fields (lr : LineReader Src) e :
  kind (report strerror lr e) = kind e
  /\ Error.file_line (report strerror lr e) = wrap SInt (file_line lr)
  /\ Error.file_name (report strerror lr e) = file_name lr
  /\ column_content (report strerror lr e) = column_content e
  /\ column_name (report strerror lr e) = column_name e.
Proof. repeat split. Qed.

(** C7. A data row that tokenizes into fewer raw columns than the
    column-order table has entries makes [read_row] fail with
    [too_few_columns], and one with more makes it fail with
    [too_many_columns]; the line number of the error is the 1-based
    number of that row among the lines of the file, lines before it
    (header and comment lines) included. *)
Theorem column_count_error_line file_name_ (s : Src) fresh k ls0
        (r : CSVReader Src) fuel line lr' columns (cols : list (var F)) :
  lines_from k (init file_name_ s fresh) = Some (ls0, in_ r) ->
  fetch_row_line strerror cp fuel (in_ r) = Some (Line line, lr') ->
  tokenizes qp line columns ->
  Z.of_nat (k + fuel) < 2 ^ 31 ->
  exists n ls,
    (k < n)%nat
    /\ lines_from n (init file_name_ s fresh) = Some (ls ++ [line], lr')
    /\ length (ls ++ [line]) = n
    /\ ((length columns < length (col_order r))%nat ->
        exists r' e,
          read_row strerror tp qp op cp fuel r None cols
          = Some (false, r', cols, Some e)
          /\ kind e = too_few_columns
          /\ Error.file_line e = Z.of_nat n)
    /\ ((length (col_order r) < length columns)%nat ->
        exists r' e,
          read_row strerror tp qp op cp fuel r None cols
          = Some (false, r', cols, Some e)
          /\ kind e = too_many_columns
          /\ Error.file_line e = Z.of_nat n).
Proof.
  intros Hk Hfetch Htok Hbound.
  destruct (fetch_row_line_lines _ _ _ _ Hfetch) as (j & ls & Hj & Hls).
  pose proof (lines_from_app _ _ _ _ _ _ _ Hk Hls) as Hn.
  destruct (lines_from_count _ _ _ _ Hn) as [Hline Hlen].
  { rewrite init_file_line. lia. }
  { rewrite init_file_line. change (2 ^ 32) with 4294967296.
    change (2 ^ 31) with 2147483648 in Hbound. lia. }
  rewrite init_file_line in Hline.
  assert (Hwrap : wrap SInt (file_line lr') = Z.of_nat (k + j)).
  { rewrite Hline. apply wrap_in_range.
    change (numeric_min SInt) with (-2147483648).
    change (numeric_max SInt) with 2147483647.
    change (2 ^ 31) with 2147483648 in Hbound. lia. }
  exists (k + j)%nat, (ls0 ++ ls). rewrite <- app_assoc.
  split; [lia|]. split; [exact Hn|]. split; [exact Hlen|].
  unfold tokenizes in Htok. split; intros Hcount.
  - destruct (parse_line_loop_few tp qp (col_order r) (Some line) columns
                (row r) Htok Hcount) as (row' & Hparse).
    unfold read_row. rewrite Hfetch. unfold parse_line. rewrite Hparse.
    eexists. eexists. split; [reflexivity|].
    cbn [option_map]. split; [reflexivity|exact Hwrap].
  - destruct (parse_line_loop_many tp qp (col_order r) (Some line) columns
                (row r) Htok Hcount) as (row' & Hparse).
    unfold read_row. rewrite Hfetch. unfold parse_line. rewrite Hparse.
    eexists. eexists. split; [reflexivity|].
    cbn [option_map]. split; [reflexivity|exact Hwrap].
Qed.

(** The variables that parse leave [parse_helper] at the next one. *)
Lemma parse_helper_app (rd : CSVReader Src) : forall cols1 k cols1' rest,
  parse_helper strerror op rd k None cols1 = Some (true, cols1', None) ->
  parse_helper strerror op rd k None (cols1 ++ rest)
  = option_map (fun '(b, rest', e) => (b, cols1' ++ rest', e))
               (parse_helper strerror op rd (k + length cols1) None rest).
Proof.
  induction cols1 as [|t cols1 IH]; intros k cols1' rest H.
  - cbn in H. inversion H; subst. cbn [app length]. rewrite Nat.add_0_r.
    destruct (parse_helper strerror op rd k None rest) as [[[b rest'] e]|];
      reflexivity.
  - cbn [parse_helper app length] in *.
    replace (k + S (length cols1))%nat with (S k + length cols1)%nat by lia.
    destruct (nth k (row rd) None) as [col|].
    + destruct (parse op col t None) as [[[[|] t'] err']|]; [| |discriminate].
      * destruct err' as [e|].
        { destruct cols1; cbn [parse_helper option_map] in H; discriminate. }
        destruct (parse_helper strerror op rd (S k) None cols1)
          as [[[b c1] e1]|] eqn:E; [|discriminate].
        cbn [option_map] in H. inversion H; subst. rewrite (IH _ _ rest E).
        destruct (parse_helper strerror op rd (S k + length cols1) None rest)
          as [[[b2 rest'] e2]|]; reflexivity.
      * discriminate.
    + destruct (parse_helper strerror op rd (S k) None cols1)
        as [[[b c1] e1]|] eqn:E; [|discriminate].
      cbn [option_map] in H. inversion H; subst. rewrite (IH _ _ rest E).
      destruct (parse_helper strerror op rd (S k + length cols1) None rest)
        as [[[b2 rest'] e2]|]; reflexivity.
Qed.

(** C4. A slice that begins with a minus sign is refused for an
    unsigned target with [integer_must_be_positive], before the target
    is written; [read_row] records the slice as the column content of
    the error, with the name of the column and the number of the line,
    and leaves the variable as it was. *)
Theorem minus_sign_for_unsigned (r : CSVReader Src) fuel line lr' row'
        cols1 cols1' t x s (cols2 : list (var F)) :
  is_signed t = false ->
  fetch_row_line strerror cp fuel (in_ r) = Some (Line line, lr') ->
  parse_line tp qp (Some line) (row r) (col_order r) None = (true, row', None) ->
  parse_helper strerror op (mk_csv lr' row' (column_names r) (col_order r))
               0 None cols1 = Some (true, cols1', None) ->
  nth (length cols1) row' None = Some (MINUS :: s) ->
  parse_unsigned_integer op t (MINUS :: s) x None
  = (false, x, Some (make_shared integer_must_be_positive))
  /\ exists e,
       read_row strerror tp qp op cp fuel r None (cols1 ++ XInt t x :: cols2)
       = Some (false, mk_csv lr' row' (column_names r) (col_order r),
               cols1' ++ XInt t x :: cols2, Some e)
       /\ kind e = integer_must_be_positive
       /\ column_content e = MINUS :: s
       /\ column_name e = c_str (nth (length cols1) (column_names r) [])
       /\ Error.file_line e = wrap SInt (file_line lr')
       /\ Error.file_name e = file_name lr'.
Proof.
  intros Hu Hfetch Hparse Hpre Hcol. split; [reflexivity|].
  unfold read_row. rewrite Hfetch, Hparse.
  rewrite (parse_helper_app _ _ _ _ _ Hpre).
  cbn [parse_helper Nat.add row column_names]. rewrite Hcol.
  cbn [parse]. rewrite Hu. rewrite minus_refused. cbn [option_map].
  eexists. split; [reflexivity|]. repeat split.
Qed.

Lemma find_name_in p names : In p names -> exists i, find_name p names 0 = Some i.
Proof.
  intros Hin. destruct (find_name p names 0) as [i|] eqn:E; [eauto|].
  elim (find_name_none _ _ _ E Hin).
Qed.

(** C8, as the code has it. When a header column repeats a declared
    name that an earlier column of the header has matched, and the
    columns before it raise no error of their own (each is a declared
    name seen for the first time, or an extra column that is ignored),
    [read_header] fails with [duplicated_column_in_header] naming that
    column; a [read_row] call that is passed the pending error fails at
    once, reads no line and uses no table. *)
Theorem duplicated_header_column (r : CSVReader Src) fuel fuel' ignore names
        line lr' raws l1 raw line2 :
  fetch_header_line strerror cp fuel (in_ r) = Some (Line line, lr') ->
  chops qp (Some line) raws (Some l1) ->
  chop_next_column qp (Some l1) None = (Some (raw, line2), None) ->
  NoDup (filter (is_declared names) (map (normalize tp qp) raws)) ->
  (forall p, In p (map (normalize tp qp) raws) ->
             is_declared names p = true
             \/ Z.land ignore ignore_extra_column <> 0) ->
  In (normalize tp qp raw) (map (normalize tp qp) raws) ->
  In (normalize tp qp raw) names ->
  exists r' e,
    read_header strerror tp qp cp fuel r ignore None names
    = Some (false, r', Some e)
    /\ kind e = duplicated_column_in_header
    /\ column_name e = normalize tp qp raw
    /\ Error.file_name e = file_name lr'
    /\ forall cols : list (var F),
         read_row strerror tp qp op cp fuel' r' (Some e) cols
         = Some (false, r', cols, Some e).
Proof.
  intros Hfetch Hch Hchop Hnd Hdecl Hin Hname.
  destruct (find_name_in _ _ Hname) as [i Hi].
  unfold read_header. rewrite Hfetch.
  rewrite (header_duplicate tp qp names ignore line raws l1 raw line2
             (col_order r) i Hch Hchop Hnd Hdecl Hin Hi).
  cbn [option_map]. eexists. eexists. split; [reflexivity|].
  repeat split.
Qed.

(** C2, as the code has it. With an error pending, the parsers of
    [char], of the integer types and of the floating-point types return
    failure and leave their output and the error as they are; the
    parsers of [std::string], [char*] and [const char*] do not look at
    the error slot: they store the slice, return success and leave the
    pending error in place. *)
Theorem parse_with_pending_error col (x : var F) e :
  parse op col x (Some e)
  = Some match x with
         | XString _ => (true, XString col, Some e)
         | XConstCharPtr _ => (true, XConstCharPtr (Some col), Some e)
         | XCharPtr _ => (true, XCharPtr (Some col), Some e)
         | XChar _ | XInt _ _ | XFloat _ _ => (false, x, Some e)
         end.
Proof.
  destruct x as [c|s0|q|q|t z|k f]; cbn [parse]; try reflexivity.
  destruct (is_signed t); reflexivity.
Qed.

End WithPolicies.
End WithSource.
End ErrorFacts.

(** ** Examples *)

Module ExampleFacts.
Import Tokenizer Header FieldParser Reader CSV.
Import ReaderFacts LinesFacts ColumnFacts HeaderFacts FieldParserFacts
       ValueFacts CSVFacts ErrorFacts.

(** The string parser called with a pending error stores the slice and
    reports success. *)
Lemma string_parser_ignores_pending_error :
  parse (F := no_float) set_to_max_on_overflow (lit "b") (XString (lit "a"))
        (Some (make_shared no_digit))
  = Some (true, XString (lit "b"), Some (make_shared no_digit))
  /\ @XString no_float (lit "b") <> XString (lit "a").
Proof. split; [reflexivity|discriminate]. Qed.

(** In the header [x,a,a] the declared name [a] matches two columns, but
    the column [x] before them is reported, as an extra column. *)
Lemma extra_column_before_duplicate :
  tokenizes ex_quote (lit "x,a,a") [lit "x"; lit "a"; lit "a"]
  /\ find_name (normalize ex_trim ex_quote (lit "a")) [lit "a"] 0 = Some 0%nat
  /\ match ex_read_header (ex_new 1 extra_dup_file) [lit "a"] with
     | Some (b, _, Some e) =>
         b = false /\ kind e = extra_column_in_header
         /\ column_name e = lit "x"
     | _ => False
     end.
Proof.
  split; [|split].
  - unfold tokenizes.
    eapply chops_cons; [reflexivity|].
    eapply chops_cons; [reflexivity|].
    eapply chops_cons; [reflexivity|]. apply chops_nil.
  - reflexivity.
  - vm_compute. repeat split.
Qed.

(** The table of a failed [read_header] call stays in the reader: after
    the header [b,b] it has the one entry of the first column, and a
    [read_row] call with an empty error slot reads the next line with
    it. *)
Lemma partial_table_is_kept :
  match ex_read_header (ex_new 2 bb_file) ex_ab with
  | Some (b, r, Some e) =>
      b = false /\ kind e = duplicated_column_in_header
      /\ col_order r = [1]
      /\ match ex_read_row r None [XInt SInt 0; XInt SInt 0] with
         | Some (b', _, cols, e') =>
             b' = true /\ cols = [XInt SInt 0; XInt SInt 5] /\ e' = None
         | None => False
         end
  | _ => False
  end.
Proof. vm_compute. repeat split. Qed.

Lemma column_count_error_line_witness :
  exists n ls,
    (2 < n)%nat
    /\ lines_from n (init ex_name (mk_string_source short_file) ex_fresh)
       = Some (ls ++ [lit "3"], after_fetch short_reader)
    /\ length (ls ++ [lit "3"]) = n
    /\ ((length [lit "3"] < length (col_order short_reader))%nat ->
        exists r' e,
          read_row ex_strerror ex_trim ex_quote set_to_max_on_overflow
                   no_comment 1 short_reader None
                   [@XInt no_float SInt 0; XInt SInt 0]
          = Some (false, r', [XInt SInt 0; XInt SInt 0], Some e)
          /\ kind e = too_few_columns
          /\ Error.file_line e = Z.of_nat n)
    /\ ((length (col_order short_reader) < length [lit "3"])%nat ->
        exists r' e,
          read_row ex_strerror ex_trim ex_quote set_to_max_on_overflow
                   no_comment 1 short_reader None
                   [@XInt no_float SInt 0; XInt SInt 0]
          = Some (false, r', [XInt SInt 0; XInt SInt 0], Some e)
          /\ kind e = too_many_columns
          /\ Error.file_line e = Z.of_nat n).
Proof.
  apply (column_count_error_line ex_strerror no_float ex_trim ex_quote
           set_to_max_on_overflow no_comment ex_name
           (mk_string_source short_file) ex_fresh 2
           [lit "a,b"; lit "1,2"] short_reader 1 (lit "3")
           (after_fetch short_reader) [lit "3"]).
  - vm_compute. reflexivity.
  - vm_compute. reflexivity.
  - eapply chops_cons; [reflexivity|apply chops_nil].
  - vm_compute. reflexivity.
Defined.

Lemma minus_sign_for_unsigned_witness :
  parse_unsigned_integer set_to_max_on_overflow ULong (MINUS :: lit "1") 9 None
  = (false, 9, Some (make_shared integer_must_be_positive))
  /\ exists e,
       read_row ex_strerror ex_trim ex_quote set_to_max_on_overflow no_comment
                1 minus_reader None
                ([@XInt no_float ULong 7] ++ XInt ULong 9 :: [])
       = Some (false,
               mk_csv (after_fetch minus_reader)
                      [Some (lit "1"); Some (MINUS :: lit "1")]
                      (column_names minus_reader) (col_order minus_reader),
               [XInt ULong 1] ++ XInt ULong 9 :: [], Some e)
       /\ kind e = integer_must_be_positive
       /\ column_content e = MINUS :: lit "1"
       /\ column_name e
          = c_str (nth (length [@XInt no_float ULong 7])
                       (column_names minus_reader) [])
       /\ Error.file_line e = wrap SInt (file_line (after_fetch minus_reader))
       /\ Error.file_name e = file_name (after_fetch minus_reader).
Proof.
  apply (minus_sign_for_unsigned ex_strerror no_float ex_trim ex_quote
           set_to_max_on_overflow no_comment minus_reader 1 (lit "1,-1")
           (after_fetch minus_reader)
           [Some (lit "1"); Some (MINUS :: lit "1")]
           [XInt ULong 7] [XInt ULong 1] ULong 9 (lit "1") []).
  - reflexivity.
  - vm_compute. reflexivity.
  - vm_compute. reflexivity.
  - vm_compute. reflexivity.
  - reflexivity.
Defined.

Lemma duplicated_header_column_witness :
  exists r' e,
    read_header ex_strerror ex_trim ex_quote no_comment 1 (ex_new 2 dup_file)
                ignore_no_column None ex_ab
    = Some (false, r', Some e)
    /\ kind e = duplicated_column_in_header
    /\ column_name e = normalize ex_trim ex_quote (lit "a")
    /\ Error.file_name e = file_name (after_fetch (ex_new 2 dup_file))
    /\ forall cols : list (var no_float),
         read_row ex_strerror ex_trim ex_quote set_to_max_on_overflow
                  no_comment 1 r' (Some e) cols
         = Some (false, r', cols, Some e).
Proof.
  apply (duplicated_header_column ex_strerror no_float ex_trim ex_quote
           set_to_max_on_overflow no_comment (ex_new 2 dup_file) 1 1
           ignore_no_column ex_ab (lit "a,b,a")
           (after_fetch (ex_new 2 dup_file)) [lit "a"; lit "b"] (lit "a")
           (lit "a") None).
  - vm_compute. reflexivity.
  - eapply chops_cons; [reflexivity|].
    eapply chops_cons; [reflexivity|]. apply chops_nil.
  - reflexivity.
  - vm_compute. repeat constructor; cbn; intuition discriminate.
  - intros p Hp. left. vm_compute in Hp.
    destruct Hp as [<-|[<-|[]]]; reflexivity.
  - vm_compute. auto.
  - vm_compute. auto.
Defined.

Ltac cell_text_tac :=
  unfold cell_text; repeat constructor; try discriminate.

Ltac padded_tac pre post :=
  exists pre, post; split; [reflexivity|];
  split; [repeat constructor|]; split; [repeat constructor|];
  right; split; reflexivity.



End ExampleFacts.

(** ** Integers at and beyond the limits of their type *)

Module NumberFacts.
Import FieldParser CSV.
Import FieldParserFacts ValueFacts.

Lemma decimal_from_app ds c : forall a,
  decimal_from a (ds ++ [c]) = 10 * decimal_from a ds + digit_val c.
Proof.
  induction ds as [|d ds IH]; intros a; [reflexivity|].
  cbn [app]. rewrite !decimal_from_cons. apply IH.
Qed.

(** The loop of [parse_unsigned_integer] stops at the first digit that
    would leave the range, with the policy applied to the number read so
    far; what follows that digit is not looked at. *)
Lemma unsigned_loop_stops p t pre c rest : forall x,
  all_digits pre -> is_digit c = true -> 0 <= x ->
  decimal_from x pre <= numeric_max t ->
  numeric_max t < 10 * decimal_from x pre + digit_val c ->
  unsigned_loop p t (pre ++ c :: rest) x
  = (true, on_overflow p t (decimal_from x pre), None).
Proof.
  induction pre as [|d pre IH]; intros x Hd Hc Hx Hle Hgt.
  - cbn [app unsigned_loop]. rewrite Hc.
    change (decimal_from x []) with x in *.
    pose proof (digit_val_range _ Hc). pose proof (numeric_max_ge t).
    rewrite overflow_test_exact by lia.
    destruct (Z.ltb_spec (numeric_max t) (10 * x + digit_val c)); [|lia].
    reflexivity.
  - rewrite decimal_from_cons in *. cbn [app unsigned_loop].
    inversion Hd as [|? ? Hd1 Hds]; subst. rewrite Hd1.
    pose proof (digit_val_range _ Hd1). pose proof (numeric_max_ge t).
    pose proof (numeric_min_le t).
    pose proof (@decimal_from_ge pre (10 * x + digit_val d) Hds ltac:(lia)).
    rewrite overflow_test_exact by lia.
    destruct (Z.ltb_spec (numeric_max t) (10 * x + digit_val d)); [lia|].
    rewrite wrap_in_range by lia. apply IH; [assumption|assumption|lia| |];
      assumption.
Qed.

(** So does the loop of the negative branch of [parse_signed_integer]. *)
Lemma negative_loop_stops p t pre c rest : forall x,
  is_signed t = true ->
  all_digits pre -> is_digit c = true -> x <= 0 ->
  numeric_min t <= - decimal_from (- x) pre ->
  - (10 * decimal_from (- x) pre + digit_val c) < numeric_min t ->
  negative_loop p t (pre ++ c :: rest) x
  = (true, on_underflow p t (- decimal_from (- x) pre), None).
Proof.
  intros x Hs. revert x.
  induction pre as [|d pre IH]; intros x Hd Hc Hx Hle Hgt.
  - cbn [app negative_loop]. rewrite Hc.
    change (decimal_from (- x) []) with (- x) in *.
    pose proof (digit_val_range _ Hc). pose proof (numeric_min_signed t Hs).
    rewrite underflow_test_exact by lia.
    destruct (Z.ltb_spec (10 * x - digit_val c) (numeric_min t)); [|lia].
    rewrite Z.opp_involutive. reflexivity.
  - rewrite decimal_from_cons in *. cbn [app negative_loop].
    inversion Hd as [|? ? Hd1 Hds]; subst. rewrite Hd1.
    pose proof (digit_val_range _ Hd1). pose proof (numeric_min_signed t Hs).
    pose proof (numeric_max_ge t).
    pose proof (@decimal_from_ge pre (10 * - x + digit_val d) Hds ltac:(lia)).
    rewrite underflow_test_exact by lia.
    destruct (Z.ltb_spec (10 * x - digit_val d) (numeric_min t)); [lia|].
    rewrite wrap_in_range by lia.
    replace (10 * - x + digit_val d) with (- (10 * x - digit_val d)) in * by lia.
    apply IH; [assumption|assumption|lia| |]; assumption.
Qed.

(** The digits of a number that leaves the range have a first digit at
    which it does. *)
Lemma first_digit_beyond m ds : forall x,
  all_digits ds -> 0 <= x <= m -> m < decimal_from x ds ->
  exists pre c rest,
    ds = pre ++ c :: rest /\ all_digits pre /\ is_digit c = true
    /\ decimal_from x pre <= m /\ m < 10 * decimal_from x pre + digit_val c.
Proof.
  induction ds as [|d ds IH]; intros x Hd Hx Hgt; [cbn in Hgt; lia|].
  rewrite decimal_from_cons in Hgt.
  inversion Hd as [|? ? Hd1 Hds]; subst.
  pose proof (digit_val_range _ Hd1).
  destruct (Z.ltb_spec m (10 * x + digit_val d)).
  - exists [], d, ds. repeat split; try assumption; try constructor; cbn; lia.
  - destruct (IH (10 * x + digit_val d) Hds ltac:(lia) Hgt)
      as (pre & c & rest & -> & Hpre & Hc & Hle & Hlt).
    exists (d :: pre), c, rest. rewrite !decimal_from_cons.
    repeat split; try assumption. constructor; assumption.
Qed.

(** X1. A signed target under [set_to_max_on_overflow]: digits after a
    minus sign whose value lies below the minimum of the type parse with
    success to that minimum, and the error slot stays empty; the bytes
    after the digits are arbitrary. *)
Theorem clamp_on_underflow t ds rest x :
  is_signed t = true -> all_digits ds -> - decimal ds < numeric_min t ->
  parse_signed_integer set_to_max_on_overflow t (MINUS :: ds ++ rest) x None
  = (true, numeric_min t, None).
Proof.
  intros Hs Hd Hlt.
  pose proof (numeric_min_signed t Hs) as Hmin.
  destruct (@first_digit_beyond (- numeric_min t) ds 0 Hd ltac:(lia)
              ltac:(unfold decimal in Hlt; lia))
    as (pre & c & rest' & -> & Hpre & Hc & Hle & Hgt).
  unfold parse_signed_integer. cbn [ch_eqb]. rewrite ch_eqb_refl.
  rewrite <- app_assoc. cbn [app].
  rewrite (@negative_loop_stops set_to_max_on_overflow t pre c (rest' ++ rest) 0);
    try assumption; try reflexivity; cbn [Z.opp]; lia.
Qed.

Lemma clamp_on_underflow_witness :
  parse_signed_integer set_to_max_on_overflow SChar (lit "-129x") 7 None
  = (true, -128, None).
Proof.
  apply (@clamp_on_underflow SChar (lit "129") (lit "x") 7).
  - reflexivity.
  - repeat constructor.
  - vm_compute. reflexivity.
Defined.

(** X2. Under [ignore_overflow] a number that leaves the range of its
    type is cut at the digit where it does: the parse succeeds with the
    number that the digits before that one denote, the error slot stays
    empty, and the digit and every byte after it are dropped.  The
    same holds on the negative side of a signed target. *)
Theorem ignore_overflow_cuts_number t pre c rest x :
  all_digits pre -> is_digit c = true ->
  (decimal pre <= numeric_max t ->
   numeric_max t < decimal (pre ++ [c]) ->
   parse_unsigned_integer ignore_overflow t (pre ++ c :: rest) x None
   = (true, decimal pre, None)
   /\ parse_signed_integer ignore_overflow t (PLUS :: pre ++ c :: rest) x None
      = (true, decimal pre, None))
  /\ (is_signed t = true ->
      numeric_min t <= - decimal pre ->
      - decimal (pre ++ [c]) < numeric_min t ->
      parse_signed_integer ignore_overflow t (MINUS :: pre ++ c :: rest) x None
      = (true, - decimal pre, None)).
Proof.
  intros Hpre Hc. unfold decimal. rewrite decimal_from_app. split.
  - intros Hle Hgt.
    assert (Hloop : unsigned_loop ignore_overflow t (pre ++ c :: rest) 0
                    = (true, decimal_from 0 pre, None)).
    { apply (@unsigned_loop_stops ignore_overflow t pre c rest 0);
        try assumption; lia. }
    assert (Hfirst : exists d tl, pre ++ c :: rest = d :: tl
                                  /\ is_digit d = true).
    { destruct pre as [|d pre']; [exists c, rest|exists d, (pre' ++ c :: rest)];
        split; try reflexivity; try assumption.
      inversion Hpre; assumption. }
    destruct Hfirst as (d & tl & E & Hd).
    unfold parse_signed_integer, parse_unsigned_integer.
    cbn [ch_eqb]. change (ch_eqb PLUS MINUS) with false.
    rewrite ch_eqb_refl. cbn iota. rewrite E in *.
    rewrite (digit_not_minus _ Hd). split; exact Hloop.
  - intros Hs Hle Hlt.
    unfold parse_signed_integer. rewrite ch_eqb_refl.
    rewrite (@negative_loop_stops ignore_overflow t pre c rest 0);
      try assumption; try reflexivity; cbn [Z.opp]; lia.
Qed.

Lemma ignore_overflow_cuts_number_witness :
  (parse_unsigned_integer ignore_overflow UChar (lit "2567") 9 None
   = (true, 25, None)
   /\ parse_signed_integer ignore_overflow UChar (lit "+2567") 9 None
      = (true, 25, None))
  /\ parse_signed_integer ignore_overflow SChar (lit "-1290") 9 None
     = (true, -12, None).
Proof.
  split.
  - apply (@ignore_overflow_cuts_number UChar (lit "25") (ascii_of_nat 54)
             (lit "7") 9).
    + repeat constructor.
    + reflexivity.
    + vm_compute. discriminate.
    + vm_compute. reflexivity.
  - apply (@ignore_overflow_cuts_number SChar (lit "12") (ascii_of_nat 57)
             (lit "0") 9).
    + repeat constructor.
    + reflexivity.
    + reflexivity.
    + vm_compute. discriminate.
    + vm_compute. reflexivity.
Defined.

(** The digits that [ss << n] writes, read as a number. *)
Lemma uint_digits d :
  all_digits (lit (NilEmpty.string_of_uint d)).
Proof.
  unfold lit. induction d; cbn; constructor; try assumption; reflexivity.
Qed.

Lemma uint_acc_value d : forall acc,
  Z.pos (Pos.of_uint_acc d acc)
  = decimal_from (Z.pos acc) (lit (NilEmpty.string_of_uint d)).
Proof.
  unfold lit.
  induction d; intros acc; cbn [Pos.of_uint_acc NilEmpty.string_of_uint
                                 list_ascii_of_string];
    [reflexivity|..]; rewrite decimal_from_cons, IHd; f_equal;
    match goal with
    | |- context [digit_val ?c] =>
        let v := eval vm_compute in (digit_val c) in
        change (digit_val c) with v
    end; lia.
Qed.

Lemma uint_value d :
  Z.of_N (Pos.of_uint d) = decimal (lit (NilEmpty.string_of_uint d)).
Proof.
  unfold lit, decimal.
  induction d; cbn [Pos.of_uint NilEmpty.string_of_uint list_ascii_of_string];
    [reflexivity|..]; rewrite decimal_from_cons;
    [exact IHd|..]; cbn [Z.of_N]; rewrite uint_acc_value; reflexivity.
Qed.

Lemma pos_digits p :
  decimal (lit (NilEmpty.string_of_uint (Pos.to_uint p))) = Z.pos p
  /\ lit (NilEmpty.string_of_uint (Pos.to_uint p)) <> [].
Proof.
  pose proof (DecimalPos.Unsigned.of_to p) as H.
  rewrite <- uint_value, H. split; [reflexivity|].
  destruct (Pos.to_uint p); [discriminate H|..]; discriminate.
Qed.

(** What a number in the range of its type is worth as a cell. *)
Lemma integer_value_dec t z :
  in_range t z = true -> integer_value t (dec z) = Some z.
Proof.
  unfold in_range. rewrite andb_true_iff, !Z.leb_le. intros [Hlo Hhi].
  assert (Hr : in_range t z = true)
    by (unfold in_range; rewrite andb_true_iff, !Z.leb_le; lia).
  assert (Hpos : forall p ds,
            ds = lit (NilEmpty.string_of_uint (Pos.to_uint p)) ->
            digits_value ds = Some (Z.pos p)
            /\ exists c tl, ds = c :: tl /\ is_digit c = true).
  { intros p ds ->. destruct (pos_digits p) as [Hv Hne].
    pose proof (uint_digits (Pos.to_uint p)) as Hd.
    destruct (lit (NilEmpty.string_of_uint (Pos.to_uint p))) as [|c tl] eqn:E;
      [contradiction|].
    split.
    - unfold digits_value.
      replace (forallb is_digit (c :: tl)) with true; [rewrite Hv; reflexivity|].
      symmetry. apply forallb_forall. intros a Ha.
      unfold all_digits in Hd. rewrite Forall_forall in Hd. apply Hd, Ha.
    - exists c, tl. split; [reflexivity|]. inversion Hd; assumption. }
  destruct z as [|p|p].
  - destruct t; reflexivity.
  - destruct (Hpos p _ eq_refl) as (Hv & c & tl & E & Hc).
    unfold dec. cbn [Z.to_int NilEmpty.string_of_int]. rewrite E in *.
    unfold integer_value.
    rewrite (digit_not_minus _ Hc), (digit_not_plus _ Hc), !andb_false_r.
    rewrite Hv. cbn [check_range]. rewrite Hr. reflexivity.
  - destruct (Hpos p _ eq_refl) as (Hv & _).
    assert (Hs : is_signed t = true).
    { destruct t; try reflexivity; cbv [numeric_min is_signed] in Hlo; lia. }
    unfold dec. cbn [Z.to_int NilEmpty.string_of_int].
    change (lit (String "-" ?s)) with (MINUS :: lit s).
    unfold integer_value. rewrite Hs, ch_eqb_refl. cbn [andb].
    rewrite Hv. cbn [option_map check_range Z.opp]. rewrite Hr. reflexivity.
Qed.

Section WithFloat.
Variable F : float_type -> Type.
Context {fops : forall k, FloatOps (F k)}.

(** X3. Reading back a number from its decimal notation.  Every
    number in the range of an integer type, both limits included, is
    read back from its decimal notation, which is a minus sign for a
    negative number and the digits without leading zeros, under both
    overflow policies. *)
Theorem integer_round_trip op t z x :
  numeric_min t <= z <= numeric_max t ->
  parse (F := F) op (dec z) (XInt t x) None = Some (true, XInt t z, None).
Proof.
  intros Hz.
  assert (Hr : in_range t z = true)
    by (unfold in_range; rewrite andb_true_iff, !Z.leb_le; lia).
  pose proof (@parse_integer_value op t (dec z) z x (integer_value_dec t z Hr))
    as H.
  unfold parse. destruct (is_signed t); rewrite H; reflexivity.
Qed.

End WithFloat.

Lemma integer_round_trip_witness :
  parse (F := no_float) ignore_overflow (dec (-128)) (XInt SChar 5) None
  = Some (true, XInt SChar (-128), None).
Proof.
  apply (@integer_round_trip no_float _ ignore_overflow SChar (-128) 5).
  vm_compute. split; discriminate.
Defined.

End NumberFacts.

(** ** The exponent of a floating-point cell *)

Module ExponentFacts.
Import FieldParser.
Import FieldParserFacts ValueFacts NumberFacts.

Section WithFloat.
Context {T : Type} {ops : FloatOps T}.

(** X4. The loop that applies the exponent of a floating-point cell
    ends for every exponent an [int] holds besides the least one: for
    an exponent [e] with [-2^31 < e < 2^31] that is not 0 the loop runs
    on [e], or on [-e] for a negative one, and is at its end after 64
    rounds at the latest, whatever the base and the mantissa; rounds
    granted beyond these change nothing. *)
Theorem exponent_loop_ends e (base x : T) fuel :
  - 2 ^ 31 < e < 2 ^ 31 -> e <> 0 -> (64 <= fuel)%nat ->
  exponent_loop 64 (if e <? 0 then wrap SInt (- e) else e) base x <> None
  /\ exponent_loop fuel (if e <? 0 then wrap SInt (- e) else e) base x
     = exponent_loop 64 (if e <? 0 then wrap SInt (- e) else e) base x.
Proof.
  change (2 ^ 31) with 2147483648. intros He Hne Hfuel.
  assert (Hp : exists p, (if e <? 0 then wrap SInt (- e) else e) = Z.pos p
                         /\ Z.pos p < 2 ^ 31).
  { change (2 ^ 31) with 2147483648. destruct e as [|p|p]; [lia| |].
    - exists p. split; [reflexivity|lia].
    - exists p. split; [|lia]. change (Z.neg p <? 0) with true. cbv iota.
      change (- Z.neg p) with (Z.pos p). apply wrap_in_range.
      cbv [numeric_min numeric_max is_signed bits].
      change (2 ^ (32 - 1)) with 2147483648. lia. }
  destruct Hp as (p & -> & Hp).
  destruct (exponent_loop_power p 64 base x Hp) as (x' & base' & Hloop & _).
  { assert (Pos.size_nat p <= 31)%nat; [|lia]. apply size_nat_bound.
    exact Hp. }
  rewrite Hloop. split; [discriminate|].
  apply (exponent_loop_more 64); assumption.
Qed.

(** On an exponent that is not positive the loop does not end: a
    negative [int] is halved towards -1, which the loop takes to -2 and
    from there back to -1. *)
Lemma exponent_loop_below : forall fuel e (base x : T),
  - 2 ^ 31 <= e <= 0 -> exponent_loop fuel e base x = None.
Proof.
  change (2 ^ 31) with 2147483648.
  induction fuel as [|fuel IH]; intros e base x He; [reflexivity|].
  cbn [exponent_loop].
  destruct (Z.eqb_spec e 1) as [|_]; [lia|].
  rewrite Z.land_ones with (n := 1) by lia. change (2 ^ 1) with 2.
  pose proof (Z.div_mod e 2 ltac:(lia)) as Hdiv.
  pose proof (Z.mod_pos_bound e 2 ltac:(lia)) as Hmod.
  destruct (Z.eqb_spec (e mod 2) 0) as [Hev|Hodd].
  - apply IH. rewrite Z.shiftr_div_pow2 by lia. change (2 ^ 1) with 2. lia.
  - rewrite wrap_in_range
      by (cbv [numeric_min numeric_max is_signed bits];
          change (2 ^ (32 - 1)) with 2147483648; lia).
    apply IH. lia.
Qed.

(** The sign of a text that is put together from parts. *)
Lemma number_text_sign neg ip fr ex :
  number_parts ip fr ex ->
  exists body,
    float_sign (number_text neg ip fr ex) = (neg, body)
    /\ body = ip ++ match fr with Some (c, fp) => c :: fp | None => [] end
                 ++ match ex with Some (c, s) => c :: s | None => [] end.
Proof.
  intros (Hip & Hfr & Hex). eexists. split; [|reflexivity].
  unfold number_text. destruct neg; [reflexivity|]. cbn [app].
  set (body := ip ++ _).
  assert (H : match body with
              | [] => True
              | c :: _ => ch_eqb c MINUS = false /\ ch_eqb c PLUS = false
              end).
  { subst body. destruct ip as [|c ip].
    - destruct fr as [[c fp]|]; cbn [app].
      + destruct Hfr as [Hc _]. unfold is_decimal_separator in Hc.
        destruct (orb_prop _ _ Hc) as [E|E]; apply ch_eqb_eq in E; subst c;
          split; reflexivity.
      + destruct ex as [[c s]|]; [|exact I]. unfold is_exponent_char in Hex.
        destruct (orb_prop _ _ Hex) as [E|E]; apply ch_eqb_eq in E; subst c;
          split; reflexivity.
    - inversion Hip as [|? ? Hc _]; subst. cbn [app].
      split; [apply digit_not_minus | apply digit_not_plus]; exact Hc. }
  unfold float_sign. destruct body as [|c body]; [reflexivity|].
  destruct H as [-> ->]. reflexivity.
Qed.

(** [parse_float] on such a text is at the exponent after the digits. *)
Lemma parse_float_number neg ip fr ex (x : T) :
  number_parts ip fr ex ->
  parse_float (number_text neg ip fr ex) x None
  = let m := float_fraction match fr with Some (_, fp) => fp | None => [] end
                            (f_of_int 1) (float_digits ip) in
    match ex with
    | None => Some (true, if neg then f_neg m else m, None)
    | Some (_, s) =>
        match parse_signed_integer set_to_max_on_overflow SInt s 0 None with
        | (false, _, err') => Some (false, m, err')
        | (true, e, _) =>
            option_map (fun y => (true, if neg then f_neg y else y, None))
                       (apply_exponent e m)
        end
    end.
Proof.
  intros Hparts. destruct (number_text_sign neg ip fr ex Hparts)
    as (body & Hsign & Hbody).
  destruct Hparts as (Hip & Hfr & Hex).
  rewrite (parse_float_parts _ x neg body ip fr
             match ex with Some (c, s) => c :: s | None => [] end
             Hsign Hbody Hip Hfr).
  - destruct ex as [[c s]|]; [|reflexivity]. cbv zeta. rewrite Hex.
    reflexivity.
  - destruct ex as [[c s]|]; [|exact I]. unfold is_exponent_char in Hex.
    destruct (orb_prop _ _ Hex) as [E|E]; apply ch_eqb_eq in E; subst c;
      split; reflexivity.
Qed.

(** X25. The value of a floating-point cell.  On a text of an optional
    minus sign, digits, optionally a point or a comma with digits after
    it, and optionally [e] or [E] with an exponent of magnitude below
    2^31, [parse_float] succeeds for every arithmetic of the target
    type, whatever the variable held, and leaves the error slot empty.
    The value is made of the digits from the left, each step ten times
    the number so far plus the digit; plus every digit after the
    separator times its weight, which is the weight before it divided by
    ten; times the power of ten, or of [T(0.1)] for a negative exponent,
    that is made by squaring; negated at the end for a minus sign.  No
    digit is needed before or after the separator. *)
Theorem parse_float_number_value neg ip fr ex e (x : T) :
  number_parts ip fr ex ->
  match ex with
  | Some (_, s) => exponent_value s = Some e
  | None => e = 0
  end ->
  parse_float (number_text neg ip fr ex) x None
  = Some (true,
          float_number neg ip
                       match fr with Some (_, fp) => fp | None => [] end e,
          None).
Proof.
  intros Hparts He. rewrite (parse_float_number neg ip fr ex x Hparts).
  cbv zeta. unfold float_number. destruct ex as [[c s]|].
  - unfold exponent_value in He.
    destruct (integer_value SInt s) as [e'|] eqn:Ei; [|discriminate].
    destruct (Z.eqb_spec e' (numeric_min SInt)) as [|Hne]; [discriminate|].
    inversion He; subst e'.
    pose proof (integer_value_range _ _ _ Ei) as Hr.
    pose proof (parse_integer_value set_to_max_on_overflow SInt s e 0 Ei)
      as Hparse.
    cbn [is_signed] in Hparse. rewrite Hparse.
    rewrite apply_exponent_scale; [reflexivity|].
    revert Hr Hne. cbv [numeric_min numeric_max is_signed bits].
    change (2 ^ (32 - 1)) with 2147483648.
    change (2 ^ 31) with 2147483648. lia.
  - subst e. reflexivity.
Qed.

(** X26. An exponent that does not end.  On a text of a number with an
    exponent of -2^31 or below, [parse_float] does not return: the
    exponent is read as the least [int], under
    [set_to_max_on_overflow] also when it is below it, its negation in
    two's complement is that number again, and the loop
    [while(e != 1)] does not come to its end on it, however many rounds
    it is given. *)
Theorem exponent_without_end neg ip fr ec ds (x : T) :
  number_parts ip fr (Some (ec, MINUS :: ds)) ->
  all_digits ds -> 2 ^ 31 <= decimal ds ->
  parse_float (number_text neg ip fr (Some (ec, MINUS :: ds))) x None = None
  /\ forall fuel (base y : T),
       exponent_loop fuel (wrap SInt (- numeric_min SInt)) base y = None.
Proof.
  change (2 ^ 31) with 2147483648. intros Hparts Hds Hle.
  assert (Hloop : forall fuel (base y : T),
             exponent_loop fuel (wrap SInt (- numeric_min SInt)) base y = None).
  { intros fuel base y. apply exponent_loop_below. vm_compute.
    split; discriminate. }
  split; [|exact Hloop].
  rewrite (parse_float_number neg ip fr _ x Hparts). cbv zeta.
  assert (Hparse : parse_signed_integer set_to_max_on_overflow SInt
                     (MINUS :: ds) 0 None = (true, numeric_min SInt, None)).
  { unfold parse_signed_integer. rewrite ch_eqb_refl.
    destruct (Z.eq_dec (decimal ds) 2147483648) as [E|Hne].
    - rewrite negative_loop_in_range; try assumption; try reflexivity;
        change (- 0) with 0; fold (decimal ds); rewrite E;
        [reflexivity|vm_compute; discriminate].
    - destruct (@first_digit_beyond 2147483648 ds 0 Hds ltac:(lia)
                  ltac:(unfold decimal in *; lia))
        as (pre & c & rest & -> & Hpre & Hc & Hle' & Hgt).
      rewrite (@negative_loop_stops set_to_max_on_overflow SInt pre c rest 0);
        try assumption; try reflexivity; change (- 0) with 0;
        change (numeric_min SInt) with (-2147483648); lia. }
  rewrite Hparse. unfold apply_exponent.
  change (numeric_min SInt =? 0) with false.
  change (numeric_min SInt <? 0) with true. cbv iota.
  rewrite Hloop. reflexivity.
Qed.

End WithFloat.

Lemma exponent_loop_ends_witness :
  exponent_loop 64 (if -5 <? 0 then wrap SInt (- -5) else -5)
                e_tenth (e_int 3) <> None
  /\ exponent_loop 100 (if -5 <? 0 then wrap SInt (- -5) else -5)
                    e_tenth (e_int 3)
     = exponent_loop 64 (if -5 <? 0 then wrap SInt (- -5) else -5)
                     e_tenth (e_int 3).
Proof.
  apply (exponent_loop_ends (-5) e_tenth (e_int 3) 100).
  - split; reflexivity.
  - discriminate.
  - apply Nat.leb_le. reflexivity.
Defined.

Lemma parse_float_number_value_witness :
  parse_float (lit "-12,5e-2") (e_int 7) None
  = Some (true,
          e_neg (e_mul (e_add (e_add (e_mul (e_add (e_mul (e_int 0) (e_int 10))
                                                   (e_int 1))
                                            (e_int 10))
                                     (e_int 2))
                              (e_mul (e_int 5) (e_div (e_int 1) (e_int 10))))
                       (e_mul e_tenth e_tenth)),
          None).
Proof.
  assert (Hparts : number_parts (lit "12") (Some (COMMA, lit "5"))
                                 (Some (ascii_of_nat 101, lit "-2"))).
  { split; [repeat constructor|]. split; [|reflexivity].
    split; [reflexivity|repeat constructor]. }
  exact (parse_float_number_value true (lit "12") (Some (COMMA, lit "5"))
           (Some (ascii_of_nat 101, lit "-2")) (-2) (e_int 7) Hparts eq_refl).
Defined.

Lemma exponent_without_end_witness :
  parse_float (lit "1e-2147483648") (e_int 7) None = None
  /\ forall fuel (base y : float_expr),
       exponent_loop fuel (wrap SInt (- numeric_min SInt)) base y = None.
Proof.
  assert (Hparts : number_parts (lit "1") None
                                 (Some (ascii_of_nat 101,
                                        MINUS :: lit "2147483648"))).
  { split; [repeat constructor|]. split; [exact I|reflexivity]. }
  assert (Hds : all_digits (lit "2147483648")) by repeat constructor.
  assert (Hle : 2 ^ 31 <= decimal (lit "2147483648"))
    by (vm_compute; discriminate).
  exact (exponent_without_end false (lit "1") None (ascii_of_nat 101)
           (lit "2147483648") (e_int 7) Hparts Hds Hle).
Defined.

End ExponentFacts.

(** ** Trimmed and quoted cells *)

Module QuoteFacts.
Import Tokenizer Header CSV.
Import ColumnFacts HeaderFacts.

(** The first loop of [trim] takes trim characters off the front, and
    all of them. *)
Lemma trim_begin_split tp s :
  exists pre,
    s = pre ++ trim_begin tp s
    /\ Forall (fun c => is_trim_char c tp = true) pre
    /\ (trim_begin tp s = []
        \/ is_trim_char (hd NUL (trim_begin tp s)) tp = false).
Proof.
  induction s as [|c s (pre & Hs & Hpre & Hhd)].
  - exists []. repeat split; [constructor|left; reflexivity].
  - cbn [trim_begin]. destruct (is_trim_char c tp) eqn:E.
    + exists (c :: pre). cbn [app]. rewrite <- Hs.
      repeat split; [constructor; assumption|exact Hhd].
    + exists []. repeat split; [constructor|right; exact E].
Qed.

(** X5. [trim] cuts a cell down to its core: the result is the cell
    without the trim characters at its two ends, it begins and ends
    with a character that is not one (or is empty), and it is the only
    string of which that can be said. *)
Theorem trim_characterised tp s core :
  trim tp s = core <-> padded tp core s.
Proof.
  split; [|apply trim_padded]. intros <-. unfold trim, trim_end.
  destruct (trim_begin_split tp s) as (pre & Hs & Hpre & Hhd).
  set (s1 := trim_begin tp s) in *.
  destruct (trim_begin_split tp (rev s1)) as (post & Hr & Hpost & Hlast).
  set (t := trim_begin tp (rev s1)) in *.
  assert (Hs1 : s1 = rev t ++ rev post).
  { rewrite <- rev_app_distr, <- Hr, rev_involutive. reflexivity. }
  exists pre, (rev post). split; [|split; [|split]].
  - rewrite Hs at 1. rewrite Hs1. reflexivity.
  - exact Hpre.
  - apply Forall_rev. exact Hpost.
  - destruct t as [|c t'] eqn:Et; [left; reflexivity|right].
    destruct Hlast as [Hlast|Hlast]; [discriminate|]. cbn [hd] in Hlast.
    split.
    + destruct Hhd as [Hhd|Hhd].
      * rewrite Hhd in Hs1. cbn [rev] in Hs1.
        destruct (rev t'); discriminate.
      * rewrite Hs1 in Hhd. cbn [rev] in *.
        destruct (rev t' ++ [c]) eqn:E; [destruct (rev t'); discriminate|].
        exact Hhd.
    + cbn [rev]. rewrite last_last. exact Hlast.
Qed.

(** Unescaping undoes the doubling of quote characters. *)
Lemma collapse_escape quote s : collapse quote (escape quote s) = s.
Proof.
  induction s as [|c s IH]; [reflexivity|]. cbn [escape].
  destruct (ch_eqb c quote) eqn:E.
  - apply ch_eqb_eq in E. subst c. cbn [collapse].
    rewrite ch_eqb_refl. cbn [andb]. rewrite IH. reflexivity.
  - cbn [collapse]. destruct (escape quote s) as [|c' s''] eqn:Es.
    + destruct s as [|a s]; [reflexivity|]. cbn [escape] in Es.
      destruct (ch_eqb a quote); discriminate.
    + rewrite E. cbn [andb]. rewrite IH. reflexivity.
Qed.

(** The scan of a quoted cell from behind its opening quote stops at the
    separator after the closing quote, or at the end of the line. *)
Lemma find_end_in_quote sep quote tail :
  sep <> quote -> (tail = [] \/ hd NUL tail = sep) ->
  forall s,
    find_end_quoted sep quote InQuote (escape quote s ++ quote :: tail)
    = Some (escape quote s ++ [quote], tail).
Proof.
  intros Hsq Ht. apply ch_eqb_neq in Hsq.
  induction s as [|c s IH].
  - cbn [escape app find_end_quoted]. rewrite ch_eqb_refl.
    destruct Ht as [->|Ht]; [reflexivity|].
    destruct tail as [|c tail]; [reflexivity|]. cbn [hd] in Ht. subst c.
    cbn [find_end_quoted]. rewrite Hsq, ch_eqb_refl. reflexivity.
  - cbn [escape]. destruct (ch_eqb c quote) eqn:E.
    + cbn [app find_end_quoted]. rewrite !ch_eqb_refl.
      fold (escape quote s ++ quote :: tail). rewrite IH. reflexivity.
    + cbn [app find_end_quoted]. rewrite E. rewrite IH. reflexivity.
Qed.

Lemma find_quoted sep quote s tail :
  sep <> quote -> (tail = [] \/ hd NUL tail = sep) ->
  find_next_column_end (double_quote_escape sep quote) (quoted quote s ++ tail)
  = (Some (quoted quote s, tail), None).
Proof.
  intros Hsq Ht. unfold quoted, find_next_column_end.
  cbn [app find_end_quoted].
  assert (Hqs : ch_eqb quote sep = false)
    by (apply ch_eqb_neq; intros E; apply Hsq; symmetry; exact E).
  rewrite Hqs, ch_eqb_refl. cbn [negb].
  rewrite <- app_assoc. cbn [app].
  rewrite find_end_in_quote by assumption. reflexivity.
Qed.

Lemma chop_quoted sep quote s more :
  sep <> quote ->
  chop_next_column (double_quote_escape sep quote)
                   (Some (quoted quote s ++ sep :: more)) None
  = (Some (quoted quote s, Some more), None).
Proof.
  intros Hsq. unfold chop_next_column.
  rewrite find_quoted; [reflexivity|assumption|right; reflexivity].
Qed.

Lemma chop_last_quoted sep quote s :
  sep <> quote ->
  chop_next_column (double_quote_escape sep quote) (Some (quoted quote s)) None
  = (Some (quoted quote s, None), None).
Proof.
  intros Hsq. unfold chop_next_column.
  rewrite <- (app_nil_r (quoted quote s)) at 1.
  rewrite find_quoted; [reflexivity|assumption|left; reflexivity].
Qed.

Lemma join_quoted_tokenizes sep quote cells :
  sep <> quote -> cells <> [] ->
  tokenizes (double_quote_escape sep quote)
            (join sep (map (quoted quote) cells)) (map (quoted quote) cells).
Proof.
  intros Hsq. unfold tokenizes.
  induction cells as [|c cells IH]; intros Hne; [contradiction|].
  cbn [map join]. destruct cells as [|c' cells].
  - eapply chops_cons; [apply chop_last_quoted, Hsq|apply chops_nil].
  - eapply chops_cons; [apply chop_quoted, Hsq|].
    apply IH. discriminate.
Qed.

(** A quoted cell is normalized to its content. *)
Lemma normalize_quoted tp sep quote s :
  is_trim_char quote tp = false ->
  normalize tp (double_quote_escape sep quote) (quoted quote s) = s.
Proof.
  intros Hq. unfold normalize.
  assert (Hlast : last (quoted quote s) NUL = quote)
    by (unfold quoted; rewrite app_comm_cons; apply last_last).
  rewrite (trim_padded tp (quoted quote s) (quoted quote s)).
  - cbn [unescape]. rewrite Hlast. unfold quoted at 1 2. cbn [hd].
    rewrite !ch_eqb_refl, !andb_true_r.
    replace (2 <=? Z.of_nat (length (quote :: escape quote s ++ [quote])))
      with true.
    + unfold quoted. cbn [tl]. rewrite removelast_last.
      apply collapse_escape.
    + symmetry. apply Z.leb_le. cbn [length]. rewrite length_app.
      cbn [length]. lia.
  - exists [], []. split; [cbn [app]; rewrite app_nil_r; reflexivity|].
    split; [constructor|]. split; [constructor|].
    right. rewrite Hlast. split; exact Hq.
Qed.

Lemma nth_map_in {A B} (f : A -> B) (l : list A) d d' i :
  (i < length l)%nat -> nth i (map f l) d' = f (nth i l d).
Proof.
  revert i. induction l as [|a l IH]; intros [|i] H; cbn [length] in H;
    try lia; cbn [map nth]; [reflexivity|]. apply IH. lia.
Qed.

Lemma map_nth_all {A} (l : list A) d :
  map (fun i => nth i l d) (seq 0 (length l)) = l.
Proof.
  apply nth_ext with (d := d) (d' := d).
  - rewrite length_map, length_seq. reflexivity.
  - intros n Hn. rewrite length_map, length_seq in Hn.
    rewrite (nth_indep _ d (nth 0 l d))
      by (rewrite length_map, length_seq; exact Hn).
    rewrite (map_nth (fun i => nth i l d) (seq 0 (length l)) 0%nat n).
    rewrite seq_nth by exact Hn. reflexivity.
Qed.

(** X6. Writing and reading back a row of quoted cells.  Under
    [double_quote_escape], for cells of any content, separators and
    quote characters included: the line made of the cells, each with
    its quote characters doubled and a quote character at either end,
    and the separator between them, is split by [parse_line] into the
    very cells, in their order. *)
Theorem quoted_row_round_trip tp sep quote cells row :
  sep <> quote -> is_trim_char quote tp = false ->
  cells <> [] -> length row = length cells ->
  parse_line tp (double_quote_escape sep quote)
             (Some (join sep (map (quoted quote) cells))) row
             (identity_order (length cells)) None
  = (true, map Some cells, None).
Proof.
  intros Hsq Hq Hne Hlen.
  pose proof (join_quoted_tokenizes sep quote cells Hsq Hne) as Htok.
  set (raws := map (quoted quote) cells) in *.
  assert (Hraws : length raws = length cells)
    by (subst raws; apply length_map).
  destruct (parse_line_loop_ordered tp (double_quote_escape sep quote) raws
              (seq 0 (length cells)) (Some (join sep raws)) row)
    as (row' & Hrun & Hlen' & Hset & _).
  { rewrite <- Hraws, map_nth_all. exact Htok. }
  { intros i Hi. apply in_seq in Hi. lia. }
  unfold parse_line, identity_order. rewrite Hrun. f_equal. f_equal.
  apply nth_ext with (d := None) (d' := None).
  - rewrite length_map. lia.
  - intros i Hi. rewrite Hset by (apply in_seq; lia).
    rewrite (nth_map_in Some cells [] None i) by lia. f_equal.
    subst raws. rewrite (nth_map_in (quoted quote) cells [] [] i) by lia.
    apply normalize_quoted. exact Hq.
Qed.

Lemma quoted_row_round_trip_witness :
  parse_line [SPACE; TAB] (double_quote_escape COMMA DQUOTE)
    (Some (join COMMA
             (map (quoted DQUOTE) [[ascii_of_nat 97; COMMA; DQUOTE]; []])))
    [None; None]
    (identity_order (length [[ascii_of_nat 97; COMMA; DQUOTE]; []])) None
  = (true, map Some [[ascii_of_nat 97; COMMA; DQUOTE]; []], None).
Proof.
  apply (quoted_row_round_trip [SPACE; TAB] COMMA DQUOTE
           [[ascii_of_nat 97; COMMA; DQUOTE]; []] [None; None]).
  - discriminate.
  - reflexivity.
  - discriminate.
  - reflexivity.
Defined.

(** The quote characters of a column that the scan accepts come in
    pairs, counted from the state the scan starts in. *)
Lemma quotes_cons quote c l :
  quotes quote (c :: l)
  = ((if ch_eqb c quote then 1 else 0) + quotes quote l)%nat.
Proof.
  unfold quotes. cbn [count_occ].
  destruct (ascii_dec c quote) as [->|Hne].
  - rewrite ch_eqb_refl. reflexivity.
  - apply ch_eqb_neq in Hne. rewrite Hne. reflexivity.
Qed.

Lemma quotes_app quote a b :
  quotes quote (a ++ b) = (quotes quote a + quotes quote b)%nat.
Proof. apply count_occ_app. Qed.

Lemma find_end_quoted_parity sep quote : sep <> quote ->
  forall s st col rest,
    find_end_quoted sep quote st s = Some (col, rest) ->
    Nat.even (quotes quote col
              + match st with InQuote => 1 | _ => 0 end) = true
    /\ (rest = [] \/ hd NUL rest = sep).
Proof.
  intros Hsq. assert (Hsq' : ch_eqb sep quote = false)
    by (apply ch_eqb_neq; exact Hsq).
  induction s as [|c s IH]; intros st col rest H.
  - destruct st; cbn in H; inversion H; subst; split;
      try reflexivity; left; reflexivity.
  - assert (Hcons : forall st' k,
              cons_col c (find_end_quoted sep quote st' s) = Some (col, rest) ->
              (forall n, Nat.even (n + match st' with InQuote => 1 | _ => 0 end)
                         = true ->
                         Nat.even ((if ch_eqb c quote then 1 else 0) + n + k)
                         = true) ->
              Nat.even (quotes quote col + k) = true
              /\ (rest = [] \/ hd NUL rest = sep)).
    { intros st' k H' Hk.
      destruct (find_end_quoted sep quote st' s) as [[a b]|] eqn:E;
        cbn [cons_col] in H'; inversion H'; subst.
      destruct (IH st' a rest E) as [Hev Hrest]. split; [|exact Hrest].
      rewrite quotes_cons. apply Hk. exact Hev. }
    destruct st; cbn [find_end_quoted] in H.
    + destruct (ch_eqb c sep) eqn:Es.
      { inversion H; subst. split; [reflexivity|right].
        apply ch_eqb_eq in Es. exact Es. }
      destruct (ch_eqb c quote) eqn:Eq; cbn [negb] in H.
      * apply (Hcons InQuote 0%nat H). intros n Hn.
        rewrite Nat.add_0_r. replace (1 + n)%nat with (n + 1)%nat by lia.
        exact Hn.
      * apply (Hcons Outer 0%nat H). intros n Hn. exact Hn.
    + destruct (ch_eqb c quote) eqn:Eq.
      * apply (Hcons AfterQuote 1%nat H). intros n Hn.
        rewrite Nat.add_0_r in Hn.
        replace (1 + n + 1)%nat with (S (S n)) by lia. exact Hn.
      * apply (Hcons InQuote 1%nat H). intros n Hn. exact Hn.
    + destruct (ch_eqb c quote) eqn:Eq.
      * apply (Hcons InQuote 0%nat H). intros n Hn.
        rewrite Nat.add_0_r. replace (1 + n)%nat with (n + 1)%nat by lia.
        exact Hn.
      * destruct (ch_eqb c sep) eqn:Es.
        { inversion H; subst. split; [reflexivity|right].
          apply ch_eqb_eq in Es. exact Es. }
        apply (Hcons Outer 0%nat H). intros n Hn. exact Hn.
Qed.

Lemma chop_parity sep quote l col line' :
  sep <> quote ->
  chop_next_column (double_quote_escape sep quote) (Some l) None
  = (Some (col, line'), None) ->
  Nat.even (quotes quote l)
  = Nat.even (match line' with Some rest => quotes quote rest | None => 0 end).
Proof.
  intros Hsq H. unfold chop_next_column, find_next_column_end in H.
  destruct (find_end_quoted sep quote Outer l) as [[a b]|] eqn:E;
    [|discriminate].
  destruct (find_end_quoted_parity sep quote Hsq l Outer a b E) as [Hev Hrest].
  pose proof (find_end_quoted_split sep quote l Outer a b E) as Hl.
  rewrite Nat.add_0_r in Hev. subst l. rewrite quotes_app.
  destruct b as [|c b]; inversion H; subst.
  - cbn [quotes count_occ]. rewrite Nat.add_0_r. exact Hev.
  - destruct Hrest as [Hrest|Hrest]; [discriminate|]. cbn [hd] in Hrest.
    subst c. rewrite quotes_cons.
    replace (ch_eqb sep quote) with false
      by (symmetry; apply ch_eqb_neq; exact Hsq).
    cbn [Nat.add]. rewrite Nat.even_add, Hev.
    destruct (Nat.even (quotes quote b)); reflexivity.
Qed.

Lemma parse_line_loop_parity tp sep quote : sep <> quote ->
  forall order line row row' e,
    parse_line_loop tp (double_quote_escape sep quote) order line row
    = (true, row', e) ->
    Nat.even (match line with Some l => quotes quote l | None => 0 end) = true.
Proof.
  intros Hsq. induction order as [|i order IH];
    intros line row row' e H.
  - destruct line; cbn in H; [discriminate|reflexivity].
  - destruct line as [l|]; [|reflexivity]. cbn [parse_line_loop] in H.
    destruct (chop_next_column (double_quote_escape sep quote) (Some l) None)
      as [[[col line']|] e'] eqn:Hchop; [|discriminate].
    destruct (chop_result _ _ _ _ Hchop) as [[? _]|(c & l' & Hr & ->)];
      [discriminate|].
    rewrite (chop_parity sep quote l col line' Hsq Hchop).
    eapply IH. exact H.
Qed.

Lemma header_loop_parity tp sep quote names ignore : sep <> quote ->
  forall fuel line found order found' order' e,
    header_loop fuel tp (double_quote_escape sep quote) names ignore line
                found order = (Some found', order', e) ->
    Nat.even (match line with Some l => quotes quote l | None => 0 end) = true.
Proof.
  intros Hsq. induction fuel as [|fuel IH];
    intros line found order found' order' e H; [discriminate|].
  destruct line as [l|]; [|reflexivity]. cbn [header_loop] in H.
  destruct (chop_next_column (double_quote_escape sep quote) (Some l) None)
    as [[[col line']|] e'] eqn:Hchop; [|discriminate].
  destruct (chop_result _ _ _ _ Hchop) as [[? _]|(c & l' & Hr & ->)];
    [discriminate|].
  rewrite (chop_parity sep quote l col line' Hsq Hchop).
  destruct (find_name _ names 0) as [i|].
  - destruct (nth i found false); [discriminate|]. eapply IH. exact H.
  - destruct (negb _); [|discriminate]. eapply IH. exact H.
Qed.

(** X7. No line with an odd number of quote characters is accepted:
    under [double_quote_escape], [parse_line] fails on it whatever the
    column-order table, and [parse_header_line] fails on it whatever the
    declared names and the ignore policy. *)
Theorem odd_quotes_refused tp sep quote line row order names ignore :
  sep <> quote -> Nat.odd (quotes quote line) = true ->
  fst (fst (parse_line tp (double_quote_escape sep quote) (Some line) row
                       order None)) = false
  /\ fst (fst (parse_header_line tp (double_quote_escape sep quote) (Some line)
                                 order names ignore None)) = false.
Proof.
  intros Hsq Hodd.
  assert (Hev : Nat.even (quotes quote line) = false)
    by (rewrite <- Nat.negb_odd, Hodd; reflexivity).
  split.
  - unfold parse_line.
    destruct (parse_line_loop tp (double_quote_escape sep quote) order
                (Some line) row) as [[[|] row'] e] eqn:E; [|reflexivity].
    pose proof (parse_line_loop_parity tp sep quote Hsq _ _ _ _ _ E) as H.
    cbn in H. rewrite H in Hev. discriminate.
  - unfold parse_header_line.
    destruct (header_loop _ tp (double_quote_escape sep quote) names ignore
                (Some line) _ _) as [[[found|] co] e] eqn:E; [|reflexivity].
    pose proof (header_loop_parity tp sep quote names ignore Hsq _ _ _ _ _ _ _ E)
      as H.
    cbn in H. rewrite H in Hev. discriminate.
Qed.

Lemma odd_quotes_refused_witness :
  fst (fst (parse_line [SPACE] (double_quote_escape COMMA DQUOTE)
              (Some [DQUOTE; ascii_of_nat 97; COMMA; ascii_of_nat 98])
              [None; None] [0; 1] None)) = false
  /\ fst (fst (parse_header_line [SPACE] (double_quote_escape COMMA DQUOTE)
                 (Some [DQUOTE; ascii_of_nat 97; COMMA; ascii_of_nat 98])
                 [0; 1] [[ascii_of_nat 97]; [ascii_of_nat 98]] 3 None))
     = false.
Proof.
  apply (odd_quotes_refused [SPACE] COMMA DQUOTE
           [DQUOTE; ascii_of_nat 97; COMMA; ascii_of_nat 98]
           [None; None] [0; 1] [[ascii_of_nat 97]; [ascii_of_nat 98]] 3).
  - discriminate.
  - reflexivity.
Defined.

(** A quote that is opened and not closed. *)
Lemma find_in_quote_open sep quote : forall body,
  ~ In quote body -> find_end_quoted sep quote InQuote body = None.
Proof.
  induction body as [|c body IH]; intros Hq; [reflexivity|].
  cbn [find_end_quoted].
  replace (ch_eqb c quote) with false
    by (symmetry; apply ch_eqb_neq; intros ->; apply Hq; left; reflexivity).
  rewrite IH; [reflexivity|]. intros H. apply Hq. right. exact H.
Qed.

Lemma find_unclosed sep quote body : sep <> quote -> ~ In quote body ->
  forall pre, ~ In sep pre -> ~ In quote pre ->
    find_end_quoted sep quote Outer (pre ++ quote :: body) = None.
Proof.
  intros Hsq Hb. induction pre as [|c pre IH]; intros Hs Hq.
  - cbn [app find_end_quoted].
    replace (ch_eqb quote sep) with false
      by (symmetry; apply ch_eqb_neq; intros E; apply Hsq; symmetry; exact E).
    rewrite ch_eqb_refl. cbn [negb].
    rewrite find_in_quote_open by assumption. reflexivity.
  - cbn [app find_end_quoted].
    replace (ch_eqb c sep) with false
      by (symmetry; apply ch_eqb_neq; intros ->; apply Hs; left; reflexivity).
    replace (ch_eqb c quote) with false
      by (symmetry; apply ch_eqb_neq; intros ->; apply Hq; left; reflexivity).
    cbn [negb]. rewrite IH; [reflexivity| |]; intros H;
      [apply Hs|apply Hq]; right; exact H.
Qed.

(** An error of [chop_next_column] after columns that were cut off
    ends [parse_line] with that error. *)
Lemma parse_line_loop_stops tp qp e : forall cols line l1 order row,
  chops qp line cols (Some l1) ->
  chop_next_column qp (Some l1) None = (None, Some e) ->
  (length cols < length order)%nat ->
  exists row', parse_line_loop tp qp order line row = (false, row', Some e).
Proof.
  induction cols as [|col cols IH]; intros line l1 order row Hch Herr Hlen;
    (destruct order as [|i order]; [cbn in Hlen; lia|]);
    inversion Hch as [|l c line' cols' line'' Hchop Hrest]; subst.
  - exists row. cbn [parse_line_loop]. rewrite Herr. reflexivity.
  - cbn [parse_line_loop]. rewrite Hchop.
    eapply IH; [exact Hrest|exact Herr|cbn [length] in Hlen; lia].
Qed.

Section WithSource.
Context {Src : Type} {src : ByteSourceBase Src}.
Variable strerror : Z -> cstring.
Variable F : float_type -> Type.
Context {fops : forall k, FloatOps (F k)}.
Variable tp : trim_policy.
Variable op : overflow_policy.
Variable cp : comment_policy.

(** X8. A quoted string that is not closed.  When, after columns that
    were cut off without error, a column of the row opens a quote and
    the line has no further quote character, [read_row] fails with
    [escaped_string_not_closed] and leaves the variables as they are;
    the error has the name of the file and the number of the line, and
    its message names them. *)
Theorem unclosed_quote_reported (r : CSVReader Src) fuel line lr' sep quote
        cols pre body (vars : list (var F)) :
  sep <> quote ->
  fetch_row_line strerror cp fuel (in_ r) = Some (Line line, lr') ->
  chops (double_quote_escape sep quote) (Some line) cols
        (Some (pre ++ quote :: body)) ->
  (length cols < length (col_order r))%nat ->
  ~ In sep pre -> ~ In quote pre -> ~ In quote body ->
  exists r' e,
    read_row strerror tp (double_quote_escape sep quote) op cp fuel r None vars
    = Some (false, r', vars, Some e)
    /\ kind e = escaped_string_not_closed
    /\ Error.file_name e = Reader.file_name lr'
    /\ Error.file_line e = wrap SInt (Reader.file_line lr')
    /\ error_ e
       = lit "Escaped string was not closed in line "
         ++ dec (wrap SInt (Reader.file_line lr'))
         ++ lit " in file " ++ Reader.file_name lr'.
Proof.
  intros Hsq Hfetch Hch Hlen Hs Hq Hb.
  assert (Herr : chop_next_column (double_quote_escape sep quote)
                   (Some (pre ++ quote :: body)) None
                 = (None, Some (make_shared escaped_string_not_closed))).
  { unfold chop_next_column, find_next_column_end.
    rewrite find_unclosed by assumption. reflexivity. }
  destruct (parse_line_loop_stops tp _ _ cols (Some line) _ (col_order r)
              (row r) Hch Herr Hlen) as (row' & Hrun).
  eexists. eexists. split.
  - unfold read_row. rewrite Hfetch. unfold parse_line. rewrite Hrun.
    cbn [option_map]. reflexivity.
  - repeat split.
Qed.

End WithSource.

End QuoteFacts.

(** ** Headers under the ignore policies *)

Module HeaderPolicyFacts.
Import Tokenizer Header Reader CSV.
Import ColumnFacts HeaderFacts.

Lemma find_name_app_in p pre rest : forall k,
  In p pre -> find_name p (pre ++ rest) k = find_name p pre k.
Proof.
  induction pre as [|n pre IH]; intros k Hin; [contradiction|].
  cbn [app find_name]. destruct (cstring_eqb p n) eqn:E; [reflexivity|].
  destruct Hin as [->|Hin].
  - assert (cstring_eqb p p = true) by (apply cstring_eqb_eq; reflexivity).
    congruence.
  - apply IH, Hin.
Qed.

(** A flag is set by a header column only. *)
Lemma marked_unset names hs : forall found i,
  nth i (fold_left (mark names) hs found) false = true ->
  nth i found false = true
  \/ exists p, In p hs /\ find_name p names 0 = Some i.
Proof.
  induction hs as [|p hs IH]; intros found i H; [left; exact H|].
  cbn [fold_left] in H. destruct (IH _ _ H) as [Hm|(q & Hq & Hf)].
  - unfold mark in Hm. destruct (find_name p names 0) as [k|] eqn:Ef;
      [|left; exact Hm].
    destruct (Nat.eq_dec k i) as [->|Hne].
    + right. exists p. split; [left; reflexivity|exact Ef].
    + rewrite nth_store_other in Hm by assumption. left. exact Hm.
  - right. exists q. split; [right; exact Hq|exact Hf].
Qed.

(** The first flag that is not set names the missing column. *)
Lemma first_missing_at n post : forall pre found,
  (forall i, (i < length pre)%nat -> nth i found false = true) ->
  nth (length pre) found false = false ->
  length found = length (pre ++ n :: post) ->
  first_missing found (pre ++ n :: post) = Some n.
Proof.
  induction pre as [|a pre IH]; intros [|f found] Hset Hun Hlen;
    try discriminate.
  - cbn [length nth] in Hun. subst f. reflexivity.
  - cbn [app first_missing].
    pose proof (Hset O ltac:(cbn; lia)) as H0. cbn [nth] in H0. subst f.
    apply IH.
    + intros i Hi. apply (Hset (S i)). cbn. lia.
    + exact Hun.
    + cbn [length app] in Hlen. cbn [length]. lia.
Qed.

(** The header loop over a whole line whose columns raise no error. *)
Lemma header_loop_all tp qp names ignore l raws :
  tokenizes qp l raws ->
  NoDup (filter (is_declared names) (map (normalize tp qp) raws)) ->
  (forall p, In p (map (normalize tp qp) raws) ->
             is_declared names p = true
             \/ Z.land ignore ignore_extra_column <> 0) ->
  header_loop (S (S (length l))) tp qp names ignore (Some l)
              (repeat false (length names)) []
  = (Some (fold_left (mark names) (map (normalize tp qp) raws)
                     (repeat false (length names))),
     map (column_index names) (map (normalize tp qp) raws), None).
Proof.
  intros Htok Hnd Hdecl. unfold tokenizes in Htok.
  pose proof (chops_rounds _ _ _ _ Htok) as Hrounds.
  cbv beta iota in Hrounds. unfold cstring in Hrounds.
  set (fuel := S (S (length l))).
  assert (Hfuel : fuel = (length raws + (fuel - length raws))%nat)
    by (unfold fuel, cstring in *; lia).
  rewrite Hfuel.
  rewrite (header_loop_prefix tp qp names ignore _ _ _ Htok); try assumption.
  - destruct (fuel - length raws)%nat as [|fuel'] eqn:Ef;
      [unfold fuel, cstring in *; lia|].
    reflexivity.
  - intros p i _ _. apply nth_repeat.
Qed.

Lemma declared_in names p : is_declared names p = true <-> In p names.
Proof.
  unfold is_declared. destruct (find_name p names 0) as [i|] eqn:E; split;
    try discriminate; try reflexivity.
  - intros _. destruct (find_name_some _ _ _ _ E) as (j & _ & Hj & <-).
    apply nth_In. exact Hj.
  - intros H. elim (find_name_none _ _ _ E H).
Qed.

(** What [parse_header_line] accepts. *)
Lemma header_line_accepted tp qp names ignore l raws col_order0 :
  tokenizes qp l raws ->
  NoDup (filter (is_declared names) (map (normalize tp qp) raws)) ->
  (Z.land ignore ignore_extra_column <> 0
   \/ forall p, In p (map (normalize tp qp) raws) -> In p names) ->
  (Z.land ignore ignore_missing_column <> 0
   \/ (NoDup names
       /\ forall n, In n names -> In n (map (normalize tp qp) raws))) ->
  parse_header_line tp qp (Some l) col_order0 names ignore None
  = (true, map (column_index names) (map (normalize tp qp) raws), None).
Proof.
  intros Htok Hnd Hextra Hmiss. unfold parse_header_line.
  rewrite (header_loop_all tp qp names ignore l raws Htok Hnd).
  - destruct (Z.eqb_spec (Z.land ignore ignore_missing_column) 0) as [E|E];
      [|reflexivity].
    destruct Hmiss as [Hmiss|[Hnames Hall]]; [contradiction|].
    rewrite first_missing_none; [reflexivity| |].
    + rewrite length_marked. apply repeat_length.
    + intros i Hi.
      apply (marked_sets names _ _ (nth i names []) i).
      * apply Hall, nth_In, Hi.
      * apply (find_name_nth names 0 i Hnames Hi).
      * rewrite repeat_length. exact Hi.
  - intros p Hp. destruct Hextra as [Hextra|Hextra]; [right; exact Hextra|].
    left. apply declared_in, Hextra, Hp.
Qed.

Lemma existsb_eqb_in (i : Z) (l : list Z) :
  existsb (Z.eqb i) l = true <-> In i l.
Proof.
  rewrite existsb_exists. split.
  - intros (x & Hx & E). apply Z.eqb_eq in E. subst. exact Hx.
  - intros H. exists i. split; [exact H|apply Z.eqb_refl].
Qed.

(** [has_column] over a table that a header gave. *)
Lemma has_column_table {Src} (r : CSVReader Src) hs name :
  col_order r = map (column_index (column_names r)) hs ->
  has_column r name = true <-> In name (column_names r) /\ In name hs.
Proof.
  intros Hco. unfold has_column. rewrite Hco, existsb_eqb_in.
  destruct (find_name name (column_names r) 0) as [i|] eqn:E.
  - assert (Hin : In name (column_names r)).
    { destruct (find_name_some _ _ _ _ E) as (j & _ & Hj & <-).
      apply nth_In. exact Hj. }
    rewrite in_map_iff. split.
    + intros (p & Hp & Hin'). split; [exact Hin|].
      unfold column_index in Hp.
      destruct (find_name p (column_names r) 0) as [k|] eqn:Ek; [|lia].
      assert (k = i) by lia. subst k.
      rewrite (find_name_inj _ _ _ _ E Ek). exact Hin'.
    + intros [_ Hhs]. exists name. split; [|exact Hhs].
      unfold column_index. rewrite E. reflexivity.
  - split; [|intros [H _]; elim (find_name_none _ _ _ E H)].
    rewrite in_map_iff. intros (p & Hp & _). exfalso.
    unfold column_index in Hp.
    destruct (find_name p (column_names r) 0) as [k|] eqn:Ek; [|lia].
    destruct (find_name_some _ _ _ _ Ek) as (j & -> & Hj & _). lia.
Qed.

Section WithSource.
Context {Src : Type} {src : ByteSourceBase Src}.
Variable strerror : Z -> cstring.
Variable tp : trim_policy.
Variable qp : quote_policy.
Variable cp : comment_policy.

(** X9. What [read_header] accepts.  A header line is accepted when
    no declared name is the name of two of its columns; every column is
    a declared name, or [ignore_extra_column] is set; and the declared
    names are pairwise different and each of them is a column, or
    [ignore_missing_column] is set.  The reader then has the declared
    names, and its column-order table has, for every column of the file
    in turn, the index of the declared name, or -1 for a column that is
    none. *)
Theorem header_accepted (r : CSVReader Src) fuel ignore names line lr' raws :
  fetch_header_line strerror cp fuel (in_ r) = Some (Line line, lr') ->
  tokenizes qp line raws ->
  NoDup (filter (is_declared names) (map (normalize tp qp) raws)) ->
  (Z.land ignore ignore_extra_column <> 0
   \/ forall p, In p (map (normalize tp qp) raws) -> In p names) ->
  (Z.land ignore ignore_missing_column <> 0
   \/ (NoDup names
       /\ forall n, In n names -> In n (map (normalize tp qp) raws))) ->
  read_header strerror tp qp cp fuel r ignore None names
  = Some (true,
          mk_csv lr' (row r) names
                 (map (column_index names) (map (normalize tp qp) raws)),
          None).
Proof.
  intros Hfetch Htok Hnd Hextra Hmiss. unfold read_header. rewrite Hfetch.
  rewrite (header_line_accepted tp qp names ignore line raws (col_order r));
    try assumption. reflexivity.
Qed.

(** X10. After a header was accepted, [has_column] tells the declared
    names that the header has from those it has not: it answers true
    for a name exactly when the name is declared and is a column of
    the header. *)
Theorem has_column_after_header (r : CSVReader Src) fuel ignore names line lr'
        raws :
  fetch_header_line strerror cp fuel (in_ r) = Some (Line line, lr') ->
  tokenizes qp line raws ->
  NoDup (filter (is_declared names) (map (normalize tp qp) raws)) ->
  (Z.land ignore ignore_extra_column <> 0
   \/ forall p, In p (map (normalize tp qp) raws) -> In p names) ->
  (Z.land ignore ignore_missing_column <> 0
   \/ (NoDup names
       /\ forall n, In n names -> In n (map (normalize tp qp) raws))) ->
  exists r',
    read_header strerror tp qp cp fuel r ignore None names
    = Some (true, r', None)
    /\ forall name,
         has_column r' name = true
         <-> In name names /\ In name (map (normalize tp qp) raws).
Proof.
  intros Hfetch Htok Hnd Hextra Hmiss. eexists. split.
  - unfold read_header. rewrite Hfetch.
    rewrite (header_line_accepted tp qp names ignore line raws (col_order r));
      try assumption. reflexivity.
  - intros name. apply has_column_table. reflexivity.
Qed.

(** X11. After [set_header], [has_column] answers true for the names
    that were set, and for no other. *)
Theorem has_column_after_set_header (r : CSVReader Src) cols name :
  has_column (snd (set_header r cols)) name = true <-> In name cols.
Proof.
  unfold set_header, has_column, identity_order.
  cbn [snd column_names col_order]. rewrite existsb_eqb_in, in_map_iff.
  destruct (find_name name cols 0) as [i|] eqn:E.
  - destruct (find_name_some _ _ _ _ E) as (j & -> & Hj & <-). split.
    + intros _. apply nth_In. exact Hj.
    + intros _. exists j. split; [reflexivity|]. apply in_seq. lia.
  - split; [|intros H; elim (find_name_none _ _ _ E H)].
    intros (k & Hk & Hin). apply in_seq in Hin. lia.
Qed.

(** X12. A column of the header that is no declared name, after
    columns that are declared names, each for the first time: without
    [ignore_extra_column], [read_header] fails with
    [extra_column_in_header], and the error and its message have the
    name of that column, trimmed and unescaped, and the name of the
    file. *)
Theorem extra_header_column (r : CSVReader Src) fuel ignore names line lr'
        raws l1 raw line2 :
  fetch_header_line strerror cp fuel (in_ r) = Some (Line line, lr') ->
  chops qp (Some line) raws (Some l1) ->
  chop_next_column qp (Some l1) None = (Some (raw, line2), None) ->
  NoDup (map (normalize tp qp) raws) ->
  (forall p, In p (map (normalize tp qp) raws) -> In p names) ->
  ~ In (normalize tp qp raw) names ->
  Z.land ignore ignore_extra_column = 0 ->
  exists r' e,
    read_header strerror tp qp cp fuel r ignore None names
    = Some (false, r', Some e)
    /\ kind e = extra_column_in_header
    /\ column_name e = normalize tp qp raw
    /\ Error.file_name e = file_name lr'
    /\ error_ e
       = lit "Extra column " ++ [DQUOTE] ++ normalize tp qp raw ++ [DQUOTE]
         ++ lit " in header of file " ++ [DQUOTE] ++ file_name lr'
         ++ [DQUOTE].
Proof.
  intros Hfetch Hch Hchop Hnd Hdecl Hextra Hign.
  assert (Hrun : parse_header_line tp qp (Some line) (col_order r) names ignore
                                   None
                 = (false,
                    map (column_index names) (map (normalize tp qp) raws),
                    Some (set_column_name (make_shared extra_column_in_header)
                            (normalize tp qp raw)))).
  { unfold parse_header_line.
    pose proof (chops_rounds _ _ _ _ Hch) as Hrounds.
    cbv beta iota in Hrounds. unfold cstring in Hrounds.
    set (fuel0 := S (S (length line))).
    assert (Hfuel : fuel0 = (length raws + (fuel0 - length raws))%nat)
      by (unfold fuel0, cstring in *; lia).
    rewrite Hfuel.
    rewrite (header_loop_prefix tp qp names ignore _ _ _ Hch).
    - destruct (fuel0 - length raws)%nat as [|fuel'] eqn:Ef;
        [unfold fuel0, cstring in *; lia|].
      cbn [header_loop app]. rewrite Hchop.
      fold (normalize tp qp raw).
      destruct (find_name (normalize tp qp raw) names 0) as [i|] eqn:Ef'.
      + elim Hextra. apply declared_in. unfold is_declared. rewrite Ef'.
        reflexivity.
      + rewrite Hign. reflexivity.
    - rewrite forallb_filter_id; [exact Hnd|].
      apply forallb_forall. intros p Hp. apply declared_in, Hdecl, Hp.
    - intros p Hp. left. apply declared_in, Hdecl, Hp.
    - intros p i _ _. apply nth_repeat. }
  eexists. eexists. split.
  - unfold read_header. rewrite Hfetch, Hrun. cbn [option_map]. reflexivity.
  - repeat split.
Qed.

(** X13. A declared name that is reported as missing: without
    [ignore_missing_column], a header whose columns raise no error of
    their own makes [read_header] fail with [missing_column_in_header]
    for the first declared name, in the order of the declaration, that
    is no column of the header or that repeats a declared name before
    it; so the declared names before it are pairwise different columns
    of the header, and a name that is declared twice is reported also
    when the header has it.  The error and its message have that name
    and the name of the file. *)
Theorem missing_header_column (r : CSVReader Src) fuel ignore line lr' raws
        pre n post :
  fetch_header_line strerror cp fuel (in_ r) = Some (Line line, lr') ->
  tokenizes qp line raws ->
  NoDup (filter (is_declared (pre ++ n :: post)) (map (normalize tp qp) raws)) ->
  (Z.land ignore ignore_extra_column <> 0
   \/ forall p, In p (map (normalize tp qp) raws) -> In p (pre ++ n :: post)) ->
  Z.land ignore ignore_missing_column = 0 ->
  NoDup pre ->
  (forall p, In p pre -> In p (map (normalize tp qp) raws)) ->
  ~ In n (map (normalize tp qp) raws) \/ In n pre ->
  exists r' e,
    read_header strerror tp qp cp fuel r ignore None (pre ++ n :: post)
    = Some (false, r', Some e)
    /\ kind e = missing_column_in_header
    /\ column_name e = c_str n
    /\ Error.file_name e = file_name lr'
    /\ error_ e
       = lit "Missing column " ++ [DQUOTE] ++ c_str n ++ [DQUOTE]
         ++ lit " in header of file " ++ [DQUOTE] ++ file_name lr'
         ++ [DQUOTE].
Proof.
  intros Hfetch Htok Hnd Hextra Hign Hpre Hall Hn.
  set (names := pre ++ n :: post) in *.
  set (hs := map (normalize tp qp) raws) in *.
  assert (Hrun : parse_header_line tp qp (Some line) (col_order r) names ignore
                                   None
                 = (false, map (column_index names) hs,
                    Some (set_column_name (make_shared missing_column_in_header)
                            (c_str n)))).
  { unfold parse_header_line.
    rewrite (header_loop_all tp qp names ignore line raws Htok Hnd).
    - fold hs. rewrite Hign. cbn [Z.eqb].
      rewrite (first_missing_at n post pre); [reflexivity| | |].
      + intros i Hi.
        apply (marked_sets names _ _ (nth i pre []) i).
        * apply Hall, nth_In, Hi.
        * unfold names. rewrite find_name_app_in by (apply nth_In; exact Hi).
          apply (find_name_nth pre 0 i Hpre Hi).
        * rewrite repeat_length. unfold names. rewrite length_app. lia.
      + destruct (nth (length pre)
                      (fold_left (mark names) hs (repeat false (length names)))
                      false) eqn:E; [|reflexivity].
        destruct (marked_unset names hs _ _ E) as [H|(p & Hp & Hf)].
        * rewrite nth_repeat in H. discriminate.
        * destruct (find_name_some _ _ _ _ Hf) as (j & Hj & _ & Hnth).
          cbn [Nat.add] in Hj. subst j. unfold names in Hnth.
          rewrite app_nth2 in Hnth by lia.
          rewrite Nat.sub_diag in Hnth. cbn [nth] in Hnth. subst p.
          destruct Hn as [Hn|Hn]; [contradiction|].
          unfold names in Hf. rewrite (find_name_app_in _ _ _ _ Hn) in Hf.
          destruct (find_name_some _ _ _ _ Hf) as (j & Hj & Hlt & _).
          cbn [Nat.add] in Hj. lia.
      + rewrite length_marked. apply repeat_length.
    - intros p Hp. destruct Hextra as [Hextra|Hextra]; [right; exact Hextra|].
      left. apply declared_in, Hextra, Hp. }
  eexists. eexists. split.
  - unfold read_header. rewrite Hfetch, Hrun. cbn [option_map]. reflexivity.
  - repeat split.
Qed.

End WithSource.

End HeaderPolicyFacts.

(** ** Rows under a column-order table *)

Module RowFacts.
Import Tokenizer Header FieldParser Reader CSV.
Import ColumnFacts HeaderFacts ErrorFacts.

(** [parse_line] writes to the places that its table names, and to no
    other. *)
Lemma parse_line_loop_keeps tp qp : forall order line row b row' e,
  parse_line_loop tp qp order line row = (b, row', e) ->
  length row' = length row
  /\ forall k, ~ In (Z.of_nat k) order -> nth k row' None = nth k row None.
Proof.
  induction order as [|i order IH]; intros line row b row' e H.
  - destruct line; cbn in H; inversion H; subst; split; reflexivity.
  - cbn [parse_line_loop] in H. destruct line as [l|];
      [|inversion H; subst; split; reflexivity].
    destruct (chop_next_column qp (Some l) None) as [[[col line']|] e'];
      [|inversion H; subst; split; reflexivity].
    destruct (IH _ _ _ _ _ H) as [Hlen Hkeep].
    assert (Hst : length (if i =? -1 then row
                          else store_col row i (unescape qp (trim tp col)))
                  = length row
                  /\ forall k, Z.of_nat k <> i ->
                       nth k (if i =? -1 then row
                              else store_col row i (unescape qp (trim tp col)))
                           None = nth k row None).
    { destruct (i =? -1); [split; reflexivity|]. unfold store_col.
      destruct (Z.ltb_spec i 0); [split; reflexivity|].
      split; [apply length_store|].
      intros k Hk. apply nth_store_other. lia. }
    destruct Hst as [Hl1 Hk1]. split; [rewrite Hlen; exact Hl1|].
    intros k Hk. rewrite Hkeep by (intros Hin; apply Hk; right; exact Hin).
    apply Hk1. intros E. apply Hk. left. symmetry. exact E.
Qed.

(** With as many columns as the table has entries, the column of every
    entry that is not -1 is stored at the place the entry names. *)
Lemma parse_line_loop_places tp qp : forall order raws line row,
  chops qp line raws None -> length raws = length order ->
  (forall i, In i order -> i = -1 \/ 0 <= i < Z.of_nat (length row)) ->
  NoDup (filter (fun i => negb (i =? -1)) order) ->
  exists row',
    parse_line_loop tp qp order line row = (true, row', None)
    /\ forall j i, nth_error order j = Some (Z.of_nat i) ->
                   nth i row' None = Some (normalize tp qp (nth j raws [])).
Proof.
  induction order as [|i0 order IH]; intros raws line row Hch Hlen Hrange Hnd.
  - destruct raws; [|discriminate]. inversion Hch; subst.
    exists row. split; [reflexivity|]. intros [|j] i H; discriminate.
  - destruct raws as [|raw raws]; [discriminate|].
    inversion Hch as [|l col line' cols' line'' Hchop Hrest]; subst.
    cbn [parse_line_loop]. rewrite Hchop.
    set (row1 := if i0 =? -1 then row
                 else store_col row i0 (unescape qp (trim tp raw))).
    assert (Hl1 : length row1 = length row).
    { subst row1. destruct (i0 =? -1); [reflexivity|]. unfold store_col.
      destruct (i0 <? 0); [reflexivity|apply length_store]. }
    assert (Hnd' : NoDup (filter (fun i => negb (i =? -1)) order)).
    { cbn [filter] in Hnd. destruct (negb (i0 =? -1)); [|exact Hnd].
      inversion Hnd; assumption. }
    destruct (IH raws line' row1 Hrest) as (row' & Hrun & Hset).
    { cbn [length] in Hlen. lia. }
    { intros i Hi. rewrite Hl1. apply Hrange. right. exact Hi. }
    { exact Hnd'. }
    exists row'. split; [exact Hrun|].
    intros [|j] i Hj; cbn [nth_error nth] in *.
    + inversion Hj; subst i0.
      destruct (parse_line_loop_keeps tp qp _ _ _ _ _ _ Hrun) as [_ Hkeep].
      rewrite Hkeep.
      * subst row1. destruct (Z.eqb_spec (Z.of_nat i) (-1)); [lia|].
        unfold store_col. destruct (Z.ltb_spec (Z.of_nat i) 0); [lia|].
        rewrite Nat2Z.id. apply nth_store_same.
        destruct (Hrange (Z.of_nat i) (or_introl eq_refl)); lia.
      * intros Hin. cbn [filter] in Hnd.
        destruct (Z.eqb_spec (Z.of_nat i) (-1)); [lia|]. cbn [negb] in Hnd.
        inversion Hnd as [|? ? Hnot _]; subst. apply Hnot.
        apply filter_In. split; [exact Hin|].
        destruct (Z.eqb_spec (Z.of_nat i) (-1)); [lia|reflexivity].
    + apply Hset. exact Hj.
Qed.

(** The table that a header gives. *)
Lemma table_entries names hs :
  forall i, In i (map (column_index names) hs) ->
            i = -1 \/ 0 <= i < Z.of_nat (length names).
Proof.
  intros i Hi. apply in_map_iff in Hi. destruct Hi as (p & <- & _).
  unfold column_index. destruct (find_name p names 0) as [k|] eqn:E;
    [right|left; reflexivity].
  destruct (find_name_some _ _ _ _ E) as (j & -> & Hj & _). lia.
Qed.

Lemma table_no_dup names : forall hs,
  NoDup (filter (is_declared names) hs) ->
  NoDup (filter (fun i => negb (i =? -1)) (map (column_index names) hs)).
Proof.
  induction hs as [|p hs IH]; intros Hnd; [constructor|].
  cbn [map filter] in *. unfold is_declared, column_index in *.
  destruct (find_name p names 0) as [k|] eqn:E.
  - destruct (Z.eqb_spec (Z.of_nat k) (-1)); [lia|]. cbn [negb].
    inversion Hnd as [|? ? Hnot Hnd']; subst. constructor; [|apply IH, Hnd'].
    intros Hin. apply filter_In in Hin. destruct Hin as [Hin _].
    apply in_map_iff in Hin. destruct Hin as (q & Hq & Hqin).
    destruct (find_name q names 0) as [k'|] eqn:E'; [|lia].
    assert (k' = k) by lia. subst k'.
    apply Hnot. rewrite (find_name_inj _ _ _ _ E E').
    apply filter_In. split; [exact Hqin|]. rewrite E'. reflexivity.
  - cbn [Z.eqb negb]. apply IH, Hnd.
Qed.

(** X14. A row under the table of a header.  With the column-order
    table that a header gives, [parse_line] splits a line of as many
    columns as the header has and stores, for every column of the
    header that is a declared name, the cell under it, trimmed and
    unescaped, at the place of that name; the cells under the other
    columns are skipped, and the places of the declared names that the
    header does not have stay as they are. *)
Theorem row_follows_header tp qp names hs line raws row :
  tokenizes qp line raws -> length raws = length hs ->
  NoDup (filter (is_declared names) hs) -> length row = length names ->
  exists row',
    parse_line tp qp (Some line) row (map (column_index names) hs) None
    = (true, row', None)
    /\ (forall j i,
          (j < length hs)%nat -> find_name (nth j hs []) names 0 = Some i ->
          nth i row' None = Some (normalize tp qp (nth j raws [])))
    /\ (forall k,
          (k < length names)%nat -> ~ In (nth k names []) hs ->
          nth k row' None = nth k row None).
Proof.
  intros Htok Hlen Hnd Hrow.
  destruct (parse_line_loop_places tp qp (map (column_index names) hs) raws
              (Some line) row Htok) as (row' & Hrun & Hset).
  { rewrite length_map. exact Hlen. }
  { rewrite Hrow. apply table_entries. }
  { apply table_no_dup, Hnd. }
  exists row'. unfold parse_line. split; [exact Hrun|]. split.
  - intros j i Hj Hf. apply Hset.
    rewrite nth_error_map.
    rewrite (nth_error_nth' hs [] Hj). cbn [option_map].
    unfold column_index. rewrite Hf. reflexivity.
  - intros k Hk Hnot.
    destruct (parse_line_loop_keeps tp qp _ _ _ _ _ _ Hrun) as [_ Hkeep].
    apply Hkeep. intros Hin. apply in_map_iff in Hin.
    destruct Hin as (p & Hp & Hpin). unfold column_index in Hp.
    destruct (find_name p names 0) as [k'|] eqn:E; [|lia].
    assert (k' = k) by lia. subst k'.
    destruct (find_name_some _ _ _ _ E) as (j & Hj & _ & Hn).
    cbn [Nat.add] in Hj. subst j. rewrite Hn in Hnot. contradiction.
Qed.

Lemma row_follows_header_witness :
  exists row',
    parse_line ex_trim ex_quote (Some (lit "5, x ,6")) [None; None; None]
               (map (column_index [lit "a"; lit "b"; lit "c"])
                    [lit "b"; lit "x"; lit "a"]) None
    = (true, row', None)
    /\ (forall j i,
          (j < length [lit "b"; lit "x"; lit "a"])%nat ->
          find_name (nth j [lit "b"; lit "x"; lit "a"] [])
                    [lit "a"; lit "b"; lit "c"] 0 = Some i ->
          nth i row' None
          = Some (normalize ex_trim ex_quote
                            (nth j [lit "5"; lit " x "; lit "6"] [])))
    /\ (forall k,
          (k < length [lit "a"; lit "b"; lit "c"])%nat ->
          ~ In (nth k [lit "a"; lit "b"; lit "c"] [])
               [lit "b"; lit "x"; lit "a"] ->
          nth k row' None = nth k [None; None; None] None).
Proof.
  apply (row_follows_header ex_trim ex_quote [lit "a"; lit "b"; lit "c"]
           [lit "b"; lit "x"; lit "a"] (lit "5, x ,6")
           [lit "5"; lit " x "; lit "6"] [None; None; None]).
  - unfold tokenizes. eapply chops_cons; [reflexivity|].
    eapply chops_cons; [reflexivity|].
    eapply chops_cons; [reflexivity|]. apply chops_nil.
  - reflexivity.
  - vm_compute. repeat constructor; cbn; intuition discriminate.
  - reflexivity.
Defined.

Section WithSource.
Context {Src : Type} {src : ByteSourceBase Src}.
Variable strerror : Z -> cstring.
Variable F : float_type -> Type.
Context {fops : forall k, FloatOps (F k)}.
Variable tp : trim_policy.
Variable qp : quote_policy.
Variable op : overflow_policy.
Variable cp : comment_policy.

(** A variable whose place in the [row] array is empty is passed
    over. *)
Lemma parse_helper_skips (rd : CSVReader Src) d : forall cols k0 err b cols' e,
  parse_helper strerror op rd k0 err cols = Some (b, cols', e) ->
  forall j, nth (k0 + j) (row rd) None = None ->
            nth j cols' d = nth j cols d.
Proof.
  induction cols as [|t cols IH]; intros k0 err b cols' e H j Hj.
  - cbn in H. destruct err; inversion H; subst; reflexivity.
  - cbn [parse_helper] in H. destruct err as [e0|];
      [inversion H; subst; reflexivity|].
    destruct (nth k0 (row rd) None) as [col|] eqn:Ek.
    + destruct (parse op col t None) as [[[[|] t'] err']|]; [| |discriminate].
      * destruct (parse_helper strerror op rd (S k0) err' cols)
          as [[[b1 c1] e1]|] eqn:E; [|discriminate].
        cbn [option_map] in H. inversion H; subst. destruct j as [|j].
        { rewrite Nat.add_0_r in Hj. congruence. }
        cbn [nth]. apply (IH _ _ _ _ _ E).
        replace (S k0 + j)%nat with (k0 + S j)%nat by lia. exact Hj.
      * inversion H; subst. destruct j as [|j]; [|reflexivity].
        rewrite Nat.add_0_r in Hj. congruence.
    + destruct (parse_helper strerror op rd (S k0) None cols)
        as [[[b1 c1] e1]|] eqn:E; [|discriminate].
      cbn [option_map] in H. inversion H; subst.
      destruct j as [|j]; [reflexivity|].
      cbn [nth]. apply (IH _ _ _ _ _ E).
      replace (S k0 + j)%nat with (k0 + S j)%nat by lia. exact Hj.
Qed.

(** X15. The variable of a column that the file does not have.  When
    the place of a variable in the [row] array is empty and the
    column-order table does not name it, as it is for a declared name
    that an accepted header lacks, [read_row] leaves that variable as
    it is, whatever the call returns, and the place stays empty for the
    calls that follow. *)
Theorem absent_column_keeps_variable (r : CSVReader Src) fuel
        (cols : list (var F)) k d b r' cols' e :
  nth k (row r) None = None -> ~ In (Z.of_nat k) (col_order r) ->
  read_row strerror tp qp op cp fuel r None cols = Some (b, r', cols', e) ->
  nth k cols' d = nth k cols d
  /\ nth k (row r') None = None
  /\ col_order r' = col_order r.
Proof.
  intros Hrow Hco H. unfold read_row in H.
  destruct (fetch_row_line strerror cp fuel (in_ r)) as [[[line|err'] lr']|];
    [| |discriminate].
  - unfold parse_line in H.
    destruct (parse_line_loop tp qp (col_order r) (Some line) (row r))
      as [[b1 row'] e1] eqn:Hrun.
    destruct (parse_line_loop_keeps tp qp _ _ _ _ _ _ Hrun) as [_ Hkeep].
    pose proof (Hkeep k Hco) as Hk. rewrite Hrow in Hk.
    destruct b1.
    + destruct (parse_helper strerror op
                  (mk_csv lr' row' (column_names r) (col_order r)) 0 None cols)
        as [[[b2 c2] e2]|] eqn:E; [|discriminate].
      pose proof (parse_helper_skips _ d _ _ _ _ _ _ E k Hk) as Hv.
      destruct e2; inversion H; subst; repeat split; assumption.
    + inversion H; subst. repeat split. exact Hk.
  - inversion H; subst. repeat split. exact Hrow.
Qed.

(** X16. The variables after a cell that does not parse.  When the
    cell of a variable is refused by its parser, [read_row] fails with
    the error of the parser, to which it adds the cell as column
    content, the declared name of the column, the name of the file and
    the number of the line, and the message made of these; the
    variables before that one have the values of their cells, that one
    is as its parser left it, and the variables after it are as they
    were. *)
Theorem parse_failure_report (r : CSVReader Src) fuel line lr' row'
        cols1 cols1' x x' e0 col (cols2 : list (var F)) :
  fetch_row_line strerror cp fuel (in_ r) = Some (Line line, lr') ->
  parse_line tp qp (Some line) (row r) (col_order r) None = (true, row', None) ->
  parse_helper strerror op (mk_csv lr' row' (column_names r) (col_order r))
               0 None cols1 = Some (true, cols1', None) ->
  nth (length cols1) row' None = Some col ->
  parse op col x None = Some (false, x', Some e0) ->
  exists e,
    read_row strerror tp qp op cp fuel r None (cols1 ++ x :: cols2)
    = Some (false, mk_csv lr' row' (column_names r) (col_order r),
            cols1' ++ x' :: cols2, Some e)
    /\ kind e = kind e0
    /\ column_content e = col
    /\ column_name e = c_str (nth (length cols1) (column_names r) [])
    /\ Error.file_line e = wrap SInt (file_line lr')
    /\ Error.file_name e = file_name lr'
    /\ error_ e = message strerror e.
Proof.
  intros Hfetch Hparse Hpre Hcol Hfail.
  unfold read_row. rewrite Hfetch, Hparse.
  rewrite (parse_helper_app _ _ _ _ _ _ _ _ Hpre).
  cbn [parse_helper Nat.add row column_names]. rewrite Hcol, Hfail.
  cbn [option_map].
  eexists. split; [reflexivity|]. repeat split.
  unfold report, format_error_message, message.
  cbn [kind set_error Error.set_file_line Error.set_file_name
       Error.set_column_name Error.set_column_content error_ Error.file_name
       Error.file_line column_name column_content errno_].
  destruct (kind e0); reflexivity.
Qed.

(** What the line reader returns. *)
Lemma next_line_result (lr lr' : LineReader Src) line e :
  next_line lr None = (line, lr', e) ->
  match e with
  | Some e0 =>
      line = None
      /\ (kind e0 = internal_error \/ kind e0 = line_length_limit_exceeded)
  | None =>
      match line with
      | None => data_begin lr' = data_end lr'
      | Some _ => True
      end
  end.
Proof.
  unfold next_line.
  destruct (Z.eqb_spec (data_begin lr) (data_end lr)) as [E|_].
  { intros H. inversion H; subst. exact E. }
  destruct (_ >=? _).
  { intros H. inversion H; subst. split; [reflexivity|left; reflexivity]. }
  destruct (_ >? _).
  { intros H. inversion H; subst. split; [reflexivity|left; reflexivity]. }
  destruct (_ >? _).
  { intros H. inversion H; subst. split; [reflexivity|right; reflexivity]. }
  intros H. inversion H; subst. exact I.
Qed.

Lemma fetch_row_line_result : forall fuel (lr lr' : LineReader Src) e,
  fetch_row_line strerror cp fuel lr = Some (Stop e, lr') ->
  match e with
  | Some e0 => row_error_kind (kind e0) = true
  | None => data_begin lr' = data_end lr'
  end.
Proof.
  induction fuel as [|fuel IH]; intros lr lr' e H; [discriminate|].
  cbn [fetch_row_line] in H.
  destruct (next_line lr None) as [[line lr1] e1] eqn:En.
  pose proof (next_line_result _ _ _ _ En) as Hr.
  destruct line as [line|].
  - destruct e1 as [e1|]; [destruct Hr; discriminate|].
    destruct (is_comment cp line); [|discriminate]. apply (IH _ _ _ H).
  - inversion H; subst. destruct e as [e0|]; [|exact Hr].
    destruct Hr as [_ [-> | ->]]; reflexivity.
Qed.

End WithSource.

(** What the tokenizer and the field parsers return. *)
Lemma chop_error qp l e :
  chop_next_column qp (Some l) None = (None, e) ->
  e = Some (make_shared escaped_string_not_closed).
Proof.
  unfold chop_next_column, find_next_column_end.
  destruct qp as [sep|sep quote].
  - destruct (find_end_plain sep l) as [col [|c rest]]; discriminate.
  - destruct (find_end_quoted sep quote Outer l) as [[col [|c rest]]|];
      try discriminate. intros H. inversion H. reflexivity.
Qed.

Lemma parse_line_loop_result tp qp : forall order line row b row' e,
  parse_line_loop tp qp order line row = (b, row', e) ->
  (b = true /\ e = None)
  \/ (b = false /\ exists e0, e = Some e0 /\ row_error_kind (kind e0) = true).
Proof.
  induction order as [|i order IH]; intros line row b row' e H.
  - destruct line; cbn in H; inversion H; subst;
      [right; split; [reflexivity|eexists; split; reflexivity]
      |left; split; reflexivity].
  - cbn [parse_line_loop] in H. destruct line as [l|].
    + destruct (chop_next_column qp (Some l) None) as [[[col line']|] e']
        eqn:Hchop.
      * apply (IH _ _ _ _ _ H).
      * inversion H; subst. rewrite (chop_error _ _ _ Hchop).
        right. split; [reflexivity|eexists; split; reflexivity].
    + inversion H; subst.
      right. split; [reflexivity|eexists; split; reflexivity].
Qed.

Lemma unsigned_loop_result p t : forall col x,
  field_outcome (fst (fst (unsigned_loop p t col x)))
                (snd (unsigned_loop p t col x)).
Proof.
  induction col as [|c col IH]; intros x; [left; split; reflexivity|].
  cbn [unsigned_loop]. destruct (is_digit c).
  - destruct (x >? Z.quot (numeric_max t - digit_val c) 10);
      [left; split; reflexivity|apply IH].
  - right. split; [reflexivity|]. exists no_digit. split; reflexivity.
Qed.

Lemma negative_loop_result p t : forall col x,
  field_outcome (fst (fst (negative_loop p t col x)))
                (snd (negative_loop p t col x)).
Proof.
  induction col as [|c col IH]; intros x; [left; split; reflexivity|].
  cbn [negative_loop]. destruct (is_digit c).
  - destruct (x <? Z.quot (numeric_min t + digit_val c) 10);
      [left; split; reflexivity|apply IH].
  - right. split; [reflexivity|]. exists no_digit. split; reflexivity.
Qed.

Lemma parse_unsigned_result p t col x :
  field_outcome (fst (fst (parse_unsigned_integer p t col x None)))
                (snd (parse_unsigned_integer p t col x None)).
Proof.
  unfold parse_unsigned_integer. destruct col as [|c col];
    [apply unsigned_loop_result|].
  destruct (ch_eqb c MINUS); [|apply unsigned_loop_result].
  right. split; [reflexivity|].
  exists integer_must_be_positive. split; reflexivity.
Qed.

Lemma parse_signed_result p t col x :
  field_outcome (fst (fst (parse_signed_integer p t col x None)))
                (snd (parse_signed_integer p t col x None)).
Proof.
  unfold parse_signed_integer. destruct col as [|c col];
    [apply parse_unsigned_result|].
  destruct (ch_eqb c MINUS); [apply negative_loop_result|].
  destruct (ch_eqb c PLUS); apply parse_unsigned_result.
Qed.

Lemma parse_float_result {T} {ops : FloatOps T} col (x : T) b v e :
  parse_float col x None = Some (b, v, e) -> field_outcome b e.
Proof.
  unfold parse_float.
  destruct (match col with
            | [] => (false, col)
            | c :: col' =>
                if ch_eqb c MINUS then (true, col')
                else if ch_eqb c PLUS then (false, col') else (false, col)
            end) as [is_neg col1].
  destruct (float_int_part col1 (f_of_int 0)) as [x1 col2].
  destruct (match col2 with
            | [] => (x1, col2)
            | c :: col' =>
                if ch_eqb c DOT || ch_eqb c COMMA
                then float_frac_part col' (f_of_int 1) x1
                else (x1, col2)
            end) as [x2 col3].
  destruct col3 as [|c col'];
    [intros H; inversion H; subst; left; split; reflexivity|].
  destruct (ch_eqb c (ascii_of_nat 101) || ch_eqb c (ascii_of_nat 69)).
  - pose proof (parse_signed_result set_to_max_on_overflow SInt col' 0) as H.
    destruct (parse_signed_integer set_to_max_on_overflow SInt col' 0 None)
      as [[[|] e'] err']; cbn [fst snd] in *.
    + destruct (apply_exponent e' x2) as [y|]; [|discriminate].
      cbn [option_map]. intros E. inversion E; subst.
      left. split; reflexivity.
    + intros E. inversion E; subst.
      destruct H as [[H _]|[_ H]]; [discriminate|]. right.
      split; [reflexivity|exact H].
  - intros E. inversion E; subst.
    right. split; [reflexivity|]. exists no_digit. split; reflexivity.
Qed.

Section WithReader.
Context {Src : Type} {src : ByteSourceBase Src}.
Variable strerror : Z -> cstring.
Variable F : float_type -> Type.
Context {fops : forall k, FloatOps (F k)}.
Variable tp : trim_policy.
Variable qp : quote_policy.
Variable op : overflow_policy.
Variable cp : comment_policy.

Lemma parse_result col (x : var F) b x' e :
  parse op col x None = Some (b, x', e) -> field_outcome b e.
Proof.
  destruct x as [c|s|s|s|t v|k v]; cbn [parse].
  - unfold parse_char. destruct col as [|a [|a' col]];
      intros H; inversion H; subst.
    + right. split; [reflexivity|].
      exists invalid_single_character. split; reflexivity.
    + left. split; reflexivity.
    + right. split; [reflexivity|].
      exists invalid_single_character. split; reflexivity.
  - intros H. inversion H; subst. left. split; reflexivity.
  - intros H. inversion H; subst. left. split; reflexivity.
  - intros H. inversion H; subst. left. split; reflexivity.
  - destruct (is_signed t).
    + pose proof (parse_signed_result op t col v) as H.
      destruct (parse_signed_integer op t col v None) as [[b' v'] e'].
      intros E. inversion E; subst. exact H.
    + pose proof (parse_unsigned_result op t col v) as H.
      destruct (parse_unsigned_integer op t col v None) as [[b' v'] e'].
      intros E. inversion E; subst. exact H.
  - destruct (parse_float col v None) as [[[b' v'] e']|] eqn:E;
      [|discriminate].
    cbn [option_map]. intros H. inversion H; subst.
    exact (parse_float_result col v _ _ _ E).
Qed.

Lemma parse_helper_result (rd : CSVReader Src) : forall cols k b cols' e,
  parse_helper strerror op rd k None cols = Some (b, cols', e) ->
  (b = true /\ e = None)
  \/ (b = false
      /\ exists e0, e = Some e0 /\ field_error_kind (kind e0) = true).
Proof.
  induction cols as [|t cols IH]; intros k b cols' e H.
  - cbn in H. inversion H; subst. left. split; reflexivity.
  - cbn [parse_helper] in H. destruct (nth k (row rd) None) as [col|].
    + destruct (parse op col t None) as [[[b0 t'] err']|] eqn:Ep;
        [|discriminate].
      pose proof (parse_result col t _ _ _ Ep) as Hp. destruct b0.
      * destruct Hp as [[_ ->]|[Hp _]]; [|discriminate].
        destruct (parse_helper strerror op rd (S k) None cols)
          as [[[b1 c1] e1]|] eqn:E; [|discriminate].
        cbn [option_map] in H. inversion H; subst. apply (IH _ _ _ _ E).
      * destruct Hp as [[Hp _]|[_ (k0 & Hk & ->)]]; [discriminate|].
        inversion H; subst. right. split; [reflexivity|].
        eexists. split; [reflexivity|]. exact Hk.
    + destruct (parse_helper strerror op rd (S k) None cols)
        as [[[b1 c1] e1]|] eqn:E; [|discriminate].
      cbn [option_map] in H. inversion H; subst. apply (IH _ _ _ _ E).
Qed.

(** X17. What [read_row] returns.  It returns true with an empty
    error slot only.  It returns false with an empty slot only when the
    input is used up (the cursors of the line reader have met), and
    then the variables are as they were.  Every error it raises is of
    one of eight kinds: an internal error, a line beyond the length
    limit, too few or too many columns, a quoted string that is not
    closed, a negative number for an unsigned variable, a byte that is
    no digit, or a cell that is not a single character.  In particular
    it raises neither [integer_overflow] nor [integer_underflow], under
    either overflow policy. *)
Theorem read_row_outcomes (r : CSVReader Src) fuel (cols : list (var F)) :
  match read_row strerror tp qp op cp fuel r None cols with
  | Some (true, _, _, e) => e = None
  | Some (false, r', cols', None) =>
      cols' = cols /\ data_begin (in_ r') = data_end (in_ r')
  | Some (false, _, _, Some e) => row_error_kind (kind e) = true
  | None => True
  end.
Proof.
  unfold read_row.
  destruct (fetch_row_line strerror cp fuel (in_ r)) as [[[line|e] lr']|] eqn:Ef;
    [| |exact I].
  - unfold parse_line.
    destruct (parse_line_loop tp qp (col_order r) (Some line) (row r))
      as [[b row'] e] eqn:Hrun.
    destruct (parse_line_loop_result tp qp _ _ _ _ _ _ Hrun)
      as [[-> ->]|[-> (e0 & -> & Hk)]].
    + destruct (parse_helper strerror op
                  (mk_csv lr' row' (column_names r) (col_order r)) 0 None cols)
        as [[[b2 c2] e2]|] eqn:E; [|exact I].
      destruct (parse_helper_result _ _ _ _ _ _ E)
        as [[-> ->]|[-> (e0 & -> & Hk)]]; [reflexivity|].
      unfold report, format_error_message.
      cbn [kind set_error Error.set_file_line Error.set_file_name].
      destruct (kind e0); try discriminate; reflexivity.
    + cbn [option_map]. unfold report, format_error_message.
      cbn [kind set_error Error.set_file_line Error.set_file_name]. exact Hk.
  - pose proof (fetch_row_line_result strerror cp _ _ _ _ Ef) as Hr.
    destruct e as [e0|]; [exact Hr|]. split; [reflexivity|exact Hr].
Qed.

End WithReader.

End RowFacts.

(** ** The lines of a file *)

Module TextFacts.
Import Reader.
Import ReaderFacts LinesFacts CSVFacts ErrorFacts.

#[local] Opaque block_len.

(** The lines that are pending are returned one after the other. *)
Lemma lines_from_file eol final_eol : forall lines lr,
  Forall plain_text lines ->
  Forall (fun l => Z.of_nat (length l) + 2 <= block_len) lines ->
  line_break eol ->
  (final_eol = false -> lines <> [] -> last lines [] <> []) ->
  pending lr (file_of_lines eol final_eol lines) ->
  exists lr',
    lines_from (length lines) lr = Some (lines, lr')
    /\ pending lr' []
    /\ file_line lr' mod 2 ^ 32
       = (file_line lr + Z.of_nat (length lines)) mod 2 ^ 32
    /\ file_name lr' = file_name lr.
Proof.
  induction lines as [|l lines IH]; intros lr Hpl Hlen Heol Hlast Hp.
  - exists lr. cbn [length lines_from]. rewrite Z.add_0_r.
    split; [reflexivity|]. split; [exact Hp|]. split; reflexivity.
  - destruct (next_line_of_file lr l lines eol final_eol)
      as (lr1 & Hnext & Hp1 & Hfl & Hfn); try assumption.
    { apply (Forall_inv Hpl). }
    { apply (Forall_inv Hlen). }
    { apply ends_well_first. exact Hlast. }
    destruct (IH lr1) as (lr' & Hrun & Hp' & Hfl' & Hfn');
      try assumption.
    { apply (Forall_inv_tail Hpl). }
    { apply (Forall_inv_tail Hlen). }
    { apply (ends_well_app final_eol [l]). exact Hlast. }
    exists lr'. cbn [length lines_from]. rewrite Hnext, Hrun.
    split; [reflexivity|]. split; [exact Hp'|].
    split; [|rewrite Hfn'; exact Hfn].
    rewrite Hfl', Hfl. unfold incr_file_line.
    rewrite Z.add_mod_idemp_l by lia. f_equal. lia.
Qed.

(** X18. Writing and reading back the lines of a file.  For lines of
    text, each shorter than a block, written with Unix or Windows line
    breaks, with or without a line break after the last one and with or
    without a byte order mark in front: successive [next_line] calls on
    a reader over the bytes return the very lines, in their order and
    without their line breaks, the call after the last line returns no
    line and no error, and the line counter has counted the lines. *)
Theorem lines_round_trip file_name_ file fresh lines eol final_eol :
  Forall plain_text lines ->
  Forall (fun l => Z.of_nat (length l) + 2 <= block_len) lines ->
  line_break eol ->
  (final_eol = false -> lines <> [] -> last lines [] <> []) ->
  skip_bom file = file_of_lines eol final_eol lines ->
  exists lr',
    lines_from (length lines) (init file_name_ (mk_string_source file) fresh)
    = Some (lines, lr')
    /\ next_line lr' None = (None, lr', None)
    /\ file_line lr' mod 2 ^ 32 = Z.of_nat (length lines) mod 2 ^ 32.
Proof.
  intros Hpl Hlen Heol Hlast Hfile.
  destruct (lines_from_file eol final_eol lines
              (init file_name_ (mk_string_source file) fresh))
    as (lr' & Hrun & Hp & Hfl & _); try assumption.
  { rewrite <- Hfile. apply init_pending. }
  exists lr'. split; [exact Hrun|]. split; [apply next_line_at_end, Hp|].
  rewrite Hfl. rewrite (init_file_line file_name_ (mk_string_source file) fresh).
  reflexivity.
Qed.

Lemma lines_round_trip_witness :
  exists lr',
    lines_from (length [lit "a,b"; []; lit " 1"])
      (init ex_name
         (mk_string_source
            ([ascii_of_nat 239; ascii_of_nat 187; ascii_of_nat 191]
             ++ file_of_lines [CR; LF] false [lit "a,b"; []; lit " 1"]))
         ex_fresh)
    = Some ([lit "a,b"; []; lit " 1"], lr')
    /\ next_line lr' None = (None, lr', None)
    /\ file_line lr' mod 2 ^ 32
       = Z.of_nat (length [lit "a,b"; []; lit " 1"]) mod 2 ^ 32.
Proof.
  apply (lines_round_trip ex_name _ ex_fresh [lit "a,b"; []; lit " 1"]
           [CR; LF] false).
  - repeat constructor; discriminate.
  - pose proof block_len_val as Hbl.
    repeat constructor; cbn [length lit list_ascii_of_string]; lia.
  - right. reflexivity.
  - intros _ _. discriminate.
  - reflexivity.
Defined.

(** A string without terminator is the C string it is seen as. *)
Lemma c_str_no_nul l : ~ In NUL l -> c_str l = l.
Proof.
  induction l as [|c l IH]; intros H; [reflexivity|]. cbn [c_str].
  replace (ch_eqb c NUL) with false
    by (symmetry; apply ch_eqb_neq; intros ->; apply H; left; reflexivity).
  rewrite IH; [reflexivity|]. intros Hin. apply H. right. exact Hin.
Qed.

Lemma chomp_after_nul a b :
  exists b', chomp (a ++ NUL :: b) = a ++ NUL :: b'.
Proof.
  destruct (rev b) as [|c br] eqn:E.
  - apply (f_equal (@rev ascii)) in E. rewrite rev_involutive in E. subst b.
    exists []. unfold chomp. rewrite rev_app_distr. reflexivity.
  - apply (f_equal (@rev ascii)) in E. rewrite rev_involutive in E.
    cbn [rev] in E. subst b.
    replace (a ++ NUL :: rev br ++ [c]) with ((a ++ NUL :: rev br) ++ [c])
      by (rewrite <- app_assoc; reflexivity).
    rewrite chomp_snoc. destruct (ch_eqb c CR).
    + exists (rev br). reflexivity.
    + exists (rev br ++ [c]). rewrite <- app_assoc. reflexivity.
Qed.

(** X19. A terminator byte inside a line.  A line of a file that has a
    NUL byte is returned up to that byte: the bytes of the line after
    it are lost without an error, and reading goes on with the next
    line of the file. *)
Theorem nul_cuts_line lr a b tail :
  pending lr ((a ++ NUL :: b) ++ LF :: tail) ->
  ~ In NUL a -> no_line_feed a -> no_line_feed b ->
  Z.of_nat (length (a ++ NUL :: b)) + 1 <= block_len ->
  exists lr',
    next_line lr None = (Some a, lr', None) /\ pending lr' tail.
Proof.
  intros Hp Ha Hla Hlb Hlen.
  destruct (next_line_delivers lr (a ++ NUL :: b) (LF :: tail))
    as (lr' & Hnext & Hp' & _); try assumption.
  { unfold no_line_feed in *. rewrite in_app_iff. intros [H|[H|H]];
      [apply Hla, H|discriminate H|apply Hlb, H]. }
  { left. exists tail. reflexivity. }
  exists lr'. split; [|exact Hp'].
  rewrite Hnext. destruct (chomp_after_nul a b) as [b' ->].
  rewrite c_str_app_nul, c_str_no_nul by assumption. reflexivity.
Qed.

Lemma nul_cuts_line_witness :
  exists lr',
    next_line (ex_init ((lit "12" ++ NUL :: lit "34") ++ LF :: lit "5")) None
    = (Some (lit "12"), lr', None)
    /\ pending lr' (lit "5").
Proof.
  apply (nul_cuts_line _ (lit "12") (lit "34") (lit "5")).
  - apply (init_pending ex_name
             ((lit "12" ++ NUL :: lit "34") ++ LF :: lit "5") ex_fresh).
  - cbn. intuition discriminate.
  - unfold no_line_feed. cbn. intuition discriminate.
  - unfold no_line_feed. cbn. intuition discriminate.
  - pose proof block_len_val. cbn [length lit list_ascii_of_string app]. lia.
Defined.

(** A run of [block_len] bytes without line feed is refused, wherever
    the reader stands in the file. *)
Lemma next_line_refuses lr rest :
  pending lr rest -> block_len <= Z.of_nat (length rest) ->
  (forall j, Z.of_nat j < block_len -> nth j rest NUL <> LF) ->
  exists lr',
    next_line lr None
    = (None, lr',
       Some (Error.set_file_line
               (Error.set_file_name (make_shared line_length_limit_exceeded)
                                    (file_name lr))
               (wrap SInt (incr_file_line (file_line lr))))).
Proof.
  intros Hp Hlen Hnl. pose proof block_len_val as Hbl.
  assert (Hrest : rest <> []).
  { intros ->. cbn [length] in Hlen. lia. }
  assert (Hp1 : pending (set_file_line lr (incr_file_line (file_line lr))) rest)
    by exact Hp.
  unfold next_line.
  destruct Hp as (Hc & Hle & Hbuf & Hsrc & Hemp). unfold cursors_ok in Hc.
  destruct (Z.eqb_spec (data_begin lr) (data_end lr)) as [E|E];
    [elim Hrest; auto|].
  set (lr1 := set_file_line lr (incr_file_line (file_line lr))) in *.
  change (data_begin lr1) with (data_begin lr).
  change (data_end lr1) with (data_end lr).
  destruct (Z.geb_spec (data_begin lr) (data_end lr)); [lia|].
  destruct (Z.gtb_spec (data_end lr) (block_len * 2)); [lia|].
  set (lr2 := if data_begin lr >=? block_len then shift lr1 else lr1).
  assert (H2 : pending lr2 rest
               /\ 0 <= data_begin lr2 < block_len
               /\ data_begin lr2 < data_end lr2
               /\ file_name lr2 = file_name lr
               /\ file_line lr2 = incr_file_line (file_line lr)).
  { subst lr2. destruct (Z.geb_spec (data_begin lr) block_len).
    - destruct (shift_pending lr1 rest Hp1) as (Ha & Hb & Hc' & Hd & He');
        [unfold lr1; cbn [set_file_line data_begin data_end]; lia|].
      unfold lr1 in Hb, Hd, He'.
      cbn [set_file_line data_begin data_end file_name file_line] in Hb, Hd, He'.
      fold lr1 in Hb, Hd, He'.
      split; [exact Ha|]. repeat split; try assumption; lia.
    - split; [exact Hp1|]. unfold lr1.
      cbn [set_file_line data_begin data_end file_name file_line].
      repeat split; try assumption; lia. }
  clearbody lr2. clear Hp1 lr1 Hle Hbuf Hsrc Hemp Hc E.
  destruct H2 as ((Hc & Hle & Hbuf & Hsrc & Hemp) & Hb2 & Hlt2 & Hfn & Hfl).
  unfold cursors_ok in Hc. unfold buffered in Hbuf.
  set (db := data_begin lr2) in *. set (de := data_end lr2) in *.
  assert (Hfull : db + block_len <= de).
  { unfold source_ok in Hsrc. fold db de in Hsrc.
    destruct (byte_source (reader lr2)) as [s|].
    - destruct Hsrc as (Hstr & _ & _ & [Hf|Hf]); [lia|].
      rewrite Hf in Hstr. symmetry in Hstr.
      apply (f_equal (@length ascii)) in Hstr.
      rewrite length_skipn in Hstr. cbn [length] in Hstr. lia.
    - lia. }
  pose proof (find_line_end_skips (buffer lr2) de (Z.to_nat (de - db)) db
                block_len ltac:(lia) ltac:(lia) ltac:(lia)) as Hskip.
  destruct (Z.gtb_spec
              (find_line_end (buffer lr2) de (Z.to_nat (de - db)) db - db + 1)
              block_len) as [_|Hno].
  - exists lr2. rewrite Hfn, Hfl. reflexivity.
  - exfalso. assert (db + block_len
                     <= find_line_end (buffer lr2) de (Z.to_nat (de - db)) db);
      [|lia].
    apply Hskip. intros i Hi. rewrite Hbuf by lia. apply Hnl. lia.
Qed.

(** X20. The longest line.  A line is returned when it has fewer than
    [block_len] bytes, that is [2^20], the carriage return of a Windows
    line break counted, and it is refused with
    [line_length_limit_exceeded], with the name of the file and the
    number of the line, when it has [block_len] bytes or more; so it is
    wherever the line stands in the file. *)
Theorem line_length_limit lr l tail :
  pending lr (l ++ LF :: tail) -> no_line_feed l ->
  block_len = 2 ^ 20
  /\ (Z.of_nat (length l) < block_len ->
      exists lr',
        next_line lr None = (Some (c_str (chomp l)), lr', None)
        /\ pending lr' tail)
  /\ (block_len <= Z.of_nat (length l) ->
      exists lr' e,
        next_line lr None = (None, lr', Some e)
        /\ kind e = line_length_limit_exceeded
        /\ Error.file_name e = file_name lr
        /\ Error.file_line e = wrap SInt (incr_file_line (file_line lr))).
Proof.
  intros Hp Hnl. split; [exact block_len_val|]. split.
  - intros Hlen.
    destruct (next_line_delivers lr l (LF :: tail))
      as (lr' & Hnext & Hp' & _); try assumption; [lia| |].
    + left. exists tail. reflexivity.
    + exists lr'. split; assumption.
  - intros Hlen.
    destruct (next_line_refuses lr (l ++ LF :: tail) Hp) as (lr' & Hnext).
    + rewrite length_app. lia.
    + intros j Hj. rewrite app_nth1 by lia. intros E. apply Hnl.
      rewrite <- E. apply nth_In. lia.
    + exists lr'. eexists. split; [exact Hnext|]. repeat split.
Qed.

Lemma line_length_limit_witness :
  block_len = 2 ^ 20
  /\ (Z.of_nat (length (lit "ab" ++ [CR])) < block_len ->
      exists lr',
        next_line (ex_init ((lit "ab" ++ [CR]) ++ LF :: lit "c")) None
        = (Some (c_str (chomp (lit "ab" ++ [CR]))), lr', None)
        /\ pending lr' (lit "c"))
  /\ (block_len <= Z.of_nat (length (lit "ab" ++ [CR])) ->
      exists lr' e,
        next_line (ex_init ((lit "ab" ++ [CR]) ++ LF :: lit "c")) None
        = (None, lr', Some e)
        /\ kind e = line_length_limit_exceeded
        /\ Error.file_name e
           = file_name (ex_init ((lit "ab" ++ [CR]) ++ LF :: lit "c"))
        /\ Error.file_line e
           = wrap SInt
               (incr_file_line
                  (file_line (ex_init ((lit "ab" ++ [CR]) ++ LF :: lit "c"))))).
Proof.
  apply (line_length_limit _ (lit "ab" ++ [CR]) (lit "c")).
  - apply (init_pending ex_name ((lit "ab" ++ [CR]) ++ LF :: lit "c") ex_fresh).
  - unfold no_line_feed. cbn. intuition discriminate.
Defined.

End TextFacts.

(** ** Files without header, and files that cannot be opened *)

Module TableFacts.
Import Tokenizer Header FieldParser Reader CSV Files.
Import ReaderFacts LinesFacts ColumnFacts HeaderFacts CSVFacts ErrorFacts.

#[local] Opaque block_len.

Section WithPolicies.
Variable strerror : Z -> cstring.
Variable F : float_type -> Type.
Context {fops : forall k, FloatOps (F k)}.
Variable tp : trim_policy.
Variable qp : quote_policy.
Variable op : overflow_policy.
Variable cp : comment_policy.

Let Reader : Type := CSVReader NonOwningStringByteSource.
Let Lines : Type := LineReader NonOwningStringByteSource.

(** The loop of [read_header] over a file that has comment lines
    only. *)
Lemma fetch_header_line_end eol final_eol : forall comments fuel (lr : Lines),
  Forall (comment_line cp) comments ->
  Forall (fun l => Z.of_nat (length l) + 2 <= block_len) comments ->
  line_break eol ->
  (final_eol = false -> comments <> [] -> last comments [] <> []) ->
  pending lr (file_of_lines eol final_eol comments) ->
  (length comments < fuel)%nat ->
  exists lr',
    fetch_header_line strerror cp fuel lr
    = Some (Stop (Some (format_error_message strerror
                          (Error.set_file_name (make_shared header_missing)
                                               (file_name lr)))), lr').
Proof.
  induction comments as [|c comments IH];
    intros fuel lr Hcom Hlen Heol Hlast Hp Hfuel;
    (destruct fuel as [|fuel]; [cbn in Hfuel; lia|]).
  - exists lr. cbn [fetch_header_line].
    rewrite (next_line_at_end lr Hp). reflexivity.
  - destruct (Forall_inv Hcom) as [Hc Hcpl].
    destruct (next_line_of_file lr c comments eol final_eol)
      as (lr1 & Hnext & Hp1 & _ & Hfn); try assumption.
    { apply (Forall_inv Hlen). }
    { apply ends_well_first. exact Hlast. }
    destruct (IH fuel lr1) as (lr' & Hfetch); try assumption.
    { apply (Forall_inv_tail Hcom). }
    { apply (Forall_inv_tail Hlen). }
    { apply (ends_well_app final_eol [c]). exact Hlast. }
    { cbn in Hfuel. lia. }
    exists lr'. cbn [fetch_header_line]. rewrite Hnext, Hc, Hfetch, Hfn.
    reflexivity.
Qed.

(** X21. A file without header.  On a file that is empty, or has
    comment lines only, [read_header] fails with [header_missing]; the
    error and its message have the name of the file, cut to 255
    bytes. *)
Theorem header_missing_reported n file_name_ file fresh fuel ignore names
        comments eol final_eol :
  Forall (comment_line cp) comments ->
  Forall (fun l => Z.of_nat (length l) + 2 <= block_len) comments ->
  line_break eol ->
  (final_eol = false -> comments <> [] -> last comments [] <> []) ->
  skip_bom file = file_of_lines eol final_eol comments ->
  (length comments < fuel)%nat ->
  exists (r' : Reader) e,
    read_header strerror tp qp cp fuel
                (new n file_name_ (mk_string_source file) fresh)
                ignore None names
    = Some (false, r', Some e)
    /\ kind e = header_missing
    /\ Error.file_name e = truncate_file_name file_name_
    /\ error_ e
       = lit "Header missing in file " ++ [DQUOTE]
         ++ truncate_file_name file_name_ ++ [DQUOTE].
Proof.
  intros Hcom Hlen Heol Hlast Hfile Hfuel.
  destruct (fetch_header_line_end eol final_eol comments fuel
              (init file_name_ (mk_string_source file) fresh))
    as (lr' & Hfetch); try assumption.
  { rewrite <- Hfile. apply init_pending. }
  eexists. eexists. split.
  - unfold read_header. cbn [new in_]. rewrite Hfetch. reflexivity.
  - assert (Hname : file_name (init file_name_ (mk_string_source file) fresh)
                    = truncate_file_name file_name_).
    { unfold init. destruct (read _ _). reflexivity. }
    rewrite Hname. repeat split.
Qed.

(** X22. Rows without header line.  A reader that was given its column
    names by [set_header], and a reader that was given none, take the
    columns of the file in their order: on a well-formed file of rows
    without header line the [read_row] calls deliver the rows in their
    order, every cell converted to the type of its variable, the comment
    lines passed over, and the calls after the last row fail with an
    empty error slot. *)
Theorem rows_without_header names vars (groups : list (group F)) trailing
        eol final_eol file file_name_ fresh fuel m :
  table_ok tp qp cp (length names) vars (seq 0 (length names)) groups trailing
           final_eol ->
  line_break eol ->
  skip_bom file
  = file_of_lines eol final_eol
      (table_lines qp (seq 0 (length names)) groups trailing) ->
  (length (table_lines qp (seq 0 (length names)) groups trailing) < fuel)%nat ->
  read_rows strerror tp qp op cp fuel (length groups + m)
            (snd (set_header
                    (new (length names) file_name_ (mk_string_source file)
                         fresh) names)) None vars
  = Some (map (fun g => (true, map (@cell_var F) (snd g), None)) groups
          ++ repeat (false,
                     last (map (fun g => map (@cell_var F) (snd g)) groups) vars,
                     None) m)
  /\ read_rows strerror tp qp op cp fuel (length groups + m)
               (new (length names) file_name_ (mk_string_source file) fresh)
               None vars
     = Some (map (fun g => (true, map (@cell_var F) (snd g), None)) groups
             ++ repeat (false,
                        last (map (fun g => map (@cell_var F) (snd g)) groups)
                             vars,
                        None) m).
Proof.
  intros (Hn & Hvars & Hsep & Hgroups & Htrail & Hlen & Hlast) Heol Hfile Hfuel.
  unfold table_lines in *.
  assert (Hne : seq 0 (length names) <> []).
  { destruct (length names); [lia|discriminate]. }
  assert (Hp : pending (init file_name_ (mk_string_source file) fresh)
                 (file_of_lines eol final_eol
                    (flat_map (fun g => fst g
                                 ++ [row_line qp (seq 0 (length names)) (snd g)])
                              groups ++ trailing))).
  { rewrite <- Hfile. apply init_pending. }
  split;
    apply (read_rows_deliver strerror F tp qp op cp (length names)
             (seq 0 (length names)) eol final_eol fuel m trailing);
    try assumption;
    try (intros i Hi; apply in_seq in Hi; lia);
    try (intros i Hi; apply in_seq; lia);
    try reflexivity;
    cbn [set_header snd new row]; apply repeat_length.
Qed.

End WithPolicies.

Section WithFiles.
Context {Src : Type} {src : ByteSourceBase Src}.
Variable strerror : Z -> cstring.
Variable fopen : cstring -> Src + Z.

(** X23. A reader over a file that is opened by its name.  The
    constructor opens the file whose name is the first 255 bytes of the
    name it is given.  When the file is opened, the reader is the one
    over the bytes of the file; when it is not, the error slot has
    [cannot_open_file] with the value of [errno], the name that was
    tried, and the message made of the name and of the text of the
    error number.  Called with an error pending, the constructor opens
    no file and leaves that error in the slot: its message is made anew
    from its fields, which are all kept. *)
Theorem reader_of_file_name n name fresh e0 :
  match fopen (truncate_file_name name) with
  | inl s =>
      csv_reader_of_name strerror fopen n name fresh None
      = (Some (new n name s fresh), None)
  | inr x =>
      exists e,
        csv_reader_of_name strerror fopen n name fresh None = (None, Some e)
        /\ kind e = cannot_open_file
        /\ errno_ e = x
        /\ Error.file_name e = truncate_file_name name
        /\ error_ e
           = lit "Can not open file " ++ [DQUOTE] ++ truncate_file_name name
             ++ [DQUOTE]
             ++ (if x =? 0 then []
                 else lit " because " ++ [DQUOTE] ++ strerror x ++ [DQUOTE]
                      ++ lit ".")
  end
  /\ csv_reader_of_name strerror fopen n name fresh (Some e0)
     = (None,
        Some (mk_error (kind e0) (message strerror e0) (Error.file_name e0)
                       (column_name e0) (column_content e0)
                       (Error.file_line e0) (errno_ e0))).
Proof.
  unfold csv_reader_of_name, line_reader_of_name, open_file, csv_reader_over.
  split.
  - destruct (fopen (truncate_file_name name)) as [s|x]; cbn [option_map].
    + reflexivity.
    + eexists. split; [reflexivity|]. repeat split.
  - reflexivity.
Qed.


End WithFiles.

End TableFacts.

(** ** More examples *)

Module MoreExampleFacts.
Import Tokenizer Header FieldParser Reader CSV Files.
Import ReaderFacts LinesFacts ColumnFacts HeaderFacts FieldParserFacts
       ValueFacts CSVFacts ErrorFacts ExampleFacts.
Import QuoteFacts HeaderPolicyFacts RowFacts TextFacts TableFacts.

Lemma unclosed_quote_reported_witness :
  exists r' e,
    read_row ex_strerror ex_trim (double_quote_escape COMMA DQUOTE)
             set_to_max_on_overflow no_comment 1 (ex_new 2 open_quote_file)
             None [@XInt no_float SInt 0; XInt SInt 0]
    = Some (false, r', [XInt SInt 0; XInt SInt 0], Some e)
    /\ kind e = escaped_string_not_closed
    /\ Error.file_name e = file_name (after_fetch (ex_new 2 open_quote_file))
    /\ Error.file_line e
       = wrap SInt (file_line (after_fetch (ex_new 2 open_quote_file)))
    /\ error_ e
       = lit "Escaped string was not closed in line "
         ++ dec (wrap SInt (file_line (after_fetch (ex_new 2 open_quote_file))))
         ++ lit " in file "
         ++ file_name (after_fetch (ex_new 2 open_quote_file)).
Proof.
  apply (unclosed_quote_reported ex_strerror no_float ex_trim
           set_to_max_on_overflow no_comment (ex_new 2 open_quote_file) 1
           (lit "1," ++ [DQUOTE] ++ lit "x")
           (after_fetch (ex_new 2 open_quote_file)) COMMA DQUOTE
           [lit "1"] [] (lit "x") [XInt SInt 0; XInt SInt 0]).
  - discriminate.
  - vm_compute. reflexivity.
  - eapply chops_cons; [reflexivity|apply chops_nil].
  - vm_compute. reflexivity.
  - intros [].
  - intros [].
  - cbn. intuition discriminate.
Defined.

Lemma header_accepted_witness :
  read_header ex_strerror ex_trim ex_quote no_comment 1 (ex_new 2 extra_file)
              ignore_extra_column None ex_ab
  = Some (true,
          mk_csv (after_fetch (ex_new 2 extra_file))
                 (row (ex_new 2 extra_file)) ex_ab
                 (map (column_index ex_ab)
                      (map (normalize ex_trim ex_quote)
                           [lit "b"; lit "x"; lit "a"])),
          None).
Proof.
  apply (header_accepted ex_strerror ex_trim ex_quote no_comment
           (ex_new 2 extra_file) 1 ignore_extra_column ex_ab (lit "b,x,a")
           (after_fetch (ex_new 2 extra_file)) [lit "b"; lit "x"; lit "a"]).
  - vm_compute. reflexivity.
  - unfold tokenizes. eapply chops_cons; [reflexivity|].
    eapply chops_cons; [reflexivity|].
    eapply chops_cons; [reflexivity|]. apply chops_nil.
  - vm_compute. repeat constructor; cbn; intuition discriminate.
  - left. discriminate.
  - right. split.
    + repeat constructor; cbn; intuition discriminate.
    + intros n Hn. vm_compute in Hn. vm_compute.
      destruct Hn as [<-|[<-|[]]]; auto.
Defined.

Lemma has_column_after_header_witness :
  exists r',
    read_header ex_strerror ex_trim ex_quote no_comment 1
                (ex_new 2 lonely_file) ignore_missing_column None ex_ab
    = Some (true, r', None)
    /\ forall name,
         has_column r' name = true
         <-> In name ex_ab
             /\ In name (map (normalize ex_trim ex_quote) [lit "b"]).
Proof.
  apply (has_column_after_header ex_strerror ex_trim ex_quote no_comment
           (ex_new 2 lonely_file) 1 ignore_missing_column ex_ab (lit "b")
           (after_fetch (ex_new 2 lonely_file)) [lit "b"]).
  - vm_compute. reflexivity.
  - unfold tokenizes. eapply chops_cons; [reflexivity|apply chops_nil].
  - vm_compute. repeat constructor; cbn; intuition discriminate.
  - right. intros p Hp. vm_compute in Hp. vm_compute.
    destruct Hp as [<-|[]]; auto.
  - left. discriminate.
Defined.

Lemma extra_header_column_witness :
  exists r' e,
    read_header ex_strerror ex_trim ex_quote no_comment 1 (ex_new 2 extra_file)
                ignore_missing_column None ex_ab
    = Some (false, r', Some e)
    /\ kind e = extra_column_in_header
    /\ column_name e = normalize ex_trim ex_quote (lit "x")
    /\ Error.file_name e = file_name (after_fetch (ex_new 2 extra_file))
    /\ error_ e
       = lit "Extra column " ++ [DQUOTE]
         ++ normalize ex_trim ex_quote (lit "x") ++ [DQUOTE]
         ++ lit " in header of file " ++ [DQUOTE]
         ++ file_name (after_fetch (ex_new 2 extra_file)) ++ [DQUOTE].
Proof.
  apply (extra_header_column ex_strerror ex_trim ex_quote no_comment
           (ex_new 2 extra_file) 1 ignore_missing_column ex_ab (lit "b,x,a")
           (after_fetch (ex_new 2 extra_file)) [lit "b"] (lit "x,a") (lit "x")
           (Some (lit "a"))).
  - vm_compute. reflexivity.
  - eapply chops_cons; [reflexivity|apply chops_nil].
  - reflexivity.
  - vm_compute. repeat constructor; cbn; intuition discriminate.
  - intros p Hp. vm_compute in Hp. vm_compute.
    destruct Hp as [<-|[]]; auto.
  - vm_compute. intuition discriminate.
  - reflexivity.
Defined.

Lemma missing_header_column_witness :
  exists r' e,
    read_header ex_strerror ex_trim ex_quote no_comment 1
                (ex_new 2 lonely_file) ignore_extra_column None
                ([lit "b"] ++ lit "b" :: [])
    = Some (false, r', Some e)
    /\ kind e = missing_column_in_header
    /\ column_name e = c_str (lit "b")
    /\ Error.file_name e = file_name (after_fetch (ex_new 2 lonely_file))
    /\ error_ e
       = lit "Missing column " ++ [DQUOTE] ++ c_str (lit "b") ++ [DQUOTE]
         ++ lit " in header of file " ++ [DQUOTE]
         ++ file_name (after_fetch (ex_new 2 lonely_file)) ++ [DQUOTE].
Proof.
  apply (missing_header_column ex_strerror ex_trim ex_quote no_comment
           (ex_new 2 lonely_file) 1 ignore_extra_column (lit "b")
           (after_fetch (ex_new 2 lonely_file)) [lit "b"] [lit "b"] (lit "b")
           []).
  - vm_compute. reflexivity.
  - unfold tokenizes. eapply chops_cons; [reflexivity|apply chops_nil].
  - vm_compute. repeat constructor; cbn; intuition discriminate.
  - left. discriminate.
  - reflexivity.
  - repeat constructor. intros [].
  - intros p [<-|[]]. left. reflexivity.
  - right. left. reflexivity.
Defined.

Lemma absent_column_keeps_variable_witness :
  nth 0 [@XInt no_float SInt 7; XInt SInt 5] (XString []) 
  = nth 0 [@XInt no_float SInt 7; XInt SInt 0] (XString [])
  /\ nth 0 (row (after_row lonely_reader [XInt SInt 7; XInt SInt 0])) None
     = None
  /\ col_order (after_row lonely_reader [XInt SInt 7; XInt SInt 0])
     = col_order lonely_reader.
Proof.
  apply (absent_column_keeps_variable ex_strerror no_float ex_trim ex_quote
           set_to_max_on_overflow no_comment lonely_reader 1
           [XInt SInt 7; XInt SInt 0] 0 (XString []) true
           (after_row lonely_reader [XInt SInt 7; XInt SInt 0])
           [XInt SInt 7; XInt SInt 5] None).
  - reflexivity.
  - vm_compute. intuition discriminate.
  - vm_compute. reflexivity.
Defined.

Lemma parse_failure_report_witness :
  exists e,
    read_row ex_strerror ex_trim ex_quote set_to_max_on_overflow no_comment 1
             letter_reader None
             ([@XInt no_float SInt 7] ++ XInt SInt 9 :: [])
    = Some (false,
            mk_csv (after_fetch letter_reader)
                   [Some (lit "1"); Some (lit "x")]
                   (column_names letter_reader) (col_order letter_reader),
            [XInt SInt 1] ++ XInt SInt 0 :: [], Some e)
    /\ kind e = kind (make_shared no_digit)
    /\ column_content e = lit "x"
    /\ column_name e
       = c_str (nth (length [@XInt no_float SInt 7])
                    (column_names letter_reader) [])
    /\ Error.file_line e = wrap SInt (file_line (after_fetch letter_reader))
    /\ Error.file_name e = file_name (after_fetch letter_reader)
    /\ error_ e = message ex_strerror e.
Proof.
  apply (parse_failure_report ex_strerror no_float ex_trim ex_quote
           set_to_max_on_overflow no_comment letter_reader 1 (lit "1,x")
           (after_fetch letter_reader) [Some (lit "1"); Some (lit "x")]
           [XInt SInt 7] [XInt SInt 1] (XInt SInt 9) (XInt SInt 0)
           (make_shared no_digit) (lit "x") []).
  - vm_compute. reflexivity.
  - vm_compute. reflexivity.
  - vm_compute. reflexivity.
  - reflexivity.
  - reflexivity.
Defined.

Lemma header_missing_reported_witness :
  exists (r' : ex_reader) e,
    read_header ex_strerror ex_trim ex_quote mixed_comments 3
                (new 2 ex_name
                     (mk_string_source
                        (file_of_lines [LF] true [lit "# a,b"; lit " "]))
                     ex_fresh)
                ignore_no_column None ex_ab
    = Some (false, r', Some e)
    /\ kind e = header_missing
    /\ Error.file_name e = truncate_file_name ex_name
    /\ error_ e
       = lit "Header missing in file " ++ [DQUOTE]
         ++ truncate_file_name ex_name ++ [DQUOTE].
Proof.
  apply (header_missing_reported ex_strerror ex_trim ex_quote mixed_comments
           2 ex_name (file_of_lines [LF] true [lit "# a,b"; lit " "]) ex_fresh
           3 ignore_no_column ex_ab [lit "# a,b"; lit " "] [LF] true).
  - apply Forall_cons; [|apply Forall_cons; [|apply Forall_nil]];
      (split; [reflexivity|repeat constructor; discriminate]).
  - pose proof block_len_val.
    repeat constructor; cbn [length lit list_ascii_of_string]; lia.
  - left. reflexivity.
  - discriminate.
  - reflexivity.
  - cbn. lia.
Defined.

Lemma bare_table_ok :
  table_ok ex_trim ex_quote mixed_comments (length ex_abc) mixed_vars
           (seq 0 (length ex_abc)) bare_groups [] true.
Proof.
  unfold table_ok. repeat apply conj.
  - cbn. lia.
  - reflexivity.
  - repeat constructor; discriminate.
  - apply Forall_cons; [|apply Forall_cons; [|apply Forall_nil]].
    + split; [|split; [reflexivity|apply Forall_nil]].
      split; [reflexivity|].
      intros i Hi; destruct i as [|[|[|i']]]; [| | |cbn in Hi; lia];
        repeat apply conj; try reflexivity; try cell_text_tac.
      * padded_tac (@nil ascii) (@nil ascii).
      * padded_tac [SPACE] (@nil ascii).
      * padded_tac (@nil ascii) (@nil ascii).
    + split; [|split; [reflexivity|]].
      * split; [reflexivity|].
        intros i Hi; destruct i as [|[|[|i']]]; [| | |cbn in Hi; lia];
          repeat apply conj; try reflexivity; try cell_text_tac.
        -- padded_tac (@nil ascii) [SPACE].
        -- padded_tac (@nil ascii) (@nil ascii).
        -- padded_tac [SPACE] (@nil ascii).
      * apply Forall_cons; [|apply Forall_nil].
        split; [reflexivity|repeat constructor; discriminate].
  - apply Forall_nil.
  - repeat constructor; vm_compute; discriminate.
  - discriminate.
Qed.

Lemma rows_without_header_witness :
  read_rows ex_strerror ex_trim ex_quote set_to_max_on_overflow mixed_comments
            4 (length bare_groups + 1)
            (snd (set_header
                    (new (length ex_abc) ex_name (mk_string_source bare_file)
                         ex_fresh) ex_abc)) None mixed_vars
  = Some (map (fun g => (true, map (@cell_var expr_floats) (snd g), None))
              bare_groups
          ++ repeat (false,
                     last (map (fun g => map (@cell_var expr_floats) (snd g))
                               bare_groups) mixed_vars,
                     None) 1)
  /\ read_rows ex_strerror ex_trim ex_quote set_to_max_on_overflow
               mixed_comments 4 (length bare_groups + 1)
               (new (length ex_abc) ex_name (mk_string_source bare_file)
                    ex_fresh) None mixed_vars
     = Some (map (fun g => (true, map (@cell_var expr_floats) (snd g), None))
                 bare_groups
             ++ repeat (false,
                        last (map (fun g => map (@cell_var expr_floats) (snd g))
                                  bare_groups) mixed_vars,
                        None) 1).
Proof.
  apply (rows_without_header ex_strerror expr_floats ex_trim ex_quote
           set_to_max_on_overflow mixed_comments ex_abc mixed_vars bare_groups
           [] [LF] true bare_file ex_name ex_fresh 4 1).
  - exact bare_table_ok.
  - left. reflexivity.
  - reflexivity.
  - vm_compute. lia.
Defined.

End MoreExampleFacts.
